(** * SkypeLens: the message classification pipeline and the search helpers

    A shallow embedding of [src/utils/messageProcessor.ts],
    [src/utils/messageSearch.ts], [src/utils/displayName.ts],
    [src/utils/mediaUtils.ts], [src/utils/dateFormat.ts] and the constants
    of [src/constants] they use.

    Conventions of the embedding.
    - A JavaScript string is a [string]: the sequence of its bytes in UTF-8,
      as the literals of the source file are stored.  Every character the
      program tests by value (["<"], [">"], [":"], the quote, digits and the
      ASCII letters) is a single byte that occurs in no multi-byte sequence,
      so scanning bytes and scanning UTF-16 code units cut a text at the same
      places.
    - Case mapping ([toLowerCase], the [i] flag) is computed on ASCII
      characters; on the others it is that of the case tables of the host,
      which are variables ([lowerCase], [caseVariants]) of the sections that
      use them.
    - A number is a binary64 value: reading a decimal text and dividing
      round to the nearest value, printing gives the shortest digits that
      read back.
    - The interfaces of the source declare the JSON fields [title], [text]
      and [translation] as strings, and the embedding reads them as such; a
      statement that depends on such a read says so in a hypothesis.
    - [undefined] and [null] of an optional value are [None].
    - A [Set<string>] is a [gset string]; mutation of the context is explicit
      state passing.
    - Logging ([console.error], [debugLog]) and timing have no effect on the
      results and are left out.
    - An exception that the source catches is [None] of an [option]; the
      functions of the embedding are total.
    - [parseSkypeEmoji], [DOMPurify.sanitize] and the host [document] are
      collaborators whose code is not part of these sources: they are
      variables of the sections that use them. *)

From Stdlib Require Import Ascii String List Sorted ZArith QArith Qround Qpower Qabs Bool
  Lia Lqa.
From stdpp Require Import base gmap strings.

Import ListNotations.
Open Scope list_scope.
Open Scope stdpp_scope.

(* [set_solver] clears hypotheses by name, whether or not they are there. *)
Set Warnings "-clear-no-such-hyp".

(** ** JavaScript strings *)

Module JsString.

Definition chr (n : nat) : ascii := ascii_of_nat n.

(** The double quote, as a one-character string. *)
Definition dq : string := String (chr 34) EmptyString.

(** [quoted s] is [s] with every apostrophe replaced by a double quote;
    it only serves to write JSON and markup examples legibly. *)
Fixpoint quoted (s : string) : string :=
  match s with
  | EmptyString => EmptyString
  | String c r => String (if Ascii.eqb c "'"%char then chr 34 else c) (quoted r)
  end.

Fixpoint rev_onto (s acc : string) : string :=
  match s with
  | EmptyString => acc
  | String c r => rev_onto r (String c acc)
  end.

Definition rev (s : string) : string := rev_onto s EmptyString.

Definition is_empty (s : string) : bool :=
  match s with EmptyString => true | _ => false end.

(** [s.startsWith(p)]: the remainder of [s] after the prefix [p]. *)
Fixpoint strip_prefix (p s : string) : option string :=
  match p, s with
  | EmptyString, _ => Some s
  | String a p', String b s' => if Ascii.eqb a b then strip_prefix p' s' else None
  | String _ _, EmptyString => None
  end.

Definition startsWith (s p : string) : bool :=
  match strip_prefix p s with Some _ => true | None => false end.

(** [s.includes(p)] *)
Fixpoint includes (s p : string) : bool :=
  startsWith s p ||
  match s with
  | EmptyString => false
  | String _ r => includes r p
  end.

(** [s.endsWith(p)] on the reversed strings. *)
Definition endsWith (s p : string) : bool := startsWith (rev s) (rev p).

(** ASCII case mapping. *)
Definition lower (c : ascii) : ascii :=
  let n := nat_of_ascii c in
  if (65 <=? n) && (n <=? 90) then ascii_of_nat (n + 32) else c.

Definition upper (c : ascii) : ascii :=
  let n := nat_of_ascii c in
  if (97 <=? n) && (n <=? 122) then ascii_of_nat (n - 32) else c.

Fixpoint ascii_lower (s : string) : string :=
  match s with
  | EmptyString => EmptyString
  | String c r => String (lower c) (ascii_lower r)
  end.

(** A text of ASCII characters only. *)
Fixpoint is_ascii (s : string) : bool :=
  match s with
  | EmptyString => true
  | String c r => (nat_of_ascii c <? 128) && is_ascii r
  end.

Section CaseMapping.

(** [String.prototype.toLowerCase] maps a text of ASCII characters letter by
    letter.  A text with other characters is mapped by the case tables of
    Unicode, which are the host's and no part of the sources: [lowerCase]. *)
Variable lowerCase : string -> string.

Definition toLowerCase (s : string) : string :=
  if is_ascii s then ascii_lower s else lowerCase s.

End CaseMapping.

(** The number of bytes that follow a leading byte of UTF-8: a byte below
    192 is a character of its own (or, inside a sequence, one of its
    followers); a byte from 192 on leads a sequence of two, three or four
    bytes. *)
Definition followers (c : ascii) : nat :=
  let n := nat_of_ascii c in
  if n <? 192 then 0 else if n <? 224 then 1 else if n <? 240 then 2 else 3.

Fixpoint take_bytes (n : nat) (s : string) : string :=
  match n, s with
  | S n', String c r => String c (take_bytes n' r)
  | _, _ => EmptyString
  end.

Fixpoint drop_bytes (n : nat) (s : string) : string :=
  match n, s with
  | S n', String _ r => drop_bytes n' r
  | _, _ => s
  end.

(** The characters of a text, each as its UTF-8 sequence. *)
Fixpoint characters (fuel : nat) (s : string) : list string :=
  match fuel, s with
  | S fuel', String c r =>
      String c (take_bytes (followers c) r)
      :: characters fuel' (drop_bytes (followers c) r)
  | _, _ => []
  end.

(** White space and line terminators of ECMAScript ([String.prototype.trim]),
    each as its UTF-8 byte sequence: TAB, LF, VT, FF, CR, SP, U+00A0,
    U+1680, U+2000..U+200A, U+2028, U+2029, U+202F, U+205F, U+3000,
    U+FEFF. *)
Definition bytes (l : list nat) : string :=
  fold_right (fun n s => String (chr n) s) EmptyString l.

Definition white_space : list string :=
  map bytes
    ([ [9]; [10]; [11]; [12]; [13]; [32]; [194; 160]; [225; 154; 128] ]
     ++ map (fun k => [226; 128; 128 + k]) (seq 0 11)
     ++ [ [226; 128; 168]; [226; 128; 169]; [226; 128; 175];
          [226; 129; 159]; [227; 128; 128]; [239; 187; 191] ]).

(** Remove one leading white-space character, if there is one. *)
Fixpoint strip_one (ws : list string) (s : string) : option string :=
  match ws with
  | [] => None
  | w :: ws' =>
      match strip_prefix w s with
      | Some r => Some r
      | None => strip_one ws' s
      end
  end.

Fixpoint strip_leading (ws : list string) (fuel : nat) (s : string) : string :=
  match fuel with
  | 0 => s
  | S fuel' =>
      match strip_one ws s with
      | Some r => strip_leading ws fuel' r
      | None => s
      end
  end.

Definition trimStart (s : string) : string :=
  strip_leading white_space (String.length s) s.

Definition trimEnd (s : string) : string :=
  rev (strip_leading (map rev white_space) (String.length s) (rev s)).

Definition trim (s : string) : string := trimEnd (trimStart s).

(** [s.split(sep)] for a one-character separator: never empty. *)
Fixpoint split_on (sep : ascii) (s : string) : list string :=
  match s with
  | EmptyString => [EmptyString]
  | String c r =>
      if Ascii.eqb c sep then EmptyString :: split_on sep r
      else
        match split_on sep r with
        | [] => [String c EmptyString]
        | h :: t => String c h :: t
        end
  end.

(** [a.pop()] on a fresh array: its last element, if any. *)
Definition pop (l : list string) : option string := last l.

(** [a.join(sep)] *)
Fixpoint join (sep : string) (l : list string) : string :=
  match l with
  | [] => EmptyString
  | [x] => x
  | x :: r => x +:+ sep +:+ join sep r
  end.

(** Number of occurrences of a character. *)
Fixpoint count (c : ascii) (s : string) : nat :=
  match s with
  | EmptyString => 0
  | String a r => (if Ascii.eqb a c then 1 else 0) + count c r
  end.

(** [x || y] on optional strings: the empty string is falsy. *)
Definition truthy (o : option string) : option string :=
  match o with
  | Some s => if is_empty s then None else Some s
  | None => None
  end.

Definition or_else (o : option string) (d : string) : string :=
  match truthy o with Some s => s | None => d end.

End JsString.

(** ** Regular expressions

    The regular-expression literals of the source are data: a small syntax
    and a backtracking matcher in continuation-passing style, with the
    priorities of ECMAScript (leftmost alternative first, greedy or lazy
    repetition, an iteration that consumes nothing is rejected). *)

Module Regex.
Import JsString.

Inductive regex : Type :=
| Eps
| Chr (p : ascii -> bool)
| Seq (r1 r2 : regex)
| Alt (r1 r2 : regex)
| Star (greedy : bool) (r : regex)
| Group (n : nat) (r : regex)
| Bol
| Eol.

(** Captures, most recent first. *)
Definition captures := list (nat * string).
Definition outcome := (captures * string)%type.
Definition cont := captures -> string -> option outcome.

Fixpoint take (n : nat) (s : string) : string :=
  match n, s with
  | S n', String c r => String c (take n' r)
  | _, _ => EmptyString
  end.

(** The text consumed between [s] and its suffix [rest]. *)
Definition consumed (s rest : string) : string :=
  take (String.length s - String.length rest) s.

Fixpoint cap (caps : captures) (n : nat) : option string :=
  match caps with
  | [] => None
  | (m, v) :: caps' => if Nat.eqb m n then Some v else cap caps' n
  end.

(** Repetition of a matcher [m]; [fuel] bounds the iterations, each of
    which has to consume at least one character. *)
Fixpoint star_loop (m : cont -> captures -> string -> option outcome)
    (greedy : bool) (fuel : nat) (k : cont) (caps : captures) (s : string)
    : option outcome :=
  match fuel with
  | 0 => k caps s
  | S fuel' =>
      let again :=
        m (fun caps1 s1 =>
             if String.length s1 <? String.length s
             then star_loop m greedy fuel' k caps1 s1
             else None) caps s in
      if greedy then
        match again with Some o => Some o | None => k caps s end
      else
        match k caps s with Some o => Some o | None => again end
  end.

(** [rmatch total r k caps s]: match [r] at the head of [s], then continue
    with [k]; [total] is the length of the whole input, for [Bol]. *)
Fixpoint rmatch (total : nat) (r : regex) (k : cont) (caps : captures)
    (s : string) {struct r} : option outcome :=
  match r with
  | Eps => k caps s
  | Chr p =>
      match s with
      | String c s' => if p c then k caps s' else None
      | EmptyString => None
      end
  | Seq r1 r2 => rmatch total r1 (fun caps1 s1 => rmatch total r2 k caps1 s1) caps s
  | Alt r1 r2 =>
      match rmatch total r1 k caps s with
      | Some o => Some o
      | None => rmatch total r2 k caps s
      end
  | Star greedy r1 =>
      star_loop (rmatch total r1) greedy (S (String.length s)) k caps s
  | Group n r1 =>
      rmatch total r1 (fun caps1 s1 => k ((n, consumed s s1) :: caps1) s1) caps s
  | Bol => if String.length s =? total then k caps s else None
  | Eol => if is_empty s then k caps s else None
  end.

Definition accept : cont := fun caps s => Some (caps, s).

(** One match: the text before it, the matched text, the captures and the
    text after it. *)
Record found := Found {
  before : string;
  whole : string;
  groups : captures;
  after : string
}.

Definition shift (c : ascii) (f : found) : found :=
  Found (String c (before f)) (whole f) (groups f) (after f).

(** The leftmost match at or after the head of [s]. *)
Fixpoint search (total : nat) (r : regex) (s : string) : option found :=
  match rmatch total r accept [] s with
  | Some (caps, rest) => Some (Found EmptyString (consumed s rest) caps rest)
  | None =>
      match s with
      | EmptyString => None
      | String c s' => option_map (shift c) (search total r s')
      end
  end.

(** All successive matches of a [g] regular expression, and the text after
    the last one.  After an empty match the scan advances by one
    character, which then belongs to the text before the next match. *)
Fixpoint scan (fuel total : nat) (r : regex) (s : string) : list found * string :=
  match fuel with
  | 0 => ([], s)
  | S fuel' =>
      match search total r s with
      | None => ([], s)
      | Some f =>
          if is_empty (whole f) then
            match after f with
            | EmptyString => ([f], EmptyString)
            | String c rest =>
                match scan fuel' total r rest with
                | ([], tl) => ([f], String c tl)
                | (g :: gs, tl) => (f :: shift c g :: gs, tl)
                end
            end
          else
            let (fs, tl) := scan fuel' total r (after f) in (f :: fs, tl)
      end
  end.

Definition scan_all (r : regex) (s : string) : list found * string :=
  scan (S (String.length s)) (String.length s) r s.

(** [r.exec(s)] and [s.match(r)] without the [g] flag. *)
Definition exec (r : regex) (s : string) : option found :=
  search (String.length s) r s.

(** [r.test(s)] *)
Definition test (r : regex) (s : string) : bool :=
  match exec r s with Some _ => true | None => false end.

(** [m[n]] of a match result: [undefined] when the group took no part. *)
Definition group (f : found) (n : nat) : option string := cap (groups f) n.

(** [s.match(r)] with the [g] flag: the matched texts, [null] when none. *)
Definition match_all (r : regex) (s : string) : option (list string) :=
  match fst (scan_all r s) with
  | [] => None
  | fs => Some (map whole fs)
  end.

(** Replacement strings: literal text and [$n]. *)
Inductive piece := Txt (s : string) | Ref (n : nat).

Fixpoint expand (tmpl : list piece) (f : found) : string :=
  match tmpl with
  | [] => EmptyString
  | Txt s :: t => s +:+ expand t f
  | Ref n :: t => default EmptyString (group f n) +:+ expand t f
  end.

Fixpoint rebuild (tmpl : list piece) (fs : list found) (tl : string) : string :=
  match fs with
  | [] => tl
  | f :: fs' => before f +:+ expand tmpl f +:+ rebuild tmpl fs' tl
  end.

(** [s.replace(r, tmpl)] with the [g] flag. *)
Definition replace_all (r : regex) (tmpl : list piece) (s : string) : string :=
  let (fs, tl) := scan_all r s in rebuild tmpl fs tl.

(** *** Pattern combinators *)

Definition just (c : ascii) : ascii -> bool := fun x => Ascii.eqb x c.
(** An ASCII character of a pattern under the [i] flag: it stands for its
    two cases, and for no other character, since the canonical form of a
    character outside ASCII is never an ASCII character. *)
Definition just_i (c : ascii) : ascii -> bool := fun x => Ascii.eqb (upper x) (upper c).
Definition one_of (l : string) : ascii -> bool :=
  fun x => includes l (String x EmptyString).
Definition none_of (l : string) : ascii -> bool := fun x => negb (one_of l x).
Definition between (a b : nat) : ascii -> bool :=
  fun x => (a <=? nat_of_ascii x) && (nat_of_ascii x <=? b).

Fixpoint lit (s : string) : regex :=
  match s with
  | EmptyString => Eps
  | String c r => Seq (Chr (just c)) (lit r)
  end.

(** An ASCII literal under the [i] flag. *)
Fixpoint lit_i (s : string) : regex :=
  match s with
  | EmptyString => Eps
  | String c r => Seq (Chr (just_i c)) (lit_i r)
  end.

Fixpoint seqs (l : list regex) : regex :=
  match l with
  | [] => Eps
  | [r] => r
  | r :: l' => Seq r (seqs l')
  end.

Fixpoint alts (l : list regex) : regex :=
  match l with
  | [] => Chr (fun _ => false)
  | [r] => r
  | r :: l' => Alt r (alts l')
  end.

Section CaseFolding.

(** The characters the [i] flag takes for a given character outside ASCII,
    each as its UTF-8 sequence: those with the same canonical form, which
    the case tables of the host define. *)
Variable caseVariants : string -> list string.

(** One character of a pattern under the [i] flag (without the [u] flag).
    A character of one byte is compared as [just_i] does.  A character of
    four bytes is a surrogate pair, and a surrogate stands for itself alone.
    Any other character stands for itself and its variants. *)
Definition char_i (w : string) : regex :=
  match w with
  | String c EmptyString => Chr (just_i c)
  | String _ (String _ (String _ (String _ _))) => lit w
  | _ => alts (map lit (w :: caseVariants w))
  end.

(** Any literal under the [i] flag. *)
Definition text_i (s : string) : regex :=
  fold_right (fun w r => Seq (char_i w) r) Eps (characters (String.length s) s).

End CaseFolding.

Definition star (r : regex) : regex := Star true r.
Definition lazy_star (r : regex) : regex := Star false r.
Definition plus (r : regex) : regex := Seq r (Star true r).
Definition opt (r : regex) : regex := Alt r Eps.

(** [\d], [\w], [\s] and [.] *)
Definition digit : regex := Chr (between 48 57).
Definition word : regex :=
  Chr (fun x => between 48 57 x || between 65 90 x || between 97 122 x || just "_"%char x).
Definition space : regex := alts (map lit white_space).
Definition any : regex := Chr (fun _ => true).
(** [.] without the [s] flag excludes LF, CR, U+2028 and U+2029; the last
    two are the byte sequences 226 128 168 and 226 128 169. *)
Definition dot : regex :=
  Alt (Chr (fun x => negb (just (chr 10) x || just (chr 13) x || just (chr 226) x)))
      (Seq (Chr (just (chr 226)))
           (Alt (Chr (fun x => negb (just (chr 128) x)))
                (Seq (Chr (just (chr 128)))
                     (Chr (fun x => negb (just (chr 168) x || just (chr 169) x)))))).

End Regex.

(** ** JSON

    [JSON.parse] and the property reads the sub-parsers perform on its
    result.  [None] from [parse] is the [SyntaxError]. *)

Module Json.
Import JsString.

#[local] Unset Elimination Schemes.
Inductive json : Type :=
| JNull
| JBool (b : bool)
| JNumber (text : string)
| JString (s : string)
| JArray (items : list json)
| JObject (members : list (string * json)).
#[local] Set Elimination Schemes.

Definition is_ws (c : ascii) : bool :=
  let n := nat_of_ascii c in (n =? 32) || (n =? 9) || (n =? 10) || (n =? 13).

Fixpoint skip_ws (s : string) : string :=
  match s with
  | String c r => if is_ws c then skip_ws r else s
  | EmptyString => s
  end.

Definition is_digit (c : ascii) : bool :=
  let n := nat_of_ascii c in (48 <=? n) && (n <=? 57).

Definition hex_value (c : ascii) : option N :=
  let n := nat_of_ascii c in
  if (48 <=? n) && (n <=? 57) then Some (N.of_nat (n - 48))
  else if (65 <=? n) && (n <=? 70) then Some (N.of_nat (n - 55))
  else if (97 <=? n) && (n <=? 102) then Some (N.of_nat (n - 87))
  else None.

(** Four hexadecimal digits at the head of [s]. *)
Definition hex4 (s : string) : option (N * string) :=
  match s with
  | String a (String b (String c (String d r))) =>
      match hex_value a, hex_value b, hex_value c, hex_value d with
      | Some x, Some y, Some z, Some w => Some (x * 4096 + y * 256 + z * 16 + w, r)%N
      | _, _, _, _ => None
      end
  | _ => None
  end.

Definition byte (n : N) : ascii := ascii_of_N n.

(** UTF-8 of a code point (a lone surrogate is encoded like any other
    three-byte value). *)
Definition utf8 (cp : N) : string :=
  (if cp <? 128 then String (byte cp) EmptyString
   else if cp <? 2048 then
     String (byte (192 + cp / 64)) (String (byte (128 + cp mod 64)) EmptyString)
   else if cp <? 65536 then
     String (byte (224 + cp / 4096))
       (String (byte (128 + (cp / 64) mod 64))
          (String (byte (128 + cp mod 64)) EmptyString))
   else
     String (byte (240 + cp / 262144))
       (String (byte (128 + (cp / 4096) mod 64))
          (String (byte (128 + (cp / 64) mod 64))
             (String (byte (128 + cp mod 64)) EmptyString))))%N.

(** A [\uXXXX] escape whose digits are [hi], followed by [r]: a high
    surrogate directly followed by an escaped low surrogate is one code
    point. *)
Definition unicode_escape (hi : N) (r : string) : string * string :=
  let single := (utf8 hi, r) in
  if ((55296 <=? hi) && (hi <? 56320))%N then
    match r with
    | String "\" (String "u" r1) =>
        match hex4 r1 with
        | Some (lo, r2) =>
            if ((56320 <=? lo) && (lo <? 57344))%N
            then (utf8 (65536 + (hi - 55296) * 1024 + (lo - 56320))%N, r2)
            else single
        | None => single
        end
    | _ => single
    end
  else single.

(** The characters of a string literal after its opening quote, up to and
    including the closing quote. *)
Fixpoint string_body (fuel : nat) (s : string) : option (string * string) :=
  match fuel with
  | 0 => None
  | S fuel' =>
      match s with
      | EmptyString => None
      | String c r =>
          if Ascii.eqb c (chr 34) then Some (EmptyString, r)
          else if Ascii.eqb c "\"%char then
            match r with
            | EmptyString => None
            | String e r' =>
                let simple (x : nat) :=
                  match string_body fuel' r' with
                  | Some (t, rest) => Some (String (chr x) t, rest)
                  | None => None
                  end in
                if Ascii.eqb e (chr 34) then simple 34
                else if Ascii.eqb e "\"%char then simple 92
                else if Ascii.eqb e "/"%char then simple 47
                else if Ascii.eqb e "b"%char then simple 8
                else if Ascii.eqb e "f"%char then simple 12
                else if Ascii.eqb e "n"%char then simple 10
                else if Ascii.eqb e "r"%char then simple 13
                else if Ascii.eqb e "t"%char then simple 9
                else if Ascii.eqb e "u"%char then
                  match hex4 r' with
                  | Some (hi, r2) =>
                      let (enc, r3) := unicode_escape hi r2 in
                      match string_body fuel' r3 with
                      | Some (t, rest) => Some (enc +:+ t, rest)
                      | None => None
                      end
                  | None => None
                  end
                else None
            end
          else if nat_of_ascii c <? 32 then None
          else
            match string_body fuel' r with
            | Some (t, rest) => Some (String c t, rest)
            | None => None
            end
      end
  end.

Fixpoint digits (s : string) : string * string :=
  match s with
  | String c r =>
      if is_digit c then let (d, rest) := digits r in (String c d, rest)
      else (EmptyString, s)
  | EmptyString => (EmptyString, s)
  end.

(** A number literal: an optional minus sign, an integer part without a
    superfluous leading zero, an optional fraction and an optional
    exponent.  Returns its text and the rest. *)
Definition number (s : string) : option (string * string) :=
  let (sign, s1) :=
    match s with
    | String "-" r => ("-", r)
    | _ => (EmptyString, s)
    end in
  let (int, s2) := digits s1 in
  let int_ok :=
    match int with
    | EmptyString => false
    | String "0" (String _ _) => false
    | _ => true
    end in
  if negb int_ok then None
  else
    let frac :=
      match s2 with
      | String "." r =>
          let (d, rest) := digits r in
          if is_empty d then None else Some ("." +:+ d, rest)
      | _ => Some (EmptyString, s2)
      end in
    match frac with
    | None => None
    | Some (f, s3) =>
        let expo :=
          match s3 with
          | String e r =>
              if Ascii.eqb e "e"%char || Ascii.eqb e "E"%char then
                let (sg, r1) :=
                  match r with
                  | String "+" r' => ("+", r')
                  | String "-" r' => ("-", r')
                  | _ => (EmptyString, r)
                  end in
                let (d, rest) := digits r1 in
                if is_empty d then None
                else Some (String e EmptyString +:+ sg +:+ d, rest)
              else Some (EmptyString, s3)
          | EmptyString => Some (EmptyString, s3)
          end in
        match expo with
        | None => None
        | Some (e, s4) => Some (sign +:+ int +:+ f +:+ e, s4)
        end
    end.

(** Values, array elements (after the first) and object members (after the
    first), each on text whose leading white space is already skipped where
    the grammar allows it. *)
Fixpoint value (fuel : nat) (s : string) : option (json * string) :=
  match fuel with
  | 0 => None
  | S fuel' =>
      let elements :=
        fix elements (n : nat) (acc : list json) (s : string) {struct n}
            : option (json * string) :=
          match n with
          | 0 => None
          | S n' =>
              match value fuel' (skip_ws s) with
              | Some (v, r) =>
                  match skip_ws r with
                  | String "," r' => elements n' (v :: acc) r'
                  | String "]" r' => Some (JArray (List.rev (v :: acc)), r')
                  | _ => None
                  end
              | None => None
              end
          end in
      let members :=
        fix members (n : nat) (acc : list (string * json)) (s : string) {struct n}
            : option (json * string) :=
          match n with
          | 0 => None
          | S n' =>
              match skip_ws s with
              | String q r0 =>
                  if Ascii.eqb q (chr 34) then
                    match string_body (String.length r0) r0 with
                    | Some (key, r1) =>
                        match skip_ws r1 with
                        | String ":" r2 =>
                            match value fuel' (skip_ws r2) with
                            | Some (v, r3) =>
                                match skip_ws r3 with
                                | String "," r4 => members n' ((key, v) :: acc) r4
                                | String "}" r4 =>
                                    Some (JObject (List.rev ((key, v) :: acc)), r4)
                                | _ => None
                                end
                            | None => None
                            end
                        | _ => None
                        end
                    | None => None
                    end
                  else None
              | EmptyString => None
              end
          end in
      match s with
      | EmptyString => None
      | String c r =>
          if Ascii.eqb c "["%char then
            match skip_ws r with
            | String "]" r' => Some (JArray [], r')
            | _ => elements (String.length r) [] r
            end
          else if Ascii.eqb c "{"%char then
            match skip_ws r with
            | String "}" r' => Some (JObject [], r')
            | _ => members (String.length r) [] r
            end
          else if Ascii.eqb c (chr 34) then
            match string_body (String.length r) r with
            | Some (t, rest) => Some (JString t, rest)
            | None => None
            end
          else
            match strip_prefix "true" s, strip_prefix "false" s, strip_prefix "null" s with
            | Some rest, _, _ => Some (JBool true, rest)
            | _, Some rest, _ => Some (JBool false, rest)
            | _, _, Some rest => Some (JNull, rest)
            | _, _, _ =>
                match number s with
                | Some (t, rest) => Some (JNumber t, rest)
                | None => None
                end
            end
      end
  end.

(** [JSON.parse(text)]: one value between optional white space.  Every
    nested value starts at least one character further, so the nesting
    depth is below the fuel. *)
Definition parse (text : string) : option json :=
  match value (S (String.length text)) (skip_ws text) with
  | Some (v, rest) => if is_empty (skip_ws rest) then Some v else None
  | None => None
  end.

(** *** Reading a parsed value

    A JavaScript value here is [undefined] ([None]) or a JSON value. *)

(** The last binding wins, as [JSON.parse] defines the members in order. *)
Fixpoint lookup_member (k : string) (ms : list (string * json)) : option json :=
  match ms with
  | [] => None
  | (k', v) :: ms' =>
      match lookup_member k ms' with
      | Some w => Some w
      | None => if String.eqb k' k then Some v else None
      end
  end.

(** [v.k] for a property name [k] that is no index and no built-in of
    strings, arrays, numbers or booleans: only an object can have it.
    [v] is neither [null] nor [undefined]. *)
Definition field (v : json) (k : string) : option json :=
  match v with
  | JObject ms => lookup_member k ms
  | _ => None
  end.

(** [v[0]] on a value that is neither [null] nor [undefined]: the first
    element of an array, the member ["0"] of an object, the first
    character of a string. *)
Definition first (v : json) : option json :=
  match v with
  | JArray items => head items
  | JObject ms => lookup_member "0" ms
  | JString (String c _) => Some (JString (String c EmptyString))
  | _ => None
  end.

(** [null] and [undefined] *)
Definition nullish (v : option json) : bool :=
  match v with
  | None | Some JNull => true
  | Some _ => false
  end.

(** [v?.k] and [v?.[0]] *)
Definition field_opt (v : option json) (k : string) : option json :=
  match v with
  | None | Some JNull => None
  | Some j => field j k
  end.

Definition first_opt (v : option json) : option json :=
  match v with
  | None | Some JNull => None
  | Some j => first j
  end.

(** [v.k] and [v[0]]: a [TypeError] ([None]) on [null] and [undefined]. *)
Definition field_strict (v : option json) (k : string) : option (option json) :=
  if nullish v then None else Some (field_opt v k).

Definition first_strict (v : option json) : option (option json) :=
  if nullish v then None else Some (first_opt v).

(** The interfaces of the source declare the text fields they read
    ([title], [text], [translation]) as strings.  The embedding follows the
    declaration: a field that holds a string is read as that string; a
    field that is missing or holds [null], [false] or [0] is falsy in the
    source and absent here; a field holding any other value is outside the
    declared type and is read as absent too. *)
Definition text_of (v : option json) : option string :=
  match v with
  | Some (JString s) => Some s
  | _ => None
  end.

End Json.

(** ** Numbers

    The numbers of the call and file-size parsers are binary64 values.  A
    finite one is held as the rational it is, in lowest terms; the sign of a
    zero, which no function of these sources tells apart, is not kept.  An
    operation that binary64 rounds (reading a decimal text, a division) is
    the exact operation followed by [round64], the rounding to the nearest
    value and to the even one of two; the remainder, [Math.floor],
    [Math.max] and the comparisons are exact in binary64 and here. *)

Module JsNumber.
Import JsString.

Inductive number : Type :=
| NaN
| Inf (negative : bool)
| Fin (q : Q).

(** The integer nearest to [y], the even one of two. *)
Definition nearest_even (y : Q) : Z :=
  let f := Qfloor y in
  match (y - inject_Z f ?= 1 # 2)%Q with
  | Lt => f
  | Gt => (f + 1)%Z
  | Eq => if Z.even f then f else (f + 1)%Z
  end.

(** The [l] with [2^l <= x < 2^(l+1)], for [0 < x]. *)
Definition binade (x : Q) : Z :=
  let l := (Z.log2 (Qnum x) - Z.log2 (Zpos (Qden x)))%Z in
  if Qle_bool (2 ^ l) x then l else (l - 1)%Z.

(** Rounding of [0 < x]: 53 significant bits, exponents from -1074 on, and
    [Infinity] from [2^1024] on. *)
Definition round_pos (x : Q) : number :=
  let e := Z.max (binade x - 52) (-1074) in
  let m := nearest_even (x * 2 ^ (- e)) in
  if (971 <? e)%Z || ((e =? 971)%Z && (2 ^ 53 <=? m)%Z) then Inf false
  else Fin (Qred (inject_Z m * 2 ^ e)).

Definition negate (x : number) : number :=
  match x with
  | NaN => NaN
  | Inf s => Inf (negb s)
  | Fin q => Fin (- q)
  end.

Definition round64 (q : Q) : number :=
  match Qnum q with
  | Z0 => Fin 0
  | Zpos _ => round_pos q
  | Zneg _ => negate (round_pos (- q))
  end.

(** The finite binary64 values. *)
Definition double (q : Q) : Prop :=
  exists m e : Z,
    (-1074 <= e <= 971)%Z /\ (Z.abs m < 2 ^ 53)%Z /\ (q == inject_Z m * 2 ^ e)%Q.

Definition digit_char (n : N) : ascii := ascii_of_N (48 + n).

Fixpoint N_digits (fuel : nat) (n : N) (acc : string) : string :=
  match fuel with
  | 0 => acc
  | S fuel' =>
      let acc' := String (digit_char (n mod 10)) acc in
      if (n <? 10)%N then acc' else N_digits fuel' (n / 10) acc'
  end.

(** Decimal text of a natural number. *)
Definition N_to_string (n : N) : string :=
  N_digits (S (N.to_nat (N.log2 n))) n EmptyString.

Definition Z_to_string (z : Z) : string :=
  match z with
  | Zneg p => "-" +:+ N_to_string (Npos p)
  | _ => N_to_string (Z.to_N z)
  end.

(** *** [String(x)]

    [Number::toString] prints the shortest digits that read back as the
    value; below [2^53] these are all the digits of a whole number.  From
    [2^53] on, the values that round to the whole number [n] are those
    within half the distance to its neighbours, ends included when the
    significand of [n] is even. *)
Section Shortest.

Variable n : Z.

Definition ulp_exponent : Z := (Z.log2 n - 52)%Z.

(** Twice the ends of the interval that rounds to [n]. *)
Definition twice_low : Z :=
  (2 * n - (if (n =? 2 ^ Z.log2 n)%Z then 2 ^ (ulp_exponent - 1)
            else 2 ^ ulp_exponent))%Z.

Definition twice_high : Z := (2 * n + 2 ^ ulp_exponent)%Z.

Definition reads_back (v : Z) : bool :=
  if Z.even (n / 2 ^ ulp_exponent)
  then (twice_low <=? 2 * v)%Z && (2 * v <=? twice_high)%Z
  else (twice_low <? 2 * v)%Z && (2 * v <? twice_high)%Z.

(** The multiple of [10^p] that reads back as [n], the nearest to [n] if
    there are two. *)
Definition shortest_at (p : nat) : option Z :=
  let t := (10 ^ Z.of_nat p)%Z in
  let d := (t * (n / t))%Z in
  let u := (d + t)%Z in
  match reads_back d && (0 <? d)%Z, reads_back u with
  | true, true =>
      match (n - d ?= u - n)%Z with
      | Lt => Some d
      | Gt => Some u
      | Eq => if Z.even (d / t) then Some d else Some u
      end
  | true, false => Some d
  | false, true => Some u
  | false, false => None
  end.

(** The greatest [p <= start] with such a multiple. *)
Fixpoint shortest (start : nat) : Z * nat :=
  match shortest_at start with
  | Some v => (v, start)
  | None =>
      match start with
      | 0 => (n, 0)
      | S p => shortest p
      end
  end.

End Shortest.

Fixpoint zeros (k : nat) : string :=
  match k with
  | 0 => EmptyString
  | S k' => String "0" (zeros k')
  end.

(** [String(n)] for a whole binary64 value [0 <= n]: plain digits up to 21
    of them, exponent notation beyond. *)
Definition whole_text (n : Z) : string :=
  if (n <? 2 ^ 53)%Z then Z_to_string n
  else
    let (v, p) := shortest n (Z.to_nat (Z.log2 n)) in
    let s := Z_to_string (v / 10 ^ Z.of_nat p) in
    let k := (String.length s + p)%nat in
    if (k <=? 21)%nat then s +:+ zeros p
    else
      match s with
      | String c EmptyString => String c EmptyString
      | String c r => String c ("." +:+ r)
      | EmptyString => EmptyString
      end +:+ "e+" +:+ Z_to_string (Z.of_nat k - 1).

(** The values [Math.floor] returns. *)
Inductive integer : Type := INaN | IInf (negative : bool) | IFin (z : Z).

Definition integer_to_string (i : integer) : string :=
  match i with
  | INaN => "NaN"
  | IInf false => "Infinity"
  | IInf true => "-Infinity"
  | IFin z => if (z <? 0)%Z then "-" +:+ whole_text (- z) else whole_text z
  end.

Definition floor (x : number) : integer :=
  match x with
  | NaN => INaN
  | Inf s => IInf s
  | Fin q => IFin (Qfloor q)
  end.

(** [x / d] for a literal [d] *)
Definition quotient (x : number) (d : positive) : number :=
  match x with
  | Fin q => round64 (q / inject_Z (Zpos d))
  | other => other
  end.

(** [x / 60] and [x % 60]; the remainder has the sign of [x]. *)
Definition div60 (x : number) : number := quotient x 60.

Definition rem60 (x : number) : number :=
  match x with
  | Fin q => Fin (Qred (q - 60 * inject_Z (Z.quot (Qnum q) (60 * Zpos (Qden q)))))
  | _ => NaN
  end.

Definition isNaN (x : number) : bool :=
  match x with NaN => true | _ => false end.

(** [x > y] *)
Definition gt (x y : number) : bool :=
  match x, y with
  | NaN, _ | _, NaN => false
  | Inf true, _ => false
  | Inf false, Inf false => false
  | Inf false, _ => true
  | Fin _, Inf true => true
  | Fin _, Inf false => false
  | Fin a, Fin b => negb (Qle_bool a b)
  end.

(** [x >= y] *)
Definition ge (x y : number) : bool :=
  match x, y with
  | NaN, _ | _, NaN => false
  | _, _ => negb (gt y x)
  end.

(** [Math.max(x, y)] *)
Definition max (x y : number) : number :=
  match x, y with
  | NaN, _ | _, NaN => NaN
  | _, _ => if gt y x then y else x
  end.

(** [i > 0] on the result of [Math.floor] *)
Definition positive_integer (i : integer) : bool :=
  match i with
  | IFin z => (0 <? z)%Z
  | IInf false => true
  | _ => false
  end.

Fixpoint digits_value (s : string) (acc : N) : N :=
  match s with
  | EmptyString => acc
  | String c r => digits_value r (10 * acc + (N_of_ascii c - 48))%N
  end.

(** [m * 10^e] *)
Definition scale (m : Z) (e : Z) : Q :=
  match e with
  | Zneg p => Qmake m (10 ^ p)%positive
  | _ => inject_Z (m * 10 ^ e)
  end.

(** The sign of a literal, and what follows it. *)
Definition sign_prefix (s : string) : bool * string :=
  match s with
  | String "-" r => (true, r)
  | String "+" r => (false, r)
  | _ => (false, s)
  end.

(** The digits after a decimal point, and what follows them. *)
Definition fraction_part (s : string) : string * string :=
  match s with
  | String "." r => Json.digits r
  | _ => (EmptyString, s)
  end.

(** The exponent of a literal; an [e] that no digit follows is no part of
    the literal. *)
Definition exponent_part (s : string) : Z :=
  match s with
  | String e r =>
      if Ascii.eqb e "e"%char || Ascii.eqb e "E"%char then
        let (neg, r1) := sign_prefix r in
        let (d, _) := Json.digits r1 in
        if is_empty d then 0%Z
        else
          let v := Z.of_N (digits_value d 0) in
          if neg then (- v)%Z else v
      else 0%Z
  | EmptyString => 0%Z
  end.

(** [parseFloat(text)]: leading white space is skipped, then the longest
    prefix that is a decimal literal is read and its value rounded; [NaN]
    when there is none. *)
Definition parseFloat (text : string) : number :=
  let (negative, s1) := sign_prefix (trimStart text) in
  if startsWith s1 "Infinity" then Inf negative
  else
    let (int, s2) := Json.digits s1 in
    let (frac, s3) := fraction_part s2 in
    if is_empty int && is_empty frac then NaN
    else
      let mant := Z.of_N (digits_value (int +:+ frac) 0) in
      let value :=
        round64 (scale mant (exponent_part s3 - Z.of_nat (String.length frac))) in
      if negative then negate value else value.

(** [parseInt(text, 10)] on a text of decimal digits: the value of the
    digits, rounded. *)
Definition parseInt (text : string) : number :=
  round64 (inject_Z (Z.of_N (digits_value text 0))).

(** [x.toFixed(1)]: below [10^21] the nearest tenth, the larger one of two;
    [String(x)] from there on, where [x] is whole. *)
Definition toFixed1 (x : number) : string :=
  match x with
  | NaN => "NaN"
  | Inf false => "Infinity"
  | Inf true => "-Infinity"
  | Fin q =>
      let a := Qabs q in
      (if Qle_bool 0 q then EmptyString else "-") +:+
      (if Qle_bool (inject_Z (10 ^ 21)) a then whole_text (Qfloor a)
       else
         let tenths := Qfloor (a * 10 + (1 # 2)) in
         Z_to_string (tenths / 10) +:+ "." +:+ Z_to_string (tenths mod 10))
  end.

End JsNumber.

(** ** Truthiness of a parsed value *)

Module JsValue.
Import JsString Json JsNumber.

(** [!v]: [null], [false], the empty string and a number that is zero. *)
Definition falsy (v : json) : bool :=
  match v with
  | JNull => true
  | JBool b => negb b
  | JString s => is_empty s
  | JNumber t =>
      match parseFloat t with
      | Fin q => Qeq_bool q 0
      | _ => false
      end
  | JArray _ | JObject _ => false
  end.

(** A property read that the code may take for the string its interface
    declares: [undefined], a falsy value or a string. *)
Definition declared_text (v : option json) : bool :=
  match v with
  | None => true
  | Some (JString _) => true
  | Some j => falsy j
  end.

End JsValue.

(** ** The data model ([src/types/messages.ts]) *)

(** [Message]: one raw export record.  The optional [properties] and
    [amsreferences] are read by no function of the pipeline (the diagnostic
    log only tests [properties] for presence) and are left out. *)
Module Message.
Record t : Type := Build {
  id : string;
  displayName : option string;
  originalarrivaltime : string;
  messagetype : string;
  version : Z;
  content : string;
  conversationid : string;
  from : string
}.

(** [{ ...m, from: f }] *)
Definition with_from (m : t) (f : string) : t :=
  Build (id m) (displayName m) (originalarrivaltime m) (messagetype m)
        (version m) (content m) (conversationid m) f.
End Message.

(** [ProcessedMessage["type"]] *)
Inductive MessageType : Type := text | system | call | notice | media.

Module ProcessedMessage.
Record t : Type := Build {
  id : string;
  displayName : option string;
  timestamp : string;
  content : string;
  type : MessageType;
  from : string;
  isOwner : bool;
  originalMessageType : string;
  mediaUrl : option string
}.

Definition set_system (p : t) : t :=
  Build (id p) None (timestamp p) (content p) (type p) (from p) false
        (originalMessageType p) (mediaUrl p).

Definition set_mediaUrl (p : t) (u : string) : t :=
  Build (id p) (displayName p) (timestamp p) (content p) (type p) (from p)
        (isOwner p) (originalMessageType p) (Some u).
End ProcessedMessage.

(** [MessageProcessorContext] without its mutable [skipIds], which the
    functions below take and return explicitly.  Of the optional map
    [mediaFiles] the pass only tests the presence. *)
Record MessageProcessorContext : Type := {
  userId : string;
  swapRoles : bool;
  mediaFiles : bool
}.

(** ** The patterns of [src/constants/messageProcessor.ts] and of the
    parsers *)

Module Patterns.
Import JsString Regex.

(** Each pattern is preceded by its literal in the source, where an
    apostrophe stands for the double quote. *)

Definition not_quote : regex := Chr (none_of dq).
Definition not_lt : regex := Chr (none_of "<").
Definition not_gt : regex := Chr (none_of ">").

(** [CONTENT_PATTERNS], in order, each with its replacement. *)
Definition CONTENT_PATTERNS : list (regex * list piece) :=
  [ (* /<ss type='[^']+'>([^<]* )<\/ss>/g, '$1' *)
    (seqs [lit (quoted "<ss type='"); plus not_quote; lit (quoted "'>");
           Group 1 (star not_lt); lit "</ss>"],
     [Ref 1]);
    (* /<a href='([^']+)'>([^<]* )<\/a>/g *)
    (seqs [lit (quoted "<a href='"); Group 1 (plus not_quote); lit (quoted "'>");
           Group 2 (star not_lt); lit "</a>"],
     [Txt (quoted "<a href='"); Ref 1;
      Txt (quoted "' target='_blank' rel='noopener noreferrer'>"); Ref 2;
      Txt "</a>"]);
    (* /<b>([^<]* )<\/b>/g, '<strong>$1</strong>' *)
    (seqs [lit "<b>"; Group 1 (star not_lt); lit "</b>"],
     [Txt "<strong>"; Ref 1; Txt "</strong>"]);
    (* /<at id='[^']+'>([^<]* )<\/at>/g, '<strong>@$1</strong>' *)
    (seqs [lit (quoted "<at id='"); plus not_quote; lit (quoted "'>");
           Group 1 (star not_lt); lit "</at>"],
     [Txt "<strong>@"; Ref 1; Txt "</strong>"]);
    (* /<(?:location|context|c_i)[^>]*>(?:<\/\w+>)?/g, '' *)
    (seqs [lit "<"; alts [lit "location"; lit "context"; lit "c_i"]; star not_gt;
           lit ">"; opt (seqs [lit "</"; plus word; lit ">"])],
     []);
    (* /<e_m[^>]*\/>/g, '' *)
    (seqs [lit "<e_m"; star not_gt; lit "/>"], []);
    (* /<bing-response>(.*?)<\/bing-response>/gs, '$1' *)
    (seqs [lit "<bing-response>"; Group 1 (lazy_star any); lit "</bing-response>"],
     [Ref 1]);
    (* /<attribution[^>]*>.*?<\/attribution>/g, '' *)
    (seqs [lit "<attribution"; star not_gt; lit ">"; lazy_star dot;
           lit "</attribution>"],
     []) ].

(** [THREAD_ACTIVITY_PATTERNS] *)
(* /<target>([^<]+)<\/target>/g *)
Definition AddMember : regex :=
  seqs [lit "<target>"; Group 1 (plus not_lt); lit "</target>"].
(* /<value>([^<]+)<\/value>/ *)
Definition Value : regex :=
  seqs [lit "<value>"; Group 1 (plus not_lt); lit "</value>"].
(* /<\/?target>/g *)
Definition target_tag : regex :=
  seqs [lit "<"; opt (lit "/"); lit "target>"].

(** [CALL_EVENT_PATTERNS], all under the [i] flag *)
(* /<partlist[^>]*type='([^']+)'/i *)
Definition Type_ : regex :=
  seqs [lit_i "<partlist"; star not_gt; lit_i (quoted "type='");
        Group 1 (plus not_quote); lit dq].
(* /<part[^>]*identity='([^']+)'[^>]*>([\s\S]*?)<\/part>/gi *)
Definition Part : regex :=
  seqs [lit_i "<part"; star not_gt; lit_i (quoted "identity='");
        Group 1 (plus not_quote); lit dq; star not_gt; lit ">";
        Group 2 (lazy_star any); lit_i "</part>"].
(* /<name>([^<]+)<\/name>/i *)
Definition Name : regex :=
  seqs [lit_i "<name>"; Group 1 (plus not_lt); lit_i "</name>"].
(* /<duration>([^<]+)<\/duration>/i *)
Definition Duration : regex :=
  seqs [lit_i "<duration>"; Group 1 (plus not_lt); lit_i "</duration>"].

(** [cleanDisplayName]: /^(\d+):(.+)$/ *)
Definition numeric_prefix : regex :=
  seqs [Bol; Group 1 (plus digit); lit ":"; Group 2 (plus dot); Eol].

(** The file parsers *)
(* /<OriginalName v='([^']+)'(?:\s*\/>|><\/OriginalName>)/ *)
Definition OriginalName : regex :=
  seqs [lit (quoted "<OriginalName v='"); Group 1 (plus not_quote); lit dq;
        Alt (seqs [star space; lit "/>"]) (lit "></OriginalName>")].
(* /<FileSize v='(\d+)'(?:\s*\/>|><\/FileSize>)/ *)
Definition FileSize : regex :=
  seqs [lit (quoted "<FileSize v='"); Group 1 (plus digit); lit dq;
        Alt (seqs [star space; lit "/>"]) (lit "></FileSize>")].
(* /<URIObject[^>]*type='([^']+)'/ *)
Definition URIObject_type : regex :=
  seqs [lit "<URIObject"; star not_gt; lit (quoted "type='");
        Group 1 (plus not_quote); lit dq].
(* /\.(mp4|avi|mov|wmv|flv|webm|mkv|m4v)$/i *)
Definition video_extension : regex :=
  seqs [lit "."; Group 1 (alts (map lit_i
          ["mp4"; "avi"; "mov"; "wmv"; "flv"; "webm"; "mkv"; "m4v"])); Eol].

(** [src/utils/mediaUtils.ts] *)
Definition id_chars : regex :=
  plus (Chr (fun x => between 97 122 x || between 65 90 x || between 48 57 x
                      || just "-"%char x)).
(* /<URIObject[^>]*uri='https:\/\/api\.asm\.skype\.com\/v1\/objects\/([a-zA-Z0-9-]+)'/ *)
Definition uriObjectPattern : regex :=
  seqs [lit "<URIObject"; star not_gt;
        lit (quoted "uri='https://api.asm.skype.com/v1/objects/");
        Group 1 id_chars; lit dq].
(* /[?&]pic=([a-zA-Z0-9-]+)/ *)
Definition picPattern : regex :=
  seqs [Chr (one_of "?&"); lit "pic="; Group 1 id_chars].
(* /[?&]file=([a-zA-Z0-9-]+)/ *)
Definition filePattern : regex :=
  seqs [Chr (one_of "?&"); lit "file="; Group 1 id_chars].

(** [src/utils/messageSearch.ts] *)
(* /<[^>]*>/g *)
Definition any_tag : regex := seqs [lit "<"; star not_gt; lit ">"].
(* /<[^>]+>/ *)
Definition some_tag : regex := seqs [lit "<"; plus not_gt; lit ">"].

End Patterns.


(** ** [src/utils/displayName.ts] and [src/utils/mediaUtils.ts] *)

Module Utils.
Import JsString Regex Patterns.

(** [cleanDisplayName]: drop a numeric prefix such as the one of [8:name]. *)
Definition cleanDisplayName (displayName : option string) : option string :=
  match truthy displayName with
  | None => None
  | Some name =>
      match exec numeric_prefix name with
      | Some m => group m 2
      | None => Some name
      end
  end.

(** [extractMediaId]: the first of the three patterns that matches. *)
Definition extractMediaId (content : string) : option string :=
  let first_group (r : regex) :=
    truthy (match exec r content with Some m => group m 1 | None => None end) in
  match first_group uriObjectPattern with
  | Some i => Some i
  | None =>
      match first_group picPattern with
      | Some i => Some i
      | None => first_group filePattern
      end
  end.

End Utils.

(** ** [src/utils/messageProcessor.ts] *)

Module Processor.
Import JsString Regex Json JsNumber Patterns Utils.

Section Pipeline.

(** Two collaborators whose code is outside the sources at hand:
    [parseSkypeEmoji] of [src/utils/skypeEmoji.ts] and
    [DOMPurify.sanitize] under [PURIFY_CONFIG]. *)
Variable parseSkypeEmoji : string -> string.
Variable sanitize : string -> string.
(** The case tables of the host, as in [JsString]. *)
Variable lowerCase : string -> string.

Local Abbreviation toLowerCase := (JsString.toLowerCase lowerCase).

Definition createBaseMessage (message : Message.t) (context : MessageProcessorContext)
    (content : string) (type : MessageType) : ProcessedMessage.t :=
  let isOwner :=
    if swapRoles context
    then negb (String.eqb (Message.from message) (userId context))
    else String.eqb (Message.from message) (userId context) in
  ProcessedMessage.Build
    (Message.id message)
    (cleanDisplayName (Message.displayName message))
    (Message.originalarrivaltime message)
    content
    type
    (Message.from message)
    isOwner
    (Message.messagetype message)
    None.

(** [parseTranslationContent]: [translations[0]?.translation || null]; a
    [SyntaxError] of the parser and a [TypeError] of the two strict reads
    are caught and give [null]. *)
Definition parseTranslationContent (content : string) : option string :=
  match parse content with
  | None => None
  | Some translationData =>
      match field_strict (Some translationData) "translations" with
      | None => None
      | Some translations =>
          match first_strict translations with
          | None => None
          | Some entry => truthy (text_of (field_opt entry "translation"))
          end
      end
  end.

(** [parseMessageContent]: emoji, the ordered rewrites, then the sanitizer. *)
Definition parseMessageContent (content : string) : string :=
  if is_empty content then EmptyString
  else
    sanitize
      (fold_left (fun parsed pr => replace_all (fst pr) (snd pr) parsed)
                 CONTENT_PATTERNS (parseSkypeEmoji content)).

(** The next record when it is there and its [messagetype] is [RichText]. *)
Definition richText (nextMessage : option Message.t) : option Message.t :=
  match nextMessage with
  | Some next =>
      if String.eqb (Message.messagetype next) "RichText" then Some next else None
  | None => None
  end.

(** [skipIds.add(nextMessage.id)] under that test. *)
Definition skip_next (nextMessage : option Message.t) (skipIds : gset string)
    : gset string :=
  match richText nextMessage with
  | Some next => {[ Message.id next ]} ∪ skipIds
  | None => skipIds
  end.

(** [handleTranslation]; returns the message and the updated [skipIds]. *)
Definition handleTranslation (message : Message.t) (nextMessage : option Message.t)
    (context : MessageProcessorContext) (skipIds : gset string)
    : option ProcessedMessage.t * gset string :=
  let isFromUserId := String.eqb (Message.from message) (userId context) in
  match (if isFromUserId then richText nextMessage else None) with
  | Some next =>
      (* the viewer's own message: show the original, the next record *)
      (Some (createBaseMessage (Message.with_from next (Message.from message))
               context (parseMessageContent (Message.content next)) text),
       {[ Message.id next ]} ∪ skipIds)
  | None =>
      let translatedText := parseTranslationContent (Message.content message) in
      let content := or_else translatedText (Message.content message) in
      (Some (createBaseMessage message context (parseMessageContent content) text),
       skip_next nextMessage skipIds)
  end.

(** [formatFileSize] *)
Definition formatFileSize (fileSizeBytes : number) : string :=
  let fileSizeKB := quotient fileSizeBytes 1024 in
  let fileSizeMB := quotient fileSizeKB 1024 in
  if ge fileSizeMB (Fin 1)
  then toFixed1 fileSizeMB +:+ " MB"
  else toFixed1 fileSizeKB +:+ " KB".

Definition first_group (r : regex) (s : string) : option string :=
  match exec r s with
  | Some m => group m 1
  | None => None
  end.

Definition file_label (icon filename : string) (fileSize : option string) : string :=
  match fileSize with
  | Some digits =>
      icon +:+ " <em>" +:+ filename +:+ "</em> (" +:+ formatFileSize (parseInt digits) +:+ ")"
  | None => icon +:+ " <em>" +:+ filename +:+ "</em>"
  end.

Definition parseGenericFile (content : string) : string :=
  let filename := or_else (first_group OriginalName content) "Unknown file" in
  file_label "📎" filename (first_group FileSize content).

Definition parseMediaFileInfo (content : string) : string :=
  let filename := or_else (first_group OriginalName content) "Unknown file" in
  let type := toLowerCase (or_else (first_group URIObject_type content) EmptyString) in
  let isVideo := startsWith type "video" || test video_extension filename in
  file_label (if isVideo then "📹" else "📷") filename (first_group FileSize content).

Definition handleMediaMessage (message : Message.t) (context : MessageProcessorContext)
    : ProcessedMessage.t :=
  let mediaId := extractMediaId (Message.content message) in
  match mediaId, mediaFiles context with
  | Some i, true =>
      ProcessedMessage.set_mediaUrl
        (createBaseMessage message context
           (parseMessageContent (Message.content message)) media) i
  | _, _ =>
      createBaseMessage message context
        (parseMediaFileInfo (Message.content message)) text
  end.

Definition handleSystemMessage (message : Message.t) (context : MessageProcessorContext)
    (content : string) (type : MessageType) : ProcessedMessage.t :=
  ProcessedMessage.set_system (createBaseMessage message context content type).

(** [parseThreadActivity] *)
Definition member_name (target : string) : string :=
  default EmptyString (truthy (pop (split_on ":" (replace_all target_tag [] target)))).

Definition parseThreadActivity (message : Message.t) : option string :=
  let messagetype := Message.messagetype message in
  let content := Message.content message in
  if String.eqb messagetype "ThreadActivity/AddMember" then
    match match_all AddMember content with
    | None => None
    | Some targetMatches =>
        let members :=
          join ", " (filter (fun s => negb (is_empty s)) (map member_name targetMatches)) in
        if is_empty members then None
        else Some ("Added " +:+ members +:+ " to the conversation")
    end
  else
    match exec Value content with
    | None => None
    | Some valueMatch =>
        let value :=
          String.eqb (toLowerCase (default EmptyString (group valueMatch 1))) "true" in
        if String.eqb messagetype "ThreadActivity/HistoryDisclosedUpdate" then
          Some (if value then "Chat history is now visible"
                else "Chat history is now hidden")
        else if String.eqb messagetype "ThreadActivity/JoiningEnabledUpdate" then
          Some (if value then "Anyone can join this conversation"
                else "Joining this conversation is restricted")
        else None
    end.

(** *** Call events *)

Record CallParticipant : Type := {
  identity : string;
  name : string
}.

Definition formatCallDuration (seconds : number) : string :=
  let minutes := floor (div60 seconds) in
  let remainingSeconds := floor (rem60 seconds) in
  if positive_integer minutes
  then integer_to_string minutes +:+ "m " +:+ integer_to_string remainingSeconds +:+ "s"
  else integer_to_string remainingSeconds +:+ "s".

Definition normaliseParticipantName (name : option string) (identity : string)
    : string :=
  let trimmedName :=
    match truthy name with
    | Some n => trim n
    | None => EmptyString
    end in
  match truthy (cleanDisplayName (Some trimmedName)) with
  | Some s => s
  | None =>
      match truthy (cleanDisplayName (Some identity)) with
      | Some s => s
      | None =>
          match truthy (Some trimmedName) with
          | Some s => s
          | None => or_else (Some identity) "Unknown participant"
          end
      end
  end.

(** The state of the loop of [extractCallDetails]. *)
Record CallScan : Type := {
  participantData : list CallParticipant;
  seenIdentities : gset string;
  maxDuration : number
}.

(** The duration a participant segment carries, when it parses. *)
Definition segment_duration (partBody : string) : option number :=
  match exec Duration partBody with
  | Some durationMatch =>
      let seconds := parseFloat (default EmptyString (group durationMatch 1)) in
      if isNaN seconds then None else Some seconds
  | None => None
  end.

(** One iteration of the loop, on one match of [CALL_EVENT_PATTERNS.Part]. *)
Definition call_step (st : CallScan) (partMatch : found) : CallScan :=
  let identity := default EmptyString (group partMatch 1) in
  let partBody := default EmptyString (group partMatch 2) in
  let identityKey := toLowerCase identity in
  let st1 :=
    if decide (identityKey ∈ seenIdentities st) then st
    else
      let name :=
        match exec Name partBody with
        | Some nameMatch => default EmptyString (group nameMatch 1)
        | None => EmptyString
        end in
      {| participantData :=
           participantData st ++
             [ {| identity := identity;
                  name := normaliseParticipantName (Some name) identity |} ];
         seenIdentities := {[ identityKey ]} ∪ seenIdentities st;
         maxDuration := maxDuration st |} in
  match segment_duration partBody with
  | Some seconds =>
      {| participantData := participantData st1;
         seenIdentities := seenIdentities st1;
         maxDuration := max (maxDuration st1) seconds |}
  | None => st1
  end.

(** The participant segments of a call event, in order. *)
Definition call_parts (content : string) : list found :=
  fst (scan_all Part content).

Definition extractCallDetails (content : string)
    : list CallParticipant * option number :=
  let st :=
    fold_left call_step (call_parts content)
      {| participantData := []; seenIdentities := ∅; maxDuration := Fin 0 |} in
  (participantData st,
   if gt (maxDuration st) (Fin 0) then Some (maxDuration st) else None).

Record ParticipantView : Type := {
  identityLower : string;
  cleanIdentityLower : string;
  label : string
}.

(** The last step of [parseCallEvent]: the text by call type. *)
Definition call_text (rawType : option string) (participantsText : string)
    (durationText : option string) : string :=
  match truthy rawType with
  | None =>
      if is_empty participantsText then "Call event"
      else "Call event • " +:+ participantsText
  | Some rawType =>
      if String.eqb rawType "started" then
        if is_empty participantsText then "Call started"
        else "Call started • " +:+ participantsText
      else if String.eqb rawType "missed" then
        if is_empty participantsText then "Missed call"
        else "Missed call • " +:+ participantsText
      else if String.eqb rawType "ended" then
        match truthy durationText with
        | Some d =>
            if is_empty participantsText then "Call ended • " +:+ d
            else "Call ended • " +:+ d +:+ " • " +:+ participantsText
        | None =>
            if is_empty participantsText then "Call ended"
            else "Call ended • " +:+ participantsText
        end
      else
        if is_empty participantsText then "Call " +:+ rawType
        else "Call " +:+ rawType +:+ " • " +:+ participantsText
  end.

(** The middle of [parseCallEvent]: the labels of the participants, the
    viewer shown as [You].  (Under [swapRoles] the source has one more test,
    both branches of which return the label.) *)
Definition participantLabels (participantData : list CallParticipant)
    (context : MessageProcessorContext) : list string :=
  let userIdLower := toLowerCase (userId context) in
  let userCleanLower :=
    match cleanDisplayName (Some (userId context)) with
    | Some c => toLowerCase c
    | None => userIdLower
    end in
  let participants :=
    map (fun participant =>
           {| identityLower := toLowerCase (identity participant);
              cleanIdentityLower :=
                match cleanDisplayName (Some (identity participant)) with
                | Some c => toLowerCase c
                | None => toLowerCase (identity participant)
                end;
              label := name participant |}) participantData in
  let otherParticipant :=
    if swapRoles context then
      find (fun participant =>
              negb (String.eqb (identityLower participant) userIdLower)
              && negb (String.eqb (cleanIdentityLower participant) userCleanLower))
           participants
    else None in
  let (viewerIdentityLower, viewerCleanLower) :=
    match otherParticipant with
    | Some other => (identityLower other, cleanIdentityLower other)
    | None => (userIdLower, userCleanLower)
    end in
  map (fun participant =>
         let isViewer :=
           String.eqb (identityLower participant) viewerIdentityLower
           || String.eqb (cleanIdentityLower participant) viewerCleanLower in
         if isViewer then "You" else label participant) participants.

Definition parseCallEvent (message : Message.t) (context : MessageProcessorContext)
    : string :=
  let rawType := option_map toLowerCase (first_group Type_ (Message.content message)) in
  let (participantData, maxDuration) := extractCallDetails (Message.content message) in
  let participantsText := join ", " (participantLabels participantData context) in
  let durationText := option_map formatCallDuration maxDuration in
  call_text rawType participantsText durationText.

(** *** Notices and pop cards *)

(** [parseNotice]: [data[0]] is a strict read, the rest is optional
    chaining; every exception is caught and gives the fallback. *)
Definition parseNotice (message : Message.t) : string :=
  match parse (Message.content message) with
  | None => "System Notice"
  | Some data =>
      match first_strict (Some data) with
      | None => "System Notice"
      | Some first_item =>
          let attachment :=
            field_opt (first_opt (field_opt first_item "attachments")) "content" in
          match truthy (text_of (field_opt attachment "title")) with
          | Some title => title
          | None => or_else (text_of (field_opt attachment "text")) "System Notice"
          end
      end
  end.

Definition parsePopCard (message : Message.t) : string :=
  match parse (Message.content message) with
  | None => "System Message"
  | Some data =>
      match first_strict (Some data) with
      | None => "System Message"
      | Some first_item =>
          let content := field_opt first_item "content" in
          let title := truthy (text_of (field_opt content "title")) in
          let text := truthy (text_of (field_opt content "text")) in
          match title, text with
          | Some t, Some x => t +:+ ": " +:+ x
          | Some t, None => t
          | None, _ => or_else text "System Message"
          end
      end
  end.

(** *** The classifier *)

(** [processMessage]; returns the message, if any, and the updated
    [skipIds]. *)
Definition processMessage (message : Message.t) (nextMessage : option Message.t)
    (context : MessageProcessorContext) (skipIds : gset string)
    : option ProcessedMessage.t * gset string :=
  let messagetype := Message.messagetype message in
  if decide (Message.id message ∈ skipIds) then (None, skipIds)
  else if String.eqb messagetype "RichText/Media_Album" then (None, skipIds)
  else if String.eqb messagetype "Translation" then
    handleTranslation message nextMessage context skipIds
  else if String.eqb messagetype "RichText/UriObject"
          || String.eqb messagetype "RichText/Media_Video" then
    (Some (handleMediaMessage message context), skipIds)
  else if String.eqb messagetype "RichText/Media_GenericFile" then
    (Some (createBaseMessage message context
             (parseGenericFile (Message.content message)) text), skipIds)
  else if String.eqb messagetype "RichText" then
    (Some (createBaseMessage message context
             (parseMessageContent (Message.content message)) text), skipIds)
  else if startsWith messagetype "ThreadActivity" then
    match truthy (parseThreadActivity message) with
    | Some systemContent =>
        (Some (handleSystemMessage message context systemContent system), skipIds)
    | None => (None, skipIds)
    end
  else if startsWith messagetype "Event/Call" then
    (Some (createBaseMessage message context (parseCallEvent message context) call),
     skipIds)
  else if String.eqb messagetype "Notice" then
    (Some (handleSystemMessage message context (parseNotice message) notice), skipIds)
  else if String.eqb messagetype "PopCard" then
    (Some (handleSystemMessage message context (parsePopCard message) notice), skipIds)
  else if startsWith messagetype "InviteFreeRelationshipChanged" then
    (Some (handleSystemMessage message context
             (parseMessageContent (Message.content message)) system), skipIds)
  else if String.eqb messagetype "Text" then
    (Some (createBaseMessage message context (Message.content message) text), skipIds)
  else
    (Some (createBaseMessage message context
             (parseMessageContent (Message.content message)) text), skipIds).

(** The loop of [processMessages] over the records from index [i] on, with
    [n] iterations left: [messages] is the rest of the array, so its second
    element is [messages[i + 1]]. *)
Fixpoint process_loop (context : MessageProcessorContext) (n : nat)
    (messages : list Message.t) (skipIds : gset string)
    : list ProcessedMessage.t * gset string :=
  match n, messages with
  | S n', message :: rest =>
      if decide (Message.id message ∈ skipIds)
      then process_loop context n' rest skipIds
      else
        let (processed, skipIds1) :=
          processMessage message (head rest) context skipIds in
        let (processedMessages, skipIds2) := process_loop context n' rest skipIds1 in
        (match processed with
         | Some p => p :: processedMessages
         | None => processedMessages
         end, skipIds2)
  | _, _ => ([], skipIds)
  end.

(** [endIndex]: [maxMessages ? Math.min(maxMessages, messages.length) :
    messages.length], for an optional whole number [maxMessages]; zero is
    falsy, and a negative bound leaves no iteration. *)
Definition endIndex (maxMessages : option Z) (length : nat) : nat :=
  match maxMessages with
  | None | Some Z0 => length
  | Some m => Z.to_nat (Z.min m (Z.of_nat length))
  end.

(** [processMessages], with the final [skipIds] as a second component. *)
Definition processMessages_state (messages : list Message.t) (userId : string)
    (swapRoles : bool) (mediaFiles : bool) (maxMessages : option Z)
    : list ProcessedMessage.t * gset string :=
  let context :=
    {| userId := userId; swapRoles := swapRoles; mediaFiles := mediaFiles |} in
  process_loop context (endIndex maxMessages (length messages)) messages ∅.

Definition processMessages (messages : list Message.t) (userId : string)
    (swapRoles : bool) (mediaFiles : bool) (maxMessages : option Z)
    : list ProcessedMessage.t :=
  fst (processMessages_state messages userId swapRoles mediaFiles maxMessages).

End Pipeline.
End Processor.

(** ** [src/utils/messageSearch.ts] *)

Module Search.
Import JsString Regex Patterns.

Section Dom.

(** The host document, when there is one: the text content of a detached
    element whose [innerHTML] is the argument. *)
Variable document : option (string -> string).
(** The case tables of the host, as in [JsString]. *)
Variable lowerCase : string -> string.

Local Abbreviation toLowerCase := (JsString.toLowerCase lowerCase).

Definition stripHtmlForSearch (html : string) : string :=
  if is_empty html then EmptyString
  else
    match document with
    | None => replace_all any_tag [] html
    | Some textContent => textContent html
    end.

Definition messageMatchesSearch (message : ProcessedMessage.t) (query : string)
    : bool :=
  if is_empty (trim query) then true
  else
    let searchQuery := trim (toLowerCase query) in
    let contentText :=
      toLowerCase (stripHtmlForSearch (ProcessedMessage.content message)) in
    let displayNameText :=
      toLowerCase (or_else (ProcessedMessage.displayName message) EmptyString) in
    includes contentText searchQuery || includes displayNameText searchQuery.

Definition filterMessages (messages : list ProcessedMessage.t) (query : string)
    : list ProcessedMessage.t :=
  if is_empty (trim query) then messages
  else filter (fun message => messageMatchesSearch message query) messages.

(** The loop of [findMatchingMessageIndices] from index [i] on. *)
Fixpoint matching_from (i : nat) (messages : list ProcessedMessage.t)
    (query : string) : list nat :=
  match messages with
  | [] => []
  | message :: rest =>
      if messageMatchesSearch message query
      then i :: matching_from (S i) rest query
      else matching_from (S i) rest query
  end.

Definition findMatchingMessageIndices (messages : list ProcessedMessage.t)
    (query : string) : list nat :=
  if is_empty (trim query) then []
  else matching_from 0 messages query.

End Dom.

(** *** Highlighting *)

Section Folding.

(** The case variants of the host, as in [Regex]. *)
Variable caseVariants : string -> list string.

(** [new RegExp(`(${escapedQuery})`, "gi")]: escaping makes every character
    of the query stand for itself, so the expression is the query as a
    literal, in one capturing group, under the [i] flag. *)
Definition query_regex (searchQuery : string) : regex :=
  Group 1 (text_i caseVariants searchQuery).

(** The replacement string of the three [replace] calls. *)
Definition mark : list piece :=
  [ Txt (quoted "<mark style='background-color: rgba(255, 255, 0, 0.4); padding: 2px 0;'>");
    Ref 1;
    Txt "</mark>" ].

Definition highlight_text (regex : regex) (s : string) : string :=
  replace_all regex mark s.

(** The tag scanner.  [rest] is [html] from index [i] on, [pending] is
    [html.substring(lastIndex, i)]; the result is the list of the [parts]
    pushed from here on. *)
Fixpoint scan_parts (regex : regex) (rest pending : string) (inTag : bool)
    : list string :=
  match rest with
  | EmptyString =>
      (* after the loop: if (lastIndex < html.length) *)
      if is_empty pending then [] else [highlight_text regex pending]
  | String c rest' =>
      if Ascii.eqb c "<"%char then
        (if is_empty pending then [] else [highlight_text regex pending])
        ++ scan_parts regex rest' (String c EmptyString) true
      else if Ascii.eqb c ">"%char && inTag then
        (pending +:+ String c EmptyString) :: scan_parts regex rest' EmptyString false
      else
        scan_parts regex rest' (pending +:+ String c EmptyString) inTag
  end.

Definition highlightSearchMatch (html query : string) : string :=
  if is_empty (trim query) || is_empty html then html
  else
    let searchQuery := trim query in
    let regex := query_regex searchQuery in
    if negb (test some_tag html) then highlight_text regex html
    else join EmptyString (scan_parts regex html EmptyString false).

End Folding.

End Search.

(** * The statements of the specification

    Notions the properties below are stated with. *)

Module Spec.
Import JsString Regex Json JsNumber JsValue Patterns Utils Processor.

(** The message [p] is what the classifier returns on the record at
    position [i] of [messages], given the record after it, for some state of
    the skip set. *)
Definition emitted_from (parseSkypeEmoji sanitize lowerCase : string -> string)
    (context : MessageProcessorContext) (messages : list Message.t)
    (i : nat) (p : ProcessedMessage.t) : Prop :=
  exists message skipIds skipIds',
    messages !! i = Some message
    /\ processMessage parseSkypeEmoji sanitize lowerCase message (messages !! S i)
         context skipIds
       = (Some p, skipIds').

(** [!v] of a property read. *)
Definition falsy_read (v : option json) : bool :=
  match v with
  | None => true
  | Some j => falsy j
  end.

(** What the reads of [parseNotice] find: the values of [title] and of
    [text] in [data[0]?.attachments?.[0]?.content]. *)
Definition notice_reads (data : json) : option json * option json :=
  let attachment :=
    field_opt (first_opt (field_opt (first_opt (Some data)) "attachments")) "content" in
  (field_opt attachment "title", field_opt attachment "text").

(** The same for a pop card, in [data[0]?.content]. *)
Definition popcard_reads (data : json) : option json * option json :=
  let content := field_opt (first_opt (Some data)) "content" in
  (field_opt content "title", field_opt content "text").

(** The texts a notice carries: the [title] and the [text] of the content
    object of the first attachment of the first element, each when it is
    there and is a non-empty string. *)
Definition notice_texts (data : json) : option string * option string :=
  let attachment :=
    field_opt (first_opt (field_opt (first_opt (Some data)) "attachments")) "content" in
  (truthy (text_of (field_opt attachment "title")),
   truthy (text_of (field_opt attachment "text"))).

(** The same for a pop card, whose first element holds the content object
    itself. *)
Definition popcard_texts (data : json) : option string * option string :=
  let content := field_opt (first_opt (Some data)) "content" in
  (truthy (text_of (field_opt content "title")),
   truthy (text_of (field_opt content "text"))).

(** What the specification says of both parsers: [title: text] when both
    are present, else the one that is, else the fallback. *)
Definition card_text (texts : option string * option string) (fallback : string)
    : string :=
  match texts with
  | (Some title, Some body) => title +:+ ": " +:+ body
  | (Some title, None) => title
  | (None, Some body) => body
  | (None, None) => fallback
  end.

(** The body of a participant segment and the durations the segments of a
    call event carry, in order (a segment without a duration, or with one
    that is no number, carries none). *)
Definition part_body (partMatch : found) : string :=
  default EmptyString (group partMatch 2).

Definition segment_durations (content : string) : list number :=
  omap (fun partMatch => segment_duration (part_body partMatch)) (call_parts content).


(** The example of the specification: three segments of 5, 42 and 17
    seconds. *)
Definition three_segments : string :=
  quoted "<partlist type='ended' alt=''><part identity='8:ann'><name>Ann</name><duration>5</duration></part><part identity='8:bob'><name>Bob</name><duration>42</duration></part><part identity='8:cy'><name>Cy</name><duration>17</duration></part></partlist>".

(** A query that is empty or made of white space only. *)
Inductive whitespace_only : string -> Prop :=
| blank_empty : whitespace_only EmptyString
| blank_more (w s : string) :
    In w white_space -> whitespace_only s -> whitespace_only (w +:+ s).

(** The index of every message of a list. *)
Definition all_indices (messages : list ProcessedMessage.t) : list nat :=
  seq 0 (length messages).

(** A message to try the search on. *)
Definition sample_message : ProcessedMessage.t :=
  {| ProcessedMessage.id := "1";
     ProcessedMessage.displayName := Some "ann";
     ProcessedMessage.timestamp := "2024-01-01T10:00:00Z";
     ProcessedMessage.content := "hello";
     ProcessedMessage.type := text;
     ProcessedMessage.from := "8:ann";
     ProcessedMessage.isOwner := false;
     ProcessedMessage.originalMessageType := "RichText";
     ProcessedMessage.mediaUrl := None |}.

(** A message with a letter outside ASCII. *)
Definition cafe_message : ProcessedMessage.t :=
  {| ProcessedMessage.id := "2";
     ProcessedMessage.displayName := Some "ann";
     ProcessedMessage.timestamp := "2024-01-01T10:05:00Z";
     ProcessedMessage.content := "Un café, merci";
     ProcessedMessage.type := text;
     ProcessedMessage.from := "8:ann";
     ProcessedMessage.isOwner := false;
     ProcessedMessage.originalMessageType := "RichText";
     ProcessedMessage.mediaUrl := None |}.

(** Records to try the classifier on. *)
Definition record (id messagetype content from : string) : Message.t :=
  {| Message.id := id;
     Message.displayName := Some from;
     Message.originalarrivaltime := "2024-01-01T10:00:00Z";
     Message.messagetype := messagetype;
     Message.version := 1;
     Message.content := content;
     Message.conversationid := "19:conversation";
     Message.from := from |}.

Definition viewer : MessageProcessorContext :=
  {| userId := "8:me"; swapRoles := false; mediaFiles := false |}.

(** The notice of the specification's scenario and its parsed content. *)
Definition alert_notice : Message.t :=
  record "n1" "Notice"
    (quoted "[{'attachments':[{'content':{'title':'Alert','text':'Storage low'}}]}]")
    "8:system".

Definition alert_data : json :=
  JArray [JObject [("attachments",
    JArray [JObject [("content",
      JObject [("title", JString "Alert"); ("text", JString "Storage low")])]])]].

Definition malformed_notice : Message.t :=
  record "n2" "Notice" "{not json" "8:system".

(** A notice whose content is JSON of another shape: objects with a member
    [0] where the arrays are expected. *)
Definition object_notice : Message.t :=
  record "n3" "Notice"
    (quoted "{'0':{'attachments':{'0':{'content':{'title':'Alert'}}}}}")
    "8:system".

Definition object_notice_data : json :=
  JObject [("0", JObject [("attachments",
    JObject [("0", JObject [("content", JObject [("title", JString "Alert")])])])])].

(** A notice without attachments. *)
Definition bare_notice : Message.t := record "n4" "Notice" "[{}]" "8:system".

Definition history_update : Message.t :=
  record "t1" "ThreadActivity/HistoryDisclosedUpdate"
    "<historydisclosedupdate><value>true</value></historydisclosedupdate>" "8:ann".

Definition history_update_shown : ProcessedMessage.t :=
  handleSystemMessage history_update viewer "Chat history is now visible" system.

(** An ended call whose only segment lasted zero seconds. *)
Definition ended_call_zero : Message.t :=
  record "c1" "Event/Call"
    (quoted "<partlist type='ended' alt=''><part identity='8:ann'><name>Ann</name><duration>0</duration></part></partlist>")
    "8:ann".

(** [rest] is what is left of [s] after some prefix. *)
Definition is_suffix (rest s : string) : Prop := exists pre, s = pre +:+ rest.

(** A matcher is sound when a successful run ends in a successful call of
    the continuation on a suffix of the input. *)
Definition sound (m : cont -> captures -> string -> option outcome) : Prop :=
  forall k caps s o,
    m k caps s = Some o ->
    exists caps' rest, k caps' rest = Some o /\ is_suffix rest s.

(** A match result cuts its input in three. *)
Definition cuts (f : found) (s : string) : Prop :=
  s = before f +:+ whole f +:+ after f.

(** The text a list of successive matches and the tail after them were cut
    from. *)
Fixpoint source (fs : list found) (tl : string) : string :=
  match fs with
  | [] => tl
  | f :: fs' => before f +:+ whole f +:+ source fs' tl
  end.

(** *** Highlighting *)

(** A part of the highlighter's output: a span kept as it is, or a run of
    text passed through the replacement. *)
Inductive part : Type := Kept (s : string) | Run (s : string).

Definition part_source (p : part) : string :=
  match p with Kept s | Run s => s end.

Definition render (regex : regex) (p : part) : string :=
  match p with
  | Kept s => s
  | Run s => Search.highlight_text regex s
  end.

(** The number of mark wrappers the replacement inserts into a run. *)
Definition marks (regex : regex) (s : string) : nat :=
  length (fst (scan_all regex s)).

Definition part_marks (regex : regex) (p : part) : nat :=
  match p with
  | Kept _ => 0
  | Run s => marks regex s
  end.

Fixpoint concat_strings (l : list string) : string :=
  match l with
  | [] => EmptyString
  | x :: r => x +:+ concat_strings r
  end.

(** The parts the tag scanner cuts [pending +:+ rest] into. *)
Fixpoint scan_segments (rest pending : string) (inTag : bool) : list part :=
  match rest with
  | EmptyString => if is_empty pending then [] else [Run pending]
  | String c rest' =>
      if Ascii.eqb c "<"%char then
        (if is_empty pending then [] else [Run pending])
        ++ scan_segments rest' (String c EmptyString) true
      else if Ascii.eqb c ">"%char && inTag then
        Kept (pending +:+ String c EmptyString) :: scan_segments rest' EmptyString false
      else
        scan_segments rest' (pending +:+ String c EmptyString) inTag
  end.

(** The parts [highlightSearchMatch] cuts its input into. *)
Definition segments (html query : string) : list part :=
  if is_empty (trim query) || is_empty html then
    if is_empty html then [] else [Kept html]
  else if negb (test Patterns.some_tag html) then [Run html]
  else scan_segments html EmptyString false.

(** A span the scanner takes for a tag: from ["<"] to the next [">"] with no
    other ["<"] in between; and a ["<"] left open. *)
Definition tag_shaped (s : string) : Prop :=
  exists body,
    s = "<" +:+ body +:+ ">"
    /\ count "<"%char body = 0 /\ count ">"%char body = 0.

Definition open_tag (s : string) : Prop :=
  exists body,
    s = "<" +:+ body /\ count "<"%char body = 0 /\ count ">"%char body = 0.

(** What is pending is text without ["<"], or a ["<"] left open. *)
Definition pending_ok (pending : string) (inTag : bool) : Prop :=
  if inTag then open_tag pending else count "<"%char pending = 0.

Definition scanned_shape (p : part) : Prop :=
  match p with
  | Kept s => tag_shaped s
  | Run s => count "<"%char s = 0 \/ open_tag s
  end.

(** What the parts of [segments html query] look like: a kept part is a
    tag-shaped span (or the whole input under a blank query); a run has no
    ["<"], or is a ["<"] left open, or is the whole of an input without any
    tag. *)
Definition part_shape (html query : string) (p : part) : Prop :=
  match p with
  | Kept s => tag_shaped s \/ (is_empty (trim query) = true /\ s = html)
  | Run s =>
      count "<"%char s = 0 \/ open_tag s
      \/ (s = html /\ test Patterns.some_tag html = false)
  end.

(** The reading of the specification: the tags of a text are the spans its
    tag pattern matches, [any_tag], and exactly the text between them is
    rewritten. *)
Fixpoint rewrite_between (regex : regex) (tags : list found) (tl : string) : string :=
  match tags with
  | [] => Search.highlight_text regex tl
  | f :: tags' =>
      Search.highlight_text regex (before f) +:+ whole f
      +:+ rewrite_between regex tags' tl
  end.

Definition claimed_highlight (caseVariants : string -> list string)
    (html query : string) : string :=
  if is_empty (trim query) || is_empty html then html
  else
    let (tags, tl) := scan_all Patterns.any_tag html in
    rewrite_between (Search.query_regex caseVariants (trim query)) tags tl.

(** A link whose title holds a ["<"]. *)
Definition link_with_lt : string := quoted "<a title='1<2'>x</a>".

(** *** Added members *)

(** The values of the [target] elements of a text, in order. *)
Definition target_values (content : string) : list string :=
  omap (fun f => group f 1) (fst (scan_all Patterns.AddMember content)).

(** A value without its name space: what follows the last colon, the whole
    value when it has none. *)
Fixpoint after_last_colon (s : string) : string :=
  match s with
  | EmptyString => EmptyString
  | String c r =>
      if includes r ":" then after_last_colon r
      else if Ascii.eqb c ":"%char then r
      else s
  end.

Definition nonempty (s : string) : bool := negb (is_empty s).

(** The sentence for a list of names; none for the empty list. *)
Definition added_text (names : list string) : option string :=
  match names with
  | [] => None
  | _ => Some ("Added " +:+ join ", " names +:+ " to the conversation")
  end.

(** What the parser returns on an [AddMember] record: the names of all the
    targets, in order, repeated ones included. *)
Definition added_members (content : string) : option string :=
  added_text (filter nonempty (map after_last_colon (target_values content))).

(** The reading of the specification, which joins the distinct names. *)
Definition claimed_added_members (content : string) : option string :=
  added_text
    (remove_dups (filter nonempty (map after_last_colon (target_values content)))).

(** A record that adds the same member twice. *)
Definition add_alice_twice : Message.t :=
  record "a1" "ThreadActivity/AddMember"
    "<addmember><target>8:alice</target><target>8:alice</target></addmember>" "8:ann".

Definition add_alice_and_bob : Message.t :=
  record "a2" "ThreadActivity/AddMember"
    "<addmember><target>8:alice</target><target>8:bob</target></addmember>" "8:ann".

(** The wrapping a match of [AddMember] consists of. *)
Definition wrap (v : string) : string := "<target>" +:+ v +:+ "</target>".

(** Every character of a text satisfies a test. *)
Fixpoint all_chars (p : ascii -> bool) (s : string) : bool :=
  match s with
  | EmptyString => true
  | String c r => p c && all_chars p r
  end.

(** *** The content path

    The path of the specification, step by step: the emoji parser, the
    eight rewrites in their order, each replacing every match, then the
    allow-list filter.  Empty content stays empty. *)

(** 1. An emoji wrapper gives way to the text it holds. *)
Definition emoji_wrappers_unwrapped (s : string) : string :=
  replace_all
    (seqs [lit (quoted "<ss type='"); plus not_quote; lit (quoted "'>");
           Group 1 (star not_lt); lit "</ss>"])
    [Ref 1] s.

(** 2. An anchor opens in a new tab and keeps its address and its text. *)
Definition anchors_retargeted (s : string) : string :=
  replace_all
    (seqs [lit (quoted "<a href='"); Group 1 (plus not_quote); lit (quoted "'>");
           Group 2 (star not_lt); lit "</a>"])
    [Txt (quoted "<a href='"); Ref 1;
     Txt (quoted "' target='_blank' rel='noopener noreferrer'>"); Ref 2; Txt "</a>"] s.

(** 3. Bold markup becomes a [strong] element. *)
Definition bold_as_strong (s : string) : string :=
  replace_all (seqs [lit "<b>"; Group 1 (star not_lt); lit "</b>"])
    [Txt "<strong>"; Ref 1; Txt "</strong>"] s.

(** 4. A mention becomes a [strong] element whose text starts with [@]. *)
Definition mentions_as_strong (s : string) : string :=
  replace_all
    (seqs [lit (quoted "<at id='"); plus not_quote; lit (quoted "'>");
           Group 1 (star not_lt); lit "</at>"])
    [Txt "<strong>@"; Ref 1; Txt "</strong>"] s.

(** 5. The location, context and [c_i] tags go, with a closing tag that
    follows at once. *)
Definition metadata_tags_stripped (s : string) : string :=
  replace_all
    (seqs [lit "<"; alts [lit "location"; lit "context"; lit "c_i"]; star not_gt;
           lit ">"; opt (seqs [lit "</"; plus word; lit ">"])])
    [] s.

(** 6. The self-closing emoji placeholders go. *)
Definition emoji_placeholders_stripped (s : string) : string :=
  replace_all (seqs [lit "<e_m"; star not_gt; lit "/>"]) [] s.

(** 7. A bing response gives way to what it holds, over line ends too. *)
Definition bing_response_unwrapped (s : string) : string :=
  replace_all
    (seqs [lit "<bing-response>"; Group 1 (lazy_star any); lit "</bing-response>"])
    [Ref 1] s.

(** 8. An attribution goes with what it holds. *)
Definition attributions_stripped (s : string) : string :=
  replace_all
    (seqs [lit "<attribution"; star not_gt; lit ">"; lazy_star dot;
           lit "</attribution>"])
    [] s.

Definition content_path (parseSkypeEmoji sanitize : string -> string)
    (rawContent : string) : string :=
  if is_empty rawContent then EmptyString
  else
    sanitize
      (attributions_stripped
         (bing_response_unwrapped
            (emoji_placeholders_stripped
               (metadata_tags_stripped
                  (mentions_as_strong
                     (bold_as_strong
                        (anchors_retargeted
                           (emoji_wrappers_unwrapped (parseSkypeEmoji rawContent))))))))).

(** *** Translation pairs *)

(** The message shown for a [Translation] record [T] of the viewer that is
    followed by the [RichText] record [R]. *)
Definition original_of_pair (parseSkypeEmoji sanitize : string -> string)
    (T R : Message.t) (swapRoles : bool) : ProcessedMessage.t :=
  {| ProcessedMessage.id := Message.id R;
     ProcessedMessage.displayName := cleanDisplayName (Message.displayName R);
     ProcessedMessage.timestamp := Message.originalarrivaltime R;
     ProcessedMessage.content :=
       content_path parseSkypeEmoji sanitize (Message.content R);
     ProcessedMessage.type := text;
     ProcessedMessage.from := Message.from T;
     ProcessedMessage.isOwner := negb swapRoles;
     ProcessedMessage.originalMessageType := "RichText";
     ProcessedMessage.mediaUrl := None |}.

(** A translated message of the viewer, the original that follows it, and
    a later record. *)
Definition own_translation : Message.t :=
  record "m1" "Translation"
    (quoted "{'translations':[{'translation':'hello','loc':'en'}],'oloc':'fr','oid':'x'}")
    "8:me".

Definition own_original : Message.t := record "m2" "RichText" "bonjour" "8:me".

Definition later_text : Message.t := record "m3" "RichText" "ok" "8:ann".

(** A second translated message of the viewer that carries the id of
    [own_original], and the original that follows it. *)
Definition repeated_translation : Message.t :=
  record "m2" "Translation"
    (quoted "{'translations':[{'translation':'hi','loc':'en'}],'oloc':'fr','oid':'y'}")
    "8:me".

Definition late_original : Message.t := record "m4" "RichText" "salut" "8:me".

End Spec.

(** * The rest of the sources

    The functions of the same files that the statements above do not reach,
    the helpers of [src/utils/mediaUtils.ts] and the formatters of
    [src/utils/dateFormat.ts]. *)

(** ** More string methods *)

Module JsText.
Import JsString.

(** [s.substring(n)].  Here and in [lastIndexOf] an index counts bytes; the
    sources only hand an index found in a string back to [substring] on the
    same string, or compare it with -1, so the unit does not matter. *)
Fixpoint substring_from (n : nat) (s : string) : string :=
  match n, s with
  | S n', String _ r => substring_from n' r
  | _, _ => s
  end.

(** [s.lastIndexOf(c)] for a one-character [c]; [None] is -1. *)
Fixpoint lastIndexOf (s : string) (c : ascii) : option nat :=
  match s with
  | EmptyString => None
  | String a r =>
      match lastIndexOf r c with
      | Some i => Some (S i)
      | None => if Ascii.eqb a c then Some 0 else None
      end
  end.

(** *** Lengths in UTF-16 code units

    [s.length] and [s.substring(0, n)] count UTF-16 code units.  A
    character takes one code unit, except those of the four-byte sequences,
    which take a surrogate pair. *)
Definition units_of (c : ascii) : nat :=
  if nat_of_ascii c <? 240 then 1 else 2.

(** The code units of [s], the first [skip] bytes of which are followers of
    a character already counted. *)
Fixpoint units (skip : nat) (s : string) : nat :=
  match s with
  | EmptyString => 0
  | String c r =>
      match skip with
      | S k => units k r
      | 0 => units_of c + units (followers c) r
      end
  end.

(** [s.length] *)
Definition length16 (s : string) : nat := units 0 s.

(** The high surrogate of the character a four-byte sequence at the head of
    [s] encodes, as the three bytes of a lone surrogate. *)
Definition high_surrogate (s : string) : string :=
  match s with
  | EmptyString => EmptyString
  | String c r =>
      let six (i : nat) : N :=
        match substring_from i r with
        | String x _ => (N_of_ascii x mod 64)%N
        | EmptyString => 0%N
        end in
      let x := (((N_of_ascii c mod 8) * 256 + six 0%nat * 4 + six 1%nat / 16 + 960) mod 1024)%N in
      String (chr 237)
        (String (ascii_of_N (160 + x / 64))
           (String (ascii_of_N (128 + x mod 64)) EmptyString))
  end.

(** The first [n] code units of [s]; cutting a surrogate pair in two leaves
    its high surrogate. *)
Fixpoint take_units (skip n : nat) (s : string) : string :=
  match s with
  | EmptyString => EmptyString
  | String c r =>
      match skip with
      | S k => String c (take_units k n r)
      | 0 =>
          if units_of c <=? n
          then String c (take_units (followers c) (n - units_of c) r)
          else if 1 <=? n then high_surrogate s else EmptyString
      end
  end.

(** [s.substring(0, n)] *)
Definition substring_to (s : string) (n : nat) : string := take_units 0 n s.

End JsText.

(** ** Previews ([src/utils/messageProcessor.ts]) *)

Module Preview.
Import JsString Regex Patterns Utils Processor JsText.

(* /<[^>]+>/g *)
Definition STRIP_HTML_PATTERN : regex := seqs [lit "<"; plus not_gt; lit ">"].
(* /<ss[^>]*>([^<]* )<\/ss>/g *)
Definition STRIP_SKYPE_PATTERN : regex :=
  seqs [lit "<ss"; star not_gt; lit ">"; Group 1 (star not_lt); lit "</ss>"].
Definition PREVIEW_MAX_LENGTH : nat := 100.

Section Host.

Variable parseSkypeEmoji : string -> string.
(** The host document, as in [Search]. *)
Variable document : option (string -> string).
(** The case tables of the host, as in [JsString]. *)
Variable lowerCase : string -> string.

Local Abbreviation parseMediaFileInfo := (Processor.parseMediaFileInfo lowerCase).
Local Abbreviation parseThreadActivity := (Processor.parseThreadActivity lowerCase).
Local Abbreviation parseCallEvent := (Processor.parseCallEvent lowerCase).

Definition stripHtml (html : string) : string :=
  if is_empty html then EmptyString
  else
    match document with
    | None => replace_all STRIP_HTML_PATTERN [] html
    | Some textContent =>
        textContent
          (replace_all STRIP_HTML_PATTERN []
             (replace_all STRIP_SKYPE_PATTERN [Ref 1] (parseSkypeEmoji html)))
    end.

Definition getPreviewText (text : string) : string :=
  substring_to (stripHtml text) PREVIEW_MAX_LENGTH.

(** [getMessagePreview].  None of the parsers it wraps in [try] throws, so
    the handlers are left out. *)
Definition getMessagePreview (message : Message.t) (userId : string)
    (nextMessage : option Message.t) : string :=
  let messagetype := Message.messagetype message in
  let content := Message.content message in
  if String.eqb messagetype "Translation" then
    match (if String.eqb (Message.from message) userId
           then richText nextMessage else None) with
    | Some next => getPreviewText (Message.content next)
    | None => getPreviewText (or_else (parseTranslationContent content) content)
    end
  else if String.eqb messagetype "RichText"
          || startsWith messagetype "InviteFreeRelationshipChanged" then
    getPreviewText content
  else if String.eqb messagetype "RichText/Media_GenericFile" then
    parseGenericFile content
  else if String.eqb messagetype "RichText/UriObject"
          || String.eqb messagetype "RichText/Media_Video" then
    if includes content "<OriginalName" then parseMediaFileInfo content
    else getPreviewText content
  else if startsWith messagetype "ThreadActivity" then
    or_else (parseThreadActivity message) "System message"
  else if startsWith messagetype "Event/Call" then
    parseCallEvent message
      {| userId := userId; swapRoles := false; mediaFiles := false |}
  else if String.eqb messagetype "Notice" then parseNotice message
  else if String.eqb messagetype "PopCard" then parsePopCard message
  else "Message".

End Host.
End Preview.

(** ** Grouping for display ([src/utils/messageProcessor.ts]) *)

Module Grouping.
Import JsString JsNumber.

(** A [Map] from text, in insertion order: [get] and [set]; setting a key
    that is there keeps its place. *)
Fixpoint get {V : Type} (k : string) (m : list (string * V)) : option V :=
  match m with
  | [] => None
  | (k', v) :: m' => if String.eqb k' k then Some v else get k m'
  end.

Fixpoint set {V : Type} (k : string) (v : V) (m : list (string * V))
    : list (string * V) :=
  match m with
  | [] => [(k, v)]
  | (k', v') :: m' => if String.eqb k' k then (k, v) :: m' else (k', v') :: set k v m'
  end.

Definition type_eqb (a b : MessageType) : bool :=
  match a, b with
  | text, text | system, system | call, call | notice, notice | media, media => true
  | _, _ => false
  end.

Section Host.

(** [DATE_FORMATTER.format(new Date(timestamp))]: the day of a time stamp,
    as text; the formatter throws on a time stamp that is no date
    ([None]). *)
Variable dateKey : string -> option string.
(** [new Date(timestamp).getTime()], in milliseconds; [None] is [NaN]. *)
Variable getTime : string -> option Z.
(** [GROUP_TIME_THRESHOLD] of [src/constants/messages.ts]. *)
Variable GROUP_TIME_THRESHOLD : number.

(** The loop of [groupMessagesByDate]. *)
Fixpoint group_loop (messages : list ProcessedMessage.t)
    (grouped : list (string * list ProcessedMessage.t))
    : option (list (string * list ProcessedMessage.t)) :=
  match messages with
  | [] => Some grouped
  | message :: rest =>
      match dateKey (ProcessedMessage.timestamp message) with
      | None => None
      | Some key =>
          let group := default [] (get key grouped) in
          group_loop rest (set key (group ++ [message]) grouped)
      end
  end.

Definition groupMessagesByDate (messages : list ProcessedMessage.t)
    : option (list (string * list ProcessedMessage.t)) :=
  group_loop messages [].

(** [Math.abs(a - b)] on two time values. *)
Definition timeDiff (a b : option Z) : number :=
  match a, b with
  | Some x, Some y => Fin (inject_Z (Z.abs (x - y)))
  | _, _ => NaN
  end.

Definition shouldGroupWithPrevious (current : ProcessedMessage.t)
    (previous : option ProcessedMessage.t) : bool :=
  match previous with
  | None => false
  | Some previous =>
      if negb (String.eqb (ProcessedMessage.from current) (ProcessedMessage.from previous))
         || negb (type_eqb (ProcessedMessage.type current) (ProcessedMessage.type previous))
      then false
      else if type_eqb (ProcessedMessage.type current) system
              || type_eqb (ProcessedMessage.type previous) system
      then false
      else
        gt GROUP_TIME_THRESHOLD
           (timeDiff (getTime (ProcessedMessage.timestamp current))
                     (getTime (ProcessedMessage.timestamp previous)))
  end.

End Host.
End Grouping.

(** ** Media files ([src/utils/mediaUtils.ts], [src/constants/media.ts]) *)

Module Media.
Import JsString Json JsNumber JsValue JsText.

Definition IMAGE_EXTS : gset string :=
  list_to_set ["jpg"; "jpeg"; "png"; "gif"; "webp"; "bmp"; "svg"].
Definition VIDEO_EXTS : gset string :=
  list_to_set ["mp4"; "webm"; "mov"; "avi"; "mkv"; "m4v"].

Section Names.

(** The case tables of the host, as in [JsString]. *)
Variable lowerCase : string -> string.

Local Abbreviation toLowerCase := (JsString.toLowerCase lowerCase).

Definition getFileExtension (filename : string) : string :=
  match lastIndexOf filename "." with
  | None => EmptyString
  | Some lastDot => toLowerCase (substring_from (S lastDot) filename)
  end.

Definition isImageExtension (extension : string) : bool :=
  bool_decide (toLowerCase extension ∈ IMAGE_EXTS).

Definition isVideoExtension (extension : string) : bool :=
  bool_decide (toLowerCase extension ∈ VIDEO_EXTS).

(** [getFileExtension(v)] on the value of a property read, which the
    declared type takes for a string: a string has an extension; an array
    has a [lastIndexOf] of its own and no [substring]; on anything else the
    call is a [TypeError] ([None]). *)
Definition getFileExtension_of (v : option json) : option string :=
  match v with
  | Some (JString filename) => Some (getFileExtension filename)
  | Some (JArray items) =>
      if existsb (fun item => match item with
                              | JString s => String.eqb s "."
                              | _ => false
                              end) items
      then None else Some EmptyString
  | _ => None
  end.

End Names.

Inductive MediaKind : Type := Image | Video.

Section Files.

(** A [File] of the export, the text it holds ([await file.text()]) and
    [URL.createObjectURL]. *)
Variable File : Type.
Variable file_text : File -> string.
Variable createObjectURL : File -> string.
(** The case tables of the host, as in [JsString]. *)
Variable lowerCase : string -> string.

Local Abbreviation getFileExtension_of := (getFileExtension_of lowerCase).
Local Abbreviation isImageExtension := (isImageExtension lowerCase).
Local Abbreviation isVideoExtension := (isVideoExtension lowerCase).

(** [getMediaMetadata]: [None] is [null]. *)
Definition getMediaMetadata (mediaId : string) (mediaFiles : gmap string File)
    : option json :=
  match mediaFiles !! (mediaId +:+ ".json") with
  | None => None
  | Some jsonFile => parse (file_text jsonFile)
  end.

(** [createMediaUrl]: every exception is caught and gives [null]. *)
Definition createMediaUrl (mediaId : string) (mediaFiles : gmap string File)
    : option string :=
  match getMediaMetadata mediaId mediaFiles with
  | None => None
  | Some metadata =>
      if falsy metadata then None
      else
        match getFileExtension_of (field metadata "filename") with
        | None => None
        | Some extension =>
            if is_empty extension then None
            else
              let mediaFile :=
                match mediaFiles !! (mediaId +:+ ".1." +:+ extension) with
                | Some f => Some f
                | None =>
                    if isImageExtension extension then
                      let altExt :=
                        if String.eqb extension "jpg" then Some "jpeg"
                        else if String.eqb extension "jpeg" then Some "jpg"
                        else None in
                      match altExt with
                      | Some alt => mediaFiles !! (mediaId +:+ ".1." +:+ alt)
                      | None => None
                      end
                    else None
                end in
              option_map createObjectURL mediaFile
        end
  end.

Definition createVideoThumbnailUrl (mediaId : string) (mediaFiles : gmap string File)
    : option string :=
  option_map createObjectURL (mediaFiles !! (mediaId +:+ ".2.jpeg")).

(** [getMediaType]: the outer [None] is an exception, which this function
    does not catch; the inner one is [null]. *)
Definition getMediaType (mediaId : string) (mediaFiles : gmap string File)
    : option (option MediaKind) :=
  match getMediaMetadata mediaId mediaFiles with
  | None => Some None
  | Some metadata =>
      if falsy metadata then Some None
      else
        match getFileExtension_of (field metadata "filename") with
        | None => None
        | Some extension =>
            if is_empty extension then Some None
            else if isImageExtension extension then Some (Some Image)
            else if isVideoExtension extension then Some (Some Video)
            else Some None
        end
  end.

End Files.
End Media.

(** ** Dates ([src/utils/dateFormat.ts], [src/constants/dateFormat.ts]) *)

Module DateFormat.
Import JsString JsNumber.

Definition ORDINAL_SUFFIXES : list string := ["th"; "st"; "nd"; "rd"].
Definition MINUTE_MS : Z := 60000.
Definition HOUR_MS : Z := 3600000.
Definition DAY_MS : Z := 86400000.
Definition WEEK_MS : Z := 604800000.

(** [getOrdinalSuffix(day)] for a whole number or [NaN] ([None]), the values
    of [getDate()].  The remainder has the sign of [day]; an index that is
    negative or [NaN] reads [undefined]. *)
Definition getOrdinalSuffix (day : option Z) : string :=
  match day with
  | None => "th"
  | Some day =>
      if (3 <? day)%Z && (day <? 21)%Z then "th"
      else
        let suffix :=
          match Z.rem day 10 with
          | Zneg _ => None
          | index => ORDINAL_SUFFIXES !! Z.to_nat index
          end in
        or_else suffix "th"
  end.

(** The parts of a [Date] the formatters read, in local time. *)
Record Date : Type := {
  getTime : Z;
  getFullYear : Z;
  getMonth : Z;
  getDate : Z
}.

Section Host.

(** [new Date(dateString)]; [None] is an invalid date, whose numbers are
    [NaN] and on which the two formatters throw. *)
Variable parseDate : string -> option Date.
(** The reading of the clock: [new Date()], [Date.now()]. *)
Variable now : Date.
Variable TIME_FORMATTER : Date -> string.
Variable MONTH_FORMATTER : Date -> string.

(** [a.toDateString() === b.toDateString()] *)
Definition same_day (a b : Date) : bool :=
  (getFullYear a =? getFullYear b)%Z && (getMonth a =? getMonth b)%Z
  && (getDate a =? getDate b)%Z.

(** The day with its suffix, the month and the year. *)
Definition ordinal_date (date : Date) : string :=
  Z_to_string (getDate date) +:+ "<sup>" +:+ getOrdinalSuffix (Some (getDate date))
  +:+ "</sup> " +:+ MONTH_FORMATTER date +:+ " " +:+ Z_to_string (getFullYear date).

(** [formatMessageTime]; [None] is the [RangeError] of the formatter. *)
Definition formatMessageTime (dateString : string) : option string :=
  match parseDate dateString with
  | None => None
  | Some date =>
      if same_day date now then Some (TIME_FORMATTER date)
      else Some (ordinal_date date +:+ ", " +:+ TIME_FORMATTER date)
  end.

(** [formatRelativeTime].  The times are whole milliseconds and the
    quotients are rounded down exactly, as those of binary64 are for two
    times less than 2^52 ms, some 140000 years, apart. *)
Definition formatRelativeTime (dateString : string) : option string :=
  match parseDate dateString with
  | None => None
  | Some date =>
      let diff := (getTime now - getTime date)%Z in
      if (diff <? HOUR_MS)%Z then Some (Z_to_string (diff / MINUTE_MS) +:+ "m ago")
      else if (diff <? DAY_MS)%Z then Some (Z_to_string (diff / HOUR_MS) +:+ "h ago")
      else if (diff <? WEEK_MS)%Z then Some (Z_to_string (diff / DAY_MS) +:+ "d ago")
      else Some (ordinal_date date)
  end.

End Host.
End DateFormat.

(** * Notions for the further properties *)

Module Notions.
Import JsString Regex Json JsNumber Patterns Utils Processor Spec.

(** A character of a media id: a letter, a digit or a hyphen. *)
Definition id_char (c : ascii) : bool :=
  between 97 122 c || between 65 90 c || between 48 57 c || just "-"%char c.

(** A decimal digit. *)
Definition is_digit (c : ascii) : bool := between 48 57 c.

(** A text of one line: it holds no line feed, no carriage return, no
    U+2028 and no U+2029 (the bytes 226 128 168 and 226 128 169), and the
    byte 226 leads a sequence in it. *)
Fixpoint one_line (s : string) : bool :=
  match s with
  | EmptyString => true
  | String c r =>
      if just (chr 10) c || just (chr 13) c then false
      else if just (chr 226) c then
        match r with
        | EmptyString => false
        | String c1 r1 =>
            if just (chr 128) c1 then
              match r1 with
              | EmptyString => false
              | String c2 r2 =>
                  negb (just (chr 168) c2 || just (chr 169) c2) && one_line r2
              end
            else one_line r1
        end
      else one_line r
  end.

(** What the two perspectives on one record have in common: all but the
    wording of a call event and the owner flag, which is false in both on
    the anonymous kinds and inverted on the others. *)
Definition swapped_view (p q : ProcessedMessage.t) : Prop :=
  ProcessedMessage.id p = ProcessedMessage.id q
  /\ ProcessedMessage.displayName p = ProcessedMessage.displayName q
  /\ ProcessedMessage.timestamp p = ProcessedMessage.timestamp q
  /\ ProcessedMessage.type p = ProcessedMessage.type q
  /\ ProcessedMessage.from p = ProcessedMessage.from q
  /\ ProcessedMessage.originalMessageType p = ProcessedMessage.originalMessageType q
  /\ ProcessedMessage.mediaUrl p = ProcessedMessage.mediaUrl q
  /\ (ProcessedMessage.type p <> call ->
      ProcessedMessage.content p = ProcessedMessage.content q)
  /\ match ProcessedMessage.type p with
     | system | notice =>
         ProcessedMessage.isOwner p = false /\ ProcessedMessage.isOwner q = false
     | _ => ProcessedMessage.isOwner p = negb (ProcessedMessage.isOwner q)
     end.

(** A message carries a media id exactly when it is of kind [media], the
    id is well formed, and the record it stems from is no album. *)
Definition well_shown (p : ProcessedMessage.t) : Prop :=
  (ProcessedMessage.type p = media <-> ProcessedMessage.mediaUrl p <> None)
  /\ (forall i, ProcessedMessage.mediaUrl p = Some i ->
               is_empty i = false /\ all_chars id_char i = true)
  /\ ProcessedMessage.originalMessageType p <> "RichText/Media_Album".

Section Keys.

Variable lowerCase : string -> string.

(** The key of a participant: its identity in lower case. *)
Definition identity_key (participant : CallParticipant) : string :=
  toLowerCase lowerCase (identity participant).

(** The identity a participant segment gives, in lower case. *)
Definition segment_key (partMatch : found) : string :=
  toLowerCase lowerCase (default EmptyString (group partMatch 1)).

(** The state of the loop over the segments of a call: the participants
    have distinct keys, which are the keys seen, and each has a name. *)
Definition participants_ok (st : CallScan) : Prop :=
  NoDup (map identity_key (participantData st))
  /\ (forall k, k ∈ seenIdentities st <-> k ∈ map identity_key (participantData st))
  /\ Forall (fun participant => is_empty (name participant) = false) (participantData st).

End Keys.

(** What the reads of [parseTranslationContent] find: the value of
    [translation] in [translations[0]], when the content is JSON and
    [translations] can be indexed. *)
Definition translation_read (content : string) : option json :=
  match parse content with
  | None => None
  | Some translationData =>
      match field_strict (Some translationData) "translations" with
      | None => None
      | Some translations =>
          match first_strict translations with
          | None => None
          | Some entry => field_opt entry "translation"
          end
      end
  end.

(** The text of a [Translation] record: the translation when it holds one
    that is not empty, its content as it is otherwise. *)
Definition translated_text (content : string) : string :=
  match translation_read content with
  | Some (JString translation) => if is_empty translation then content else translation
  | _ => content
  end.

(** The message shown for a [Translation] record [T] of another sender. *)
Definition translation_shown (parseSkypeEmoji sanitize : string -> string)
    (T : Message.t) (context : MessageProcessorContext) : ProcessedMessage.t :=
  {| ProcessedMessage.id := Message.id T;
     ProcessedMessage.displayName := cleanDisplayName (Message.displayName T);
     ProcessedMessage.timestamp := Message.originalarrivaltime T;
     ProcessedMessage.content :=
       content_path parseSkypeEmoji sanitize (translated_text (Message.content T));
     ProcessedMessage.type := text;
     ProcessedMessage.from := Message.from T;
     ProcessedMessage.isOwner := swapRoles context;
     ProcessedMessage.originalMessageType := "Translation";
     ProcessedMessage.mediaUrl := None |}.

(** The suffix English gives the ordinal of a number: 1st, 2nd, 3rd, 4th,
    11th, 12th, 13th, 21st ... *)
Definition english_suffix (day : Z) : string :=
  let tens := (day mod 100)%Z in
  if (11 <=? tens)%Z && (tens <=? 13)%Z then "th"
  else if (day mod 10 =? 1)%Z then "st"
  else if (day mod 10 =? 2)%Z then "nd"
  else if (day mod 10 =? 3)%Z then "rd"
  else "th".

(** A byte that is no ASCII letter: case mapping leaves it alone and maps
    no other byte to it. *)
Definition caseless (c : ascii) : bool :=
  negb (between 65 90 c || between 97 122 c).

(** A text without its longest prefix of characters of a class. *)
Fixpoint skip_while (p : ascii -> bool) (s : string) : string :=
  match s with
  | EmptyString => EmptyString
  | String c r => if p c then skip_while p r else s
  end.

(** No ["<"] of the text is followed, however far, by a [">"]. *)
Fixpoint tag_free (s : string) : bool :=
  match s with
  | EmptyString => true
  | String c r =>
      if Ascii.eqb c "<"%char then negb (includes r ">") else tag_free r
  end.

End Notions.

(** * Properties *)

(** ** Strings *)

Module JsStringFacts.
Import JsString Spec.

Lemma truthy_idem (o : option string) : truthy (truthy o) = truthy o.
Proof. destruct o as [[|c s]|]; reflexivity. Qed.

Lemma truthy_Some (o : option string) (s : string) :
  truthy o = Some s -> o = Some s /\ is_empty s = false.
Proof.
  destruct o as [[|c t]|]; simpl; intros [= <-]; split; reflexivity.
Qed.

Lemma str_app_cons (c : ascii) (s t : string) : String c s +:+ t = String c (s +:+ t).
Proof. reflexivity. Qed.

Lemma str_app_nil_l (s : string) : EmptyString +:+ s = s.
Proof. reflexivity. Qed.

Lemma str_length_app (s t : string) :
  String.length (s +:+ t) = String.length s + String.length t.
Proof.
  induction s as [|c s IH]; [reflexivity|].
  rewrite str_app_cons. simpl. now rewrite IH.
Qed.

Lemma str_app_nil_r (s : string) : s +:+ EmptyString = s.
Proof.
  induction s as [|c s IH]; [reflexivity|].
  now rewrite str_app_cons, IH.
Qed.

Lemma str_app_assoc (s t u : string) : (s +:+ t) +:+ u = s +:+ (t +:+ u).
Proof.
  induction s as [|c s IH]; [reflexivity|].
  now rewrite !str_app_cons, IH.
Qed.

Lemma str_count_app (c : ascii) (s t : string) :
  count c (s +:+ t) = count c s + count c t.
Proof.
  induction s as [|a s IH]; [reflexivity|].
  rewrite str_app_cons. simpl. rewrite IH. lia.
Qed.

(** *** [trim] on white space *)

Lemma strip_prefix_self (w s : string) : strip_prefix w (w +:+ s) = Some s.
Proof.
  induction w as [|c w IH]; [reflexivity|].
  rewrite str_app_cons. simpl. now rewrite Ascii.eqb_refl.
Qed.

Lemma strip_prefix_Some (p s r : string) :
  strip_prefix p s = Some r -> s = p +:+ r.
Proof.
  revert s. induction p as [|a p IH]; intros s.
  { simpl. now intros [= ->]. }
  destruct s as [|b s]; simpl; [discriminate|].
  destruct (Ascii.eqb a b) eqn:E; [|discriminate].
  apply Ascii.eqb_eq in E. subst b. intros H. rewrite str_app_cons.
  f_equal. now apply IH.
Qed.

(** Two prefixes of one text: one is a prefix of the other. *)
Lemma app_eq_app (a b c d : string) :
  a +:+ b = c +:+ d ->
  (exists t, a = c +:+ t /\ d = t +:+ b) \/ (exists t, c = a +:+ t /\ b = t +:+ d).
Proof.
  revert c. induction a as [|x a IH]; intros c H.
  - right. exists c. split; [reflexivity | exact H].
  - destruct c as [|y c].
    + left. exists (String x a). split; [reflexivity | symmetry; exact H].
    + rewrite !str_app_cons in H. injection H as -> H.
      destruct (IH c H) as [(t & -> & ->) | (t & -> & ->)].
      * left. exists t. now rewrite str_app_cons.
      * right. exists t. now rewrite str_app_cons.
Qed.

Lemma app_eq_self (a t : string) : a = a +:+ t -> t = EmptyString.
Proof.
  intros H. apply (f_equal String.length) in H. rewrite str_length_app in H.
  destruct t; [reflexivity | simpl in H; lia].
Qed.

(** No white-space sequence is a proper prefix of another, and none is
    empty. *)
Lemma white_space_prefix_free (w w' : string) :
  In w white_space -> In w' white_space -> startsWith w w' = true -> w = w'.
Proof.
  intros Hw Hw' H.
  assert (Hall : forallb (fun a => forallb (fun b =>
             implb (startsWith a b) (String.eqb a b)) white_space) white_space = true)
    by (vm_compute; reflexivity).
  rewrite forallb_forall in Hall. specialize (Hall w Hw).
  rewrite forallb_forall in Hall. specialize (Hall w' Hw').
  rewrite H in Hall. simpl in Hall. now apply String.eqb_eq.
Qed.

Lemma white_space_nonempty (w : string) : In w white_space -> is_empty w = false.
Proof.
  intros Hw.
  assert (Hall : forallb (fun a => negb (is_empty a)) white_space = true)
    by (vm_compute; reflexivity).
  rewrite forallb_forall in Hall. apply negb_true_iff. now apply Hall.
Qed.

Lemma startsWith_app (p t : string) : startsWith (p +:+ t) p = true.
Proof. unfold startsWith. now rewrite strip_prefix_self. Qed.

Lemma strip_white_space (w w' s r : string) :
  In w white_space -> In w' white_space ->
  strip_prefix w' (w +:+ s) = Some r -> r = s.
Proof.
  intros Hw Hw' H. apply strip_prefix_Some in H.
  destruct (app_eq_app _ _ _ _ H) as [(t & Hwt & Hr) | (t & Hwt & Hs)].
  - assert (E : w = w') by (apply white_space_prefix_free; trivial;
                            rewrite Hwt; apply startsWith_app).
    rewrite <- E in Hwt. apply app_eq_self in Hwt. now rewrite Hr, Hwt.
  - assert (E : w' = w) by (apply white_space_prefix_free; trivial;
                            rewrite Hwt; apply startsWith_app).
    rewrite E in Hwt. apply app_eq_self in Hwt. now rewrite Hs, Hwt.
Qed.

Lemma strip_one_found (ws : list string) (x s : string) :
  (exists w, In w ws /\ strip_prefix w x = Some s) ->
  (forall w' r, In w' ws -> strip_prefix w' x = Some r -> r = s) ->
  strip_one ws x = Some s.
Proof.
  induction ws as [|w0 ws IH]; intros (w & Hin & Hw) Hall; [destruct Hin|].
  simpl. destruct (strip_prefix w0 x) as [r|] eqn:E.
  - f_equal. apply (Hall w0 r); [now left | exact E].
  - apply IH.
    + destruct Hin as [-> | Hin]; [congruence|]. now exists w.
    + intros w' r Hin'. apply Hall. now right.
Qed.

Lemma strip_leading_blank (s : string) :
  whitespace_only s ->
  forall fuel, String.length s <= fuel ->
    strip_leading white_space fuel s = EmptyString.
Proof.
  induction 1 as [|w s Hw Hs IH]; intros fuel Hfuel.
  - destruct fuel; reflexivity.
  - pose proof (white_space_nonempty w Hw) as Hne.
    rewrite str_length_app in Hfuel.
    destruct fuel as [|fuel]; [destruct w; [discriminate | simpl in Hfuel; lia]|].
    cbn [strip_leading].
    rewrite (strip_one_found white_space (w +:+ s) s).
    + apply IH. destruct w; [discriminate | simpl in Hfuel; lia].
    + exists w. split; [exact Hw | apply strip_prefix_self].
    + intros w' r Hw'. now apply strip_white_space.
Qed.

Lemma trim_blank (s : string) : whitespace_only s -> trim s = EmptyString.
Proof.
  intros H. unfold trim, trimStart.
  now rewrite (strip_leading_blank s H).
Qed.

End JsStringFacts.

(** ** Regular expressions *)

Module RegexFacts.
Import JsString Regex Spec JsStringFacts.

Lemma is_suffix_refl (s : string) : is_suffix s s.
Proof. now exists EmptyString. Qed.

Lemma is_suffix_trans (a b c : string) : is_suffix a b -> is_suffix b c -> is_suffix a c.
Proof.
  intros [p ->] [q ->]. exists (q +:+ p). now rewrite str_app_assoc.
Qed.

Lemma is_suffix_tail (c : ascii) (s : string) : is_suffix s (String c s).
Proof. now exists (String c EmptyString). Qed.

Lemma take_app (pre rest : string) : take (String.length pre) (pre +:+ rest) = pre.
Proof.
  induction pre as [|c pre IH]; [now destruct rest|].
  rewrite str_app_cons. simpl. now rewrite IH.
Qed.

Lemma consumed_app (pre rest : string) : consumed (pre +:+ rest) rest = pre.
Proof.
  unfold consumed. rewrite str_length_app.
  replace (String.length pre + String.length rest - String.length rest)
    with (String.length pre) by lia.
  apply take_app.
Qed.

Lemma consumed_suffix (s rest : string) :
  is_suffix rest s -> s = consumed s rest +:+ rest.
Proof. intros [pre ->]. now rewrite consumed_app. Qed.

Lemma star_loop_sound m greedy fuel : sound m -> sound (star_loop m greedy fuel).
Proof.
  intros Hm. induction fuel as [|fuel IH]; intros k caps s o; simpl.
  - intros H. exists caps, s. split; [exact H | apply is_suffix_refl].
  - set (again := m _ caps s).
    assert (Hagain : again = Some o ->
              exists caps' rest, k caps' rest = Some o /\ is_suffix rest s).
    { intros H. apply Hm in H. destruct H as (caps1 & s1 & H & Hs1).
      destruct (String.length s1 <? String.length s); [|discriminate].
      apply IH in H. destruct H as (caps' & rest & H & Hrest).
      exists caps', rest. split; [exact H | eapply is_suffix_trans; eassumption]. }
    assert (Hstop : k caps s = Some o ->
              exists caps' rest, k caps' rest = Some o /\ is_suffix rest s).
    { intros H. exists caps, s. split; [exact H | apply is_suffix_refl]. }
    destruct greedy.
    + destruct again as [o'|]; [|exact Hstop]. exact Hagain.
    + destruct (k caps s) as [o'|]; [|exact Hagain].
      intros H. apply Hstop. exact H.
Qed.

Lemma rmatch_sound total r : sound (rmatch total r).
Proof.
  induction r as [|p|r1 IH1 r2 IH2|r1 IH1 r2 IH2|greedy r1 IH1|n r1 IH1| |];
    intros k caps s o; cbn [rmatch].
  - intros H. exists caps, s. split; [exact H | apply is_suffix_refl].
  - destruct s as [|c s']; [discriminate|].
    destruct (p c); [|discriminate].
    intros H. exists caps, s'. split; [exact H | apply is_suffix_tail].
  - intros H. apply IH1 in H. destruct H as (caps1 & s1 & H & Hs1).
    apply IH2 in H. destruct H as (caps' & rest & H & Hrest).
    exists caps', rest. split; [exact H | eapply is_suffix_trans; eassumption].
  - destruct (rmatch total r1 k caps s) as [o'|] eqn:E.
    + intros [= <-]. now apply IH1 in E.
    + apply IH2.
  - apply star_loop_sound. exact IH1.
  - intros H. apply IH1 in H. destruct H as (caps1 & s1 & H & Hs1).
    exists ((n, consumed s s1) :: caps1), s1. now split.
  - destruct (String.length s =? total); [|discriminate].
    intros H. exists caps, s. split; [exact H | apply is_suffix_refl].
  - destruct (is_empty s); [|discriminate].
    intros H. exists caps, s. split; [exact H | apply is_suffix_refl].
Qed.

Lemma search_cuts total r s f : search total r s = Some f -> cuts f s.
Proof.
  revert f. induction s as [|c s IH]; intros f; simpl.
  - destruct (rmatch total r accept [] EmptyString) as [[caps rest]|] eqn:E;
      [|discriminate].
    intros [= <-]. apply rmatch_sound in E.
    destruct E as (caps' & rest' & E & Hs).
    unfold accept in E. injection E as <- <-.
    unfold cuts. simpl. now apply consumed_suffix.
  - destruct (rmatch total r accept [] (String c s)) as [[caps rest]|] eqn:E.
    + intros [= <-]. apply rmatch_sound in E.
      destruct E as (caps' & rest' & E & Hs).
    unfold accept in E. injection E as <- <-.
      unfold cuts. simpl. now apply consumed_suffix.
    + destruct (search total r s) as [g|]; [|discriminate].
      intros [= <-]. unfold cuts. simpl. rewrite str_app_cons.
      f_equal. now apply IH.
Qed.

(** Under a capturing group around the whole expression, the group holds
    the matched text. *)
Lemma rmatch_group total n r s caps rest :
  rmatch total (Group n r) accept [] s = Some (caps, rest) ->
  cap caps n = Some (consumed s rest).
Proof.
  cbn [rmatch]. intros E. apply rmatch_sound in E.
  destruct E as (caps' & rest' & E & Hs).
  unfold accept in E. injection E as <- <-.
  simpl. now rewrite Nat.eqb_refl.
Qed.

Lemma search_group total n r s f :
  search total (Group n r) s = Some f -> group f n = Some (whole f).
Proof.
  pose proof (rmatch_group total n r) as Hg.
  remember (Group n r) as g eqn:Heq. clear Heq.
  revert f. induction s as [|c s IH]; intros f; simpl.
  - destruct (rmatch total g accept [] EmptyString) as [[caps rest]|] eqn:E;
      [|discriminate].
    intros [= <-]. apply Hg in E. exact E.
  - destruct (rmatch total g accept [] (String c s)) as [[caps rest]|] eqn:E.
    + intros [= <-]. apply Hg in E. exact E.
    + destruct (search total g s) as [f'|]; [|discriminate].
      intros [= <-]. unfold group. simpl. now apply IH.
Qed.

Lemma scan_source fuel total r s :
  source (fst (scan fuel total r s)) (snd (scan fuel total r s)) = s.
Proof.
  revert s. induction fuel as [|fuel IH]; intros s; simpl; [reflexivity|].
  destruct (search total r s) as [f|] eqn:E; [|reflexivity].
  apply search_cuts in E. unfold cuts in E.
  destruct (is_empty (whole f)) eqn:Hempty.
  - destruct (after f) as [|c rest] eqn:Hafter.
    + simpl. now rewrite E.
    + specialize (IH rest).
      destruct (scan fuel total r rest) as [[|g gs] tl]; simpl in *.
      * now rewrite E, IH.
      * rewrite E. do 2 f_equal. rewrite str_app_cons. now rewrite IH.
  - specialize (IH (after f)).
    destruct (scan fuel total r (after f)) as [fs tl]. simpl in *.
    now rewrite IH.
Qed.

Lemma scan_group fuel total n r s :
  Forall (fun f => group f n = Some (whole f)) (fst (scan fuel total (Group n r) s)).
Proof.
  pose proof (search_group total n r) as Hg.
  remember (Group n r) as g eqn:Heq. clear Heq.
  revert s. induction fuel as [|fuel IH]; intros s; simpl; [constructor|].
  destruct (search total g s) as [f|] eqn:E; [|constructor].
  apply Hg in E.
  destruct (is_empty (whole f)).
  - destruct (after f) as [|c rest]; [repeat constructor; exact E|].
    specialize (IH rest).
    destruct (scan fuel total g rest) as [[|f' fs] tl]; simpl in *.
    + repeat constructor; exact E.
    + inversion IH; subst. repeat constructor; trivial.
  - specialize (IH (after f)).
    destruct (scan fuel total g (after f)) as [fs tl]. simpl in *.
    constructor; trivial.
Qed.

(** *** Literals and character classes *)

Lemma rmatch_lit total p k caps s :
  rmatch total (lit p) k caps s =
    match strip_prefix p s with
    | Some r => k caps r
    | None => None
    end.
Proof.
  revert s. induction p as [|c p IH]; intros s; [reflexivity|].
  cbn [lit rmatch strip_prefix]. destruct s as [|a s]; [reflexivity|].
  unfold just. rewrite (Ascii.eqb_sym a c).
  destruct (Ascii.eqb c a); [apply IH | reflexivity].
Qed.

Lemma star_chars total p greedy fuel k caps s o :
  star_loop (rmatch total (Chr p)) greedy fuel k caps s = Some o ->
  exists v rest, s = v +:+ rest /\ all_chars p v = true /\ k caps rest = Some o.
Proof.
  revert s. induction fuel as [|fuel IH]; intros s; cbn [star_loop].
  - intros H. exists EmptyString, s. now repeat split.
  - assert (Hstop : k caps s = Some o ->
              exists v rest, s = v +:+ rest /\ all_chars p v = true
                             /\ k caps rest = Some o).
    { intros H. exists EmptyString, s. now repeat split. }
    assert (Hagain :
              rmatch total (Chr p)
                (fun caps1 s1 =>
                   if String.length s1 <? String.length s
                   then star_loop (rmatch total (Chr p)) greedy fuel k caps1 s1
                   else None) caps s = Some o ->
              exists v rest, s = v +:+ rest /\ all_chars p v = true
                             /\ k caps rest = Some o).
    { cbn [rmatch]. destruct s as [|c s']; [discriminate|].
      destruct (p c) eqn:Hp; [|discriminate].
      destruct (String.length s' <? String.length (String c s')); [|discriminate].
      intros H. apply IH in H. destruct H as (v & rest & -> & Hv & Hk).
      exists (String c v), rest. repeat split; trivial.
      simpl. now rewrite Hp, Hv. }
    destruct greedy.
    + destruct (rmatch total (Chr p) _ caps s) as [o'|]; [|exact Hstop].
      exact Hagain.
    + destruct (k caps s) as [o'|]; [|exact Hagain].
      exact Hstop.
Qed.

Lemma plus_chars total p k caps s o :
  rmatch total (plus (Chr p)) k caps s = Some o ->
  exists v rest, s = v +:+ rest /\ all_chars p v = true /\ k caps rest = Some o.
Proof.
  unfold plus. cbn [rmatch]. destruct s as [|c s']; [discriminate|].
  destruct (p c) eqn:Hp; [|discriminate].
  intros H. apply (star_chars total) in H. destruct H as (v & rest & -> & Hv & Hk).
  exists (String c v), rest. repeat split; trivial.
  simpl. now rewrite Hp, Hv.
Qed.

Lemma group_plus_chars total n p k caps s o :
  rmatch total (Group n (plus (Chr p))) k caps s = Some o ->
  exists v rest,
    s = v +:+ rest /\ all_chars p v = true /\ k ((n, v) :: caps) rest = Some o.
Proof.
  intros H. change (rmatch total (Group n (plus (Chr p))) k caps s)
    with (rmatch total (plus (Chr p))
            (fun caps1 s1 => k ((n, consumed s s1) :: caps1) s1) caps s) in H.
  apply plus_chars in H. destruct H as (v & rest & -> & Hv & Hk).
  rewrite consumed_app in Hk. now exists v, rest.
Qed.

(** *** What holds of one match holds of every match of a scan *)

Lemma search_whole total r (Q : string -> captures -> Prop) :
  (forall s caps rest,
     rmatch total r accept [] s = Some (caps, rest) -> Q (consumed s rest) caps) ->
  forall s f, search total r s = Some f -> Q (whole f) (groups f).
Proof.
  intros HQ s. induction s as [|c s IH]; intros f; simpl.
  - destruct (rmatch total r accept [] EmptyString) as [[caps rest]|] eqn:E;
      [|discriminate].
    intros [= <-]. simpl. now apply HQ.
  - destruct (rmatch total r accept [] (String c s)) as [[caps rest]|] eqn:E.
    + intros [= <-]. simpl. now apply HQ.
    + destruct (search total r s) as [g|]; [|discriminate].
      intros [= <-]. simpl. now apply IH.
Qed.

Lemma scan_whole fuel total r (Q : string -> captures -> Prop) :
  (forall s caps rest,
     rmatch total r accept [] s = Some (caps, rest) -> Q (consumed s rest) caps) ->
  forall s, Forall (fun f => Q (whole f) (groups f)) (fst (scan fuel total r s)).
Proof.
  intros HQ. pose proof (search_whole total r Q HQ) as Hs.
  induction fuel as [|fuel IH]; intros s; simpl; [constructor|].
  destruct (search total r s) as [f|] eqn:E; [|constructor].
  apply Hs in E.
  destruct (is_empty (whole f)).
  - destruct (after f) as [|c rest]; [repeat constructor; exact E|].
    specialize (IH rest).
    destruct (scan fuel total r rest) as [[|f' fs] tl]; simpl in *.
    + repeat constructor; exact E.
    + inversion IH; subst. repeat constructor; trivial.
  - specialize (IH (after f)).
    destruct (scan fuel total r (after f)) as [fs tl]. simpl in *.
    constructor; trivial.
Qed.

End RegexFacts.

(** ** Numbers *)

Module JsNumberFacts.
Import JsNumber.

Lemma Qle_bool_false (a b : Q) : Qle_bool a b = false -> Qle_bool b a = true.
Proof.
  intros H. apply Qle_bool_iff. apply Qlt_le_weak. apply Qnot_le_lt.
  intros Hle. apply Qle_bool_iff in Hle. congruence.
Qed.

Lemma Qle_bool_trans (a b c : Q) :
  Qle_bool a b = true -> Qle_bool b c = true -> Qle_bool a c = true.
Proof.
  rewrite !Qle_bool_iff. apply Qle_trans.
Qed.

(** [gt] is a strict order on the numbers other than [NaN]. *)
Lemma gt_asym (x y : number) : gt x y = true -> gt y x = false.
Proof.
  destruct x as [|[]|a], y as [|[]|b]; simpl; try congruence.
  intros H. apply negb_true_iff in H. apply Qle_bool_false in H. now rewrite H.
Qed.

Lemma gt_irrefl (x : number) : gt x x = false.
Proof.
  destruct x as [|[]|a]; simpl; trivial.
  apply negb_false_iff. apply Qle_bool_iff. apply Qle_refl.
Qed.

Lemma not_gt_trans (x y z : number) :
  isNaN y = false -> gt x y = false -> gt y z = false -> gt x z = false.
Proof.
  destruct x as [|[]|a], y as [|[]|b], z as [|[]|c]; simpl; try congruence.
  intros _. rewrite !negb_false_iff. apply Qle_bool_trans.
Qed.

Lemma max_eq (x y : number) :
  isNaN x = false -> isNaN y = false -> max x y = if gt y x then y else x.
Proof. destruct x, y; intros Hx Hy; try discriminate; reflexivity. Qed.

Lemma max_not_NaN (x y : number) :
  isNaN x = false -> isNaN y = false -> isNaN (max x y) = false.
Proof.
  intros Hx Hy. rewrite max_eq by assumption. now destruct (gt y x).
Qed.

Lemma max_upper_l (x y : number) :
  isNaN x = false -> isNaN y = false -> gt x (max x y) = false.
Proof.
  intros Hx Hy. rewrite max_eq by assumption.
  destruct (gt y x) eqn:E; [now apply gt_asym | apply gt_irrefl].
Qed.

Lemma max_upper_r (x y : number) :
  isNaN x = false -> isNaN y = false -> gt y (max x y) = false.
Proof.
  intros Hx Hy. rewrite max_eq by assumption.
  destruct (gt y x) eqn:E; [apply gt_irrefl | exact E].
Qed.

(** *** Powers of two *)

Local Open Scope Q_scope.

Lemma p2_pos (a : Z) : 0 < 2 ^ a.
Proof. apply Qpower_0_lt. reflexivity. Qed.

Lemma p2_add (a b : Z) : 2 ^ (a + b) == 2 ^ a * 2 ^ b.
Proof. apply Qpower_plus. discriminate. Qed.

Lemma p2_le (a b : Z) : (a <= b)%Z -> 2 ^ a <= 2 ^ b.
Proof. intros H. apply Qpower_le_compat_l; [exact H | discriminate]. Qed.

Lemma p2_lt (a b : Z) : (a < b)%Z -> 2 ^ a < 2 ^ b.
Proof. intros H. apply Qpower_lt_compat_l; [exact H | reflexivity]. Qed.

Lemma p2_lt_inv (a b : Z) : 2 ^ a < 2 ^ b -> (a < b)%Z.
Proof. intros H. eapply Qpower_lt_compat_l_inv; [exact H | reflexivity]. Qed.

Lemma p2_Z (a : Z) : (0 <= a)%Z -> 2 ^ a == inject_Z (2 ^ a).
Proof. intros H. symmetry. apply (Zpower_Qpower 2 a H). Qed.

Lemma p2_succ (a : Z) : 2 ^ (a + 1) == 2 * 2 ^ a.
Proof. rewrite p2_add. change (2 ^ 1) with 2. ring. Qed.

Lemma p2_opp (a : Z) : 2 ^ a * 2 ^ (- a) == 1.
Proof. rewrite <- p2_add. now replace (a + - a)%Z with 0%Z by lia. Qed.

(** *** Nearest integer *)

Lemma nearest_even_floor (y : Q) :
  nearest_even y = Qfloor y \/ nearest_even y = (Qfloor y + 1)%Z.
Proof.
  unfold nearest_even. destruct (_ ?= _); [destruct (Z.even _)| |]; auto.
Qed.

Lemma nearest_even_near (y : Q) :
  inject_Z (nearest_even y) - (1 # 2) <= y <= inject_Z (nearest_even y) + (1 # 2).
Proof.
  pose proof (Qfloor_le y) as Hl. pose proof (Qlt_floor y) as Hu.
  rewrite inject_Z_plus in Hu. change (inject_Z 1) with 1 in Hu.
  unfold nearest_even.
  destruct (y - inject_Z (Qfloor y) ?= 1 # 2) eqn:E.
  - apply Qeq_alt in E.
    destruct (Z.even _); [|rewrite inject_Z_plus; change (inject_Z 1) with 1]; lra.
  - apply Qlt_alt in E. lra.
  - apply Qgt_alt in E. rewrite inject_Z_plus. change (inject_Z 1) with 1. lra.
Qed.

Lemma nearest_even_ge (y : Q) (j : Z) : inject_Z j <= y -> (j <= nearest_even y)%Z.
Proof.
  intros H. apply Qfloor_resp_le in H. rewrite Qfloor_Z in H.
  destruct (nearest_even_floor y) as [-> | ->]; lia.
Qed.

Lemma nearest_even_le (y : Q) (j : Z) : y <= inject_Z j -> (nearest_even y <= j)%Z.
Proof.
  intros H. pose proof (nearest_even_near y) as [Hn _].
  assert (Hlt : inject_Z (nearest_even y) < inject_Z (j + 1)).
  { rewrite inject_Z_plus. change (inject_Z 1) with 1. lra. }
  rewrite <- Zlt_Qlt in Hlt. lia.
Qed.

Lemma nearest_even_lt (y : Q) (j : Z) :
  y < inject_Z j - (1 # 2) -> (nearest_even y < j)%Z.
Proof.
  intros H. pose proof (nearest_even_near y) as [Hn _].
  rewrite Zlt_Qlt. lra.
Qed.

(** *** Binades *)

Lemma binade_spec (x : Q) : 0 < x -> 2 ^ binade x <= x < 2 ^ (binade x + 1).
Proof.
  intros Hx. destruct x as [a b]. unfold binade. cbn [Qnum Qden].
  assert (Ha : (0 < a)%Z).
  { unfold Qlt in Hx. simpl in Hx. lia. }
  destruct (Z.log2_spec a Ha) as [Ha1 Ha2].
  destruct (Z.log2_spec (Zpos b) eq_refl) as [Hb1 Hb2].
  pose proof (Z.log2_nonneg a) as Hla. pose proof (Z.log2_nonneg (Zpos b)) as Hlb.
  set (la := Z.log2 a) in *. set (lb := Z.log2 (Zpos b)) in *.
  assert (Ea : inject_Z a == (a # b) * inject_Z (Zpos b)).
  { unfold Qeq, Qmult, inject_Z. simpl. lia. }
  rewrite Zle_Qle, <- p2_Z in Ha1 by exact Hla.
  rewrite Zlt_Qlt, Z.pow_succ_r, inject_Z_mult, <- p2_Z in Ha2 by exact Hla.
  rewrite Zle_Qle, <- p2_Z in Hb1 by exact Hlb.
  rewrite Zlt_Qlt, Z.pow_succ_r, inject_Z_mult, <- p2_Z in Hb2 by exact Hlb.
  assert (El : 2 ^ la == 2 ^ (la - lb) * 2 ^ lb).
  { rewrite <- p2_add. now replace (la - lb + lb)%Z with la by lia. }
  pose proof (p2_pos (la - lb)) as Hp. pose proof (p2_pos lb) as Hpb.
  pose proof (p2_succ (la - lb)) as Hs.
  assert (Hs' : 2 ^ (la - lb) == 2 * 2 ^ (la - lb - 1)).
  { rewrite <- p2_succ. now replace (la - lb - 1 + 1)%Z with (la - lb)%Z by lia. }
  set (p := 2 ^ (la - lb)) in *. set (q := 2 ^ lb) in *. set (x := a # b) in *.
  set (B := inject_Z (Zpos b)) in *.
  change (inject_Z 2) with 2 in *.
  destruct (Qle_bool p x) eqn:E.
  - apply Qle_bool_iff in E. split; [exact E|]. rewrite Hs. nra.
  - assert (E' : x < p).
    { apply Qnot_le_lt. intros H. apply Qle_bool_iff in H. congruence. }
    split; [rewrite Hs' in *; nra|].
    replace (la - lb - 1 + 1)%Z with (la - lb)%Z by lia. exact E'.
Qed.

(** *** Rounding *)

Lemma round_pos_eq (x : Q) :
  0 < x ->
  let e := Z.max (binade x - 52) (-1074) in
  let m := nearest_even (x * 2 ^ (- e)) in
  (0 <= m <= 2 ^ 53)%Z
  /\ (binade x - 52 <= e)%Z
  /\ round_pos x =
       if (971 <? e)%Z || ((e =? 971)%Z && (2 ^ 53 <=? m)%Z) then Inf false
       else Fin (Qred (inject_Z m * 2 ^ e)).
Proof.
  intros Hx e m. destruct (binade_spec x Hx) as [Hl Hu].
  pose proof (p2_pos (- e)) as Hpe.
  split; [|split; [lia | reflexivity]].
  split.
  - apply nearest_even_ge. change (inject_Z 0) with 0. nra.
  - apply nearest_even_le. rewrite <- p2_Z by lia.
    assert (Hle : 2 ^ (binade x + 1) * 2 ^ (- e) <= 2 ^ 53).
    { rewrite <- p2_add. apply p2_le. lia. }
    set (t := 2 ^ 53) in *. nra.
Qed.



Lemma double_Z (n : Z) : (Z.abs n < 2 ^ 53)%Z -> double (inject_Z n).
Proof.
  intros H. exists n, 0%Z. repeat split; try lia. change (2 ^ 0) with 1. ring.
Qed.



Lemma double_lt_max (q : Q) : double q -> q < 2 ^ 1024.
Proof.
  intros (m & e & He & Hm & ->).
  assert (H1 : inject_Z m < inject_Z (2 ^ 53)) by (rewrite <- Zlt_Qlt; lia).
  rewrite <- p2_Z in H1 by lia.
  assert (H2 : 2 ^ 53 * 2 ^ e <= 2 ^ 1024).
  { rewrite <- p2_add. apply p2_le. lia. }
  pose proof (p2_pos e). set (t := 2 ^ 53) in *. set (u := 2 ^ 1024) in *. nra.
Qed.

(** Rounding at or above one stays at or above one, within half a unit in
    the last place. *)
Lemma round_pos_ge_1 (x : Q) :
  1 <= x -> x < 2 ^ 1019 ->
  exists r, round_pos x = Fin r /\ 1 <= r
            /\ x - x * 2 ^ (-53) <= r <= x + x * 2 ^ (-53).
Proof.
  intros H1 Hub. assert (Hx : 0 < x) by lra.
  destruct (round_pos_eq x Hx) as ((Hm0 & Hm) & He & ->).
  destruct (binade_spec x Hx) as [Hl Hu].
  assert (Hl0 : (0 <= binade x)%Z).
  { assert (H : (0 < binade x + 1)%Z); [|lia].
    apply p2_lt_inv. change (2 ^ 0) with 1. lra. }
  assert (Hl1 : (binade x < 1019)%Z).
  { apply p2_lt_inv. set (t := 2 ^ 1019) in *. lra. }
  rewrite Z.max_l in * by lia.
  set (l := binade x) in *. set (e := (l - 52)%Z) in *.
  pose proof (nearest_even_near (x * 2 ^ (- e))) as [Hn1 Hn2].
  set (m := nearest_even (x * 2 ^ (- e))) in *.
  assert (E1 : (971 <? e)%Z = false) by (apply Z.ltb_ge; lia).
  assert (E2 : (e =? 971)%Z = false) by (apply Z.eqb_neq; lia).
  rewrite E1, E2. cbn [orb andb]. eexists; split; [reflexivity|].
  pose proof (Qred_correct (inject_Z m * 2 ^ e)) as Er.
  set (r := Qred _) in *.
  assert (Hm52 : (2 ^ 52 <= m)%Z).
  { apply nearest_even_ge. rewrite <- p2_Z by lia.
    replace 52%Z with (l + - e)%Z by lia. rewrite p2_add.
    pose proof (p2_pos (- e)). nra. }
  rewrite Zle_Qle, <- p2_Z in Hm52 by lia.
  assert (Hle : 1 <= 2 ^ 52 * 2 ^ e).
  { rewrite <- p2_add. change 1 with (2 ^ 0). apply p2_le. lia. }
  pose proof (p2_pos e) as Hpe. pose proof (p2_opp e) as Hopp.
  assert (Hhalf : (1 # 2) * 2 ^ e == 2 ^ l * 2 ^ (-53)).
  { change (1 # 2) with (2 ^ (-1)). rewrite <- !p2_add. unfold e.
    now replace (-1 + (l - 52))%Z with (l + -53)%Z by lia. }
  assert (Hu0 : 0 < 2 ^ (-53)) by apply p2_pos.
  set (t := 2 ^ 52) in *. set (s := 2 ^ e) in *. set (s' := 2 ^ (- e)) in *.
  set (u := 2 ^ (-53)) in *. set (p := 2 ^ l) in *. set (M := inject_Z m) in *.
  assert (Hx' : x * s' * s == x) by (rewrite <- Qmult_assoc, (Qmult_comm s' s), Hopp; ring).
  assert (Hb1 : (M - (1 # 2)) * s <= x * s' * s) by (apply Qmult_le_compat_r; lra).
  assert (Hb2 : x * s' * s <= (M + (1 # 2)) * s) by (apply Qmult_le_compat_r; lra).
  assert (Hpu : p * u <= x * u) by (apply Qmult_le_compat_r; lra).
  rewrite Er. split; [nra|]. split; lra.
Qed.

Lemma round_pos_lt_1 (x : Q) :
  0 < x -> x < 1 - 2 ^ (-54) -> exists r, round_pos x = Fin r /\ 0 <= r < 1.
Proof.
  intros Hx Hub.
  destruct (round_pos_eq x Hx) as ((Hm0 & Hm) & He & ->).
  destruct (binade_spec x Hx) as [Hl Hu].
  pose proof (p2_pos (-54)) as H54.
  assert (Hl0 : (binade x < 0)%Z).
  { apply p2_lt_inv. change (2 ^ 0) with 1. lra. }
  set (l := binade x) in *. set (e := Z.max (l - 52) (-1074)) in *.
  set (m := nearest_even (x * 2 ^ (- e))) in *.
  assert (E1 : (971 <? e)%Z = false) by (apply Z.ltb_ge; lia).
  assert (E2 : (e =? 971)%Z = false) by (apply Z.eqb_neq; lia).
  rewrite E1, E2. cbn [orb andb]. eexists; split; [reflexivity|].
  pose proof (Qred_correct (inject_Z m * 2 ^ e)) as Er.
  set (r := Qred _) in *. rewrite Er. pose proof (p2_pos e) as Hpe.
  assert (Hm0' : 0 <= inject_Z m) by (change 0 with (inject_Z 0); rewrite <- Zle_Qle; lia).
  split; [nra|].
  destruct (Z.eq_dec l (-1)%Z) as [El | El].
  - assert (Ee : e = (-53)%Z) by lia. 
    assert (Hlt : (m < 2 ^ 53)%Z).
    { apply nearest_even_lt. rewrite <- p2_Z by lia. rewrite Ee.
      change (- -53)%Z with 53%Z.
      assert (Hh : 2 ^ (-54) * 2 ^ 53 == 1 # 2) by reflexivity.
      set (t := 2 ^ 53) in *. set (u := 2 ^ (-54)) in *.
      assert (0 < t) by apply p2_pos. nra. }
    rewrite Zlt_Qlt, <- p2_Z in Hlt by lia.
    assert (Hone : 2 ^ 53 * 2 ^ e == 1) by (rewrite Ee; reflexivity).
    set (t := 2 ^ 53) in *. nra.
  - assert (Hle : 2 ^ 53 * 2 ^ e <= 2 ^ (-1)).
    { rewrite <- p2_add. apply p2_le. lia. }
    rewrite Zle_Qle, <- p2_Z in Hm by lia.
    change (2 ^ (-1)) with (1 # 2) in Hle.
    set (t := 2 ^ 53) in *. nra.
Qed.

(** Where the next whole number is farther from [x] than half a unit in
    the last place, rounding keeps the whole part. *)
Lemma round_pos_floor (x : Q) (k : Z) :
  (1 <= k)%Z -> inject_Z k <= x -> x < 2 ^ 48 ->
  x * 2 ^ (-53) < inject_Z (k + 1) - x ->
  exists r, round_pos x = Fin r /\ inject_Z k <= r < inject_Z (k + 1).
Proof.
  intros Hk Hkx Hub Hgap.
  assert (Hk1 : 1 <= inject_Z k) by (change 1 with (inject_Z 1); rewrite <- Zle_Qle; lia).
  assert (Hx : 0 < x) by lra.
  destruct (round_pos_eq x Hx) as ((Hm0 & Hm) & He & ->).
  destruct (binade_spec x Hx) as [Hl Hu].
  assert (Hl0 : (0 <= binade x)%Z).
  { assert (H : (0 < binade x + 1)%Z); [|lia].
    apply p2_lt_inv. change (2 ^ 0) with 1. lra. }
  assert (Hl1 : (binade x < 48)%Z).
  { apply p2_lt_inv. set (t := 2 ^ 48) in *. lra. }
  rewrite Z.max_l in * by lia.
  set (l := binade x) in *. set (e := (l - 52)%Z) in *.
  set (m := nearest_even (x * 2 ^ (- e))) in *.
  assert (E1 : (971 <? e)%Z = false) by (apply Z.ltb_ge; lia).
  assert (E2 : (e =? 971)%Z = false) by (apply Z.eqb_neq; lia).
  rewrite E1, E2. cbn [orb andb]. eexists; split; [reflexivity|].
  pose proof (Qred_correct (inject_Z m * 2 ^ e)) as Er.
  set (r := Qred _) in *. rewrite Er.
  pose proof (p2_pos e) as Hpe. pose proof (p2_pos (- e)) as Hpe'.
  pose proof (p2_opp e) as Hopp.
  assert (Hpz : 2 ^ (- e) == inject_Z (2 ^ (- e))) by (apply p2_Z; lia).
  assert (H1 : (k * 2 ^ (- e) <= m)%Z).
  { apply nearest_even_ge. rewrite inject_Z_mult, <- Hpz. nra. }
  assert (H2 : (m < (k + 1) * 2 ^ (- e))%Z).
  { apply nearest_even_lt. rewrite inject_Z_mult, <- Hpz.
    assert (Hh : 2 ^ l * 2 ^ (-53) * 2 ^ (- e) == 1 # 2).
    { rewrite <- !p2_add. replace (l + -53 + - e)%Z with (-1)%Z by lia. reflexivity. }
    set (u := 2 ^ (-53)) in *. assert (0 < u) by apply p2_pos.
    set (K := inject_Z (k + 1)) in *. set (p := 2 ^ l) in *. set (t := 2 ^ (- e)) in *.
    assert (Hstep : p * u * t <= x * u * t).
    { apply Qmult_le_compat_r; [|lra]. apply Qmult_le_compat_r; lra. }
    assert (Hstep2 : x * u * t < (K - x) * t).
    { apply Qmult_lt_compat_r; lra. }
    lra. }
  rewrite Zle_Qle, inject_Z_mult, <- Hpz in H1.
  rewrite Zlt_Qlt, inject_Z_mult, <- Hpz in H2.
  set (K := inject_Z (k + 1)) in *. set (t := 2 ^ (- e)) in *. set (s := 2 ^ e) in *.
  set (M := inject_Z m) in *. set (k' := inject_Z k) in *.
  split.
  - assert (k' * t * s <= M * s) by (apply Qmult_le_compat_r; lra).
    assert (k' * t * s == k') by (rewrite <- Qmult_assoc, (Qmult_comm t s), Hopp; ring).
    lra.
  - assert (M * s < K * t * s) by (apply Qmult_lt_compat_r; lra).
    assert (K * t * s == K) by (rewrite <- Qmult_assoc, (Qmult_comm t s), Hopp; ring).
    lra.
Qed.

Lemma round64_pos (x : Q) : 0 < x -> round64 x = round_pos x.
Proof.
  destruct x as [[|a|a] b]; intros H; try reflexivity; discriminate H.
Qed.

Lemma Qfloor_unique (r : Q) (k : Z) :
  inject_Z k <= r -> r < inject_Z (k + 1) -> Qfloor r = k.
Proof.
  intros H1 H2. apply Qfloor_resp_le in H1. rewrite Qfloor_Z in H1.
  assert (H3 : inject_Z (Qfloor r) < inject_Z (k + 1)).
  { eapply Qle_lt_trans; [apply Qfloor_le | exact H2]. }
  rewrite <- Zlt_Qlt in H3. lia.
Qed.

Lemma Qfloor_div60 (q : Q) : Qfloor (q / 60) = (Qfloor q / 60)%Z.
Proof.
  destruct q as [a b]. unfold Qfloor, Qdiv, Qmult, Qinv. cbn [Qnum Qden].
  rewrite Z.mul_1_r, Pos2Z.inj_mul, Z.div_div by lia. reflexivity.
Qed.

(** A whole number above a value of binary64 is farther from it than half
    of its last place. *)
Lemma double_gap (q : Q) (c : Z) :
  double q -> 0 < q -> q < 2 ^ 53 -> q < inject_Z c ->
  q * 2 ^ (-53) < inject_Z c - q.
Proof.
  intros (m & e & He & Hm & Hq) H0 H53 Hc.
  pose proof (p2_pos e) as Hpe. pose proof (p2_pos (- e)) as Hpe'.
  pose proof (p2_opp e) as Hopp.
  assert (Hu : 2 ^ 53 * 2 ^ (-53) == 1) by reflexivity.
  assert (Hu0 : 0 < 2 ^ (-53)) by apply p2_pos.
  assert (Hm' : inject_Z m < 2 ^ 53).
  { rewrite p2_Z by lia. rewrite <- Zlt_Qlt. lia. }
  set (t := 2 ^ 53) in *. set (u := 2 ^ (-53)) in *.
  destruct (Z_le_gt_dec e 0%Z) as [Hneg | Hpos].
  - assert (Hpz : 2 ^ (- e) == inject_Z (2 ^ (- e))) by (apply p2_Z; lia).
    assert (HN : (1 <= c * 2 ^ (- e) - m)%Z).
    { assert (H : (0 < c * 2 ^ (- e) - m)%Z); [|lia].
      rewrite Zlt_Qlt. unfold Zminus. rewrite inject_Z_plus, inject_Z_opp, inject_Z_mult, <- Hpz.
      change (inject_Z 0) with 0.
      assert (Hqm : q * 2 ^ (- e) == inject_Z m).
      { rewrite Hq, <- Qmult_assoc, Hopp. ring. }
      assert (q * 2 ^ (- e) < inject_Z c * 2 ^ (- e)) by (apply Qmult_lt_compat_r; lra).
      lra. }
    rewrite Zle_Qle in HN. unfold Zminus in HN.
    rewrite inject_Z_plus, inject_Z_opp, inject_Z_mult, <- Hpz in HN.
    change (inject_Z 1) with 1 in HN.
    set (M := inject_Z m) in *. set (C := inject_Z c) in *.
    set (s := 2 ^ e) in *. set (s' := 2 ^ (- e)) in *.
    (* C - q >= s and q * u < s *)
    assert (H1 : s <= C - q).
    { assert (H : 1 * s <= (C * s' + - M) * s) by (apply Qmult_le_compat_r; lra).
      assert (H' : (C * s' + - M) * s == C * (s * s') - M * s) by ring.
      rewrite H', Hopp in H. rewrite Hq. lra. }
    assert (H2 : q * u < s).
    { rewrite Hq. assert (H : M * s < t * s) by (apply Qmult_lt_compat_r; lra).
      assert (H' : M * s * u < t * s * u) by (apply Qmult_lt_compat_r; lra).
      assert (H'' : t * s * u == s * (t * u)) by ring.
      rewrite H'', Hu in H'. lra. }
    lra.
  - assert (Hpz : 2 ^ e == inject_Z (2 ^ e)) by (apply p2_Z; lia).
    assert (Hqz : q == inject_Z (m * 2 ^ e)) by (rewrite inject_Z_mult, <- Hpz; exact Hq).
    assert (HN : (1 <= c - m * 2 ^ e)%Z).
    { assert (H : (m * 2 ^ e < c)%Z); [|lia]. rewrite Zlt_Qlt, <- Hqz. exact Hc. }
    rewrite Zle_Qle in HN. unfold Zminus in HN.
    rewrite inject_Z_plus, inject_Z_opp, <- Hqz in HN. change (inject_Z 1) with 1 in HN.
    assert (H2 : q * u < 1).
    { assert (H' : q * u < t * u) by (apply Qmult_lt_compat_r; lra). lra. }
    lra.
Qed.

(** Below 60 the quotient is below one. *)
Lemma div60_small (q : Q) :
  double q -> 0 < q -> q < 60 -> exists r, div60 (Fin q) = Fin r /\ 0 <= r < 1.
Proof.
  intros Hd H0 H60. unfold div60, quotient. change (inject_Z 60) with 60.
  assert (Hx : 0 < q / 60) by (apply Qlt_shift_div_l; lra).
  rewrite round64_pos by exact Hx. apply round_pos_lt_1; [exact Hx|].
  assert (H53 : q < 2 ^ 53).
  { eapply Qlt_trans; [exact H60|]. reflexivity. }
  pose proof (double_gap q 60 Hd H0 H53 H60) as Hgap.
  change (inject_Z 60) with 60 in Hgap.
  assert (Hu : 2 ^ (-53) == 2 * 2 ^ (-54)) by reflexivity.
  assert (Hu0 : 0 < 2 ^ (-54)) by apply p2_pos.
  assert (Hu1 : 2 ^ (-54) < 1 # 2) by reflexivity.
  set (u := 2 ^ (-53)) in *. set (v := 2 ^ (-54)) in *.
  apply Qlt_shift_div_r; [reflexivity|].
  destruct (Qlt_le_dec q ((1 - v) * 60)) as [Hlt | Hge]; [exact Hlt | exfalso].
  assert (H1 : 0 <= (q - (1 - v) * 60) * (1 + 2 * v)) by (apply Qmult_le_0_compat; lra).
  assert (H2 : 0 <= v * (1 - 2 * v)) by (apply Qmult_le_0_compat; lra).
  rewrite Hu in Hgap. lra.
Qed.

(** From 60 on the quotient is at least one, and within half a unit in
    the last place of the exact one. *)
Lemma div60_large (q : Q) :
  double q -> 60 <= q ->
  exists r, div60 (Fin q) = Fin r /\ 1 <= r
            /\ q / 60 - q / 60 * 2 ^ (-53) <= r <= q / 60 + q / 60 * 2 ^ (-53).
Proof.
  intros Hd H60. unfold div60, quotient. change (inject_Z 60) with 60.
  assert (Hx : 1 <= q / 60) by (apply Qle_shift_div_l; lra).
  rewrite round64_pos by lra. apply round_pos_ge_1; [exact Hx|].
  pose proof (double_lt_max q Hd) as Hmax.
  assert (Hp : 2 ^ 1024 == 32 * 2 ^ 1019).
  { change 32 with (2 ^ 5). rewrite <- p2_add. reflexivity. }
  assert (0 < 2 ^ 1019) by apply p2_pos.
  set (t := 2 ^ 1019) in *. set (u := 2 ^ 1024) in *.
  apply Qlt_shift_div_r; [reflexivity|]. lra.
Qed.

(** Below [2^53] the rounded quotient has the whole part of the exact
    one. *)
Lemma div60_floor (q : Q) :
  double q -> 60 <= q -> q < 2 ^ 53 ->
  exists r, div60 (Fin q) = Fin r /\ Qfloor r = (Qfloor q / 60)%Z.
Proof.
  intros Hd H60 H53. unfold div60, quotient. change (inject_Z 60) with 60.
  assert (Hx : 1 <= q / 60) by (apply Qle_shift_div_l; lra).
  rewrite round64_pos by lra.
  set (k := Qfloor (q / 60)).
  pose proof (Qfloor_le (q / 60)) as Hk1. pose proof (Qlt_floor (q / 60)) as Hk2.
  fold k in Hk1, Hk2.
  assert (Hk : (1 <= k)%Z).
  { apply Qfloor_resp_le in Hx. exact Hx. }
  assert (Hq60 : q == 60 * (q / 60)) by (field).
  assert (Hc : q < inject_Z (60 * (k + 1))).
  { rewrite inject_Z_mult. change (inject_Z 60) with 60. lra. }
  pose proof (double_gap q _ Hd ltac:(lra) H53 Hc) as Hgap.
  rewrite inject_Z_mult in Hgap. change (inject_Z 60) with 60 in Hgap.
  assert (Hu0 : 0 < 2 ^ (-53)) by apply p2_pos.
  assert (H48 : 2 ^ 53 == 32 * 2 ^ 48).
  { change 32 with (2 ^ 5). rewrite <- p2_add. reflexivity. }
  assert (0 < 2 ^ 48) by apply p2_pos.
  destruct (round_pos_floor (q / 60) k Hk Hk1) as (r & Hr & Hr1 & Hr2).
  - set (t := 2 ^ 48) in *. set (u := 2 ^ 53) in *.
    apply Qlt_shift_div_r; [reflexivity|]. lra.
  - set (u := 2 ^ (-53)) in *. set (x := q / 60) in *. set (K := inject_Z (k + 1)) in *.
    assert (Hg : 60 * x * u < 60 * K - 60 * x).
    { rewrite <- Hq60. exact Hgap. }
    nra.
  - exists r. split; [exact Hr|].
    rewrite <- Qfloor_div60. fold k. now apply Qfloor_unique.
Qed.



(** The whole seconds of the remainder. *)
Lemma floor_rem60 (q : Q) :
  0 <= q -> floor (rem60 (Fin q)) = IFin (Qfloor q mod 60).
Proof.
  intros Hq. unfold floor, rem60. f_equal.
  rewrite (Qfloor_comp _ _ (Qred_correct _)).
  assert (Ht : Z.quot (Qnum q) (60 * Zpos (Qden q)) = (Qfloor q / 60)%Z).
  { destruct q as [a b]. cbn [Qnum Qden]. unfold Qfloor.
    assert (Ha : (0 <= a)%Z) by (unfold Qle in Hq; simpl in Hq; lia).
    rewrite Z.quot_div_nonneg by lia.
    rewrite (Z.mul_comm 60), Z.div_div by lia. reflexivity. }
  rewrite Ht. set (f := Qfloor q). set (t := (f / 60)%Z).
  pose proof (Qfloor_le q) as Hl. pose proof (Qlt_floor q) as Hu. fold f in Hl, Hu.
  assert (Em : (f mod 60 = f - 60 * t)%Z) by (unfold t; rewrite Z.mod_eq by lia; ring).
  rewrite Em. apply Qfloor_unique.
  - unfold Zminus. rewrite inject_Z_plus, inject_Z_opp, inject_Z_mult.
    change (inject_Z 60) with 60. lra.
  - replace (f - 60 * t + 1)%Z with ((f + 1) - 60 * t)%Z by lia.
    unfold Zminus. rewrite inject_Z_plus, inject_Z_opp, inject_Z_mult.
    change (inject_Z 60) with 60. lra.
Qed.

(** Below [2^53] a whole number prints as its digits. *)
Lemma integer_to_string_small (z : Z) :
  (0 <= z < 2 ^ 53)%Z -> integer_to_string (IFin z) = Z_to_string z.
Proof.
  intros [H0 H1]. unfold integer_to_string, whole_text.
  destruct (Z.ltb_spec z 0); [lia|]. destruct (Z.ltb_spec z (2 ^ 53)); [reflexivity | lia].
Qed.

End JsNumberFacts.

(** ** The classifier *)

Module ProcessorFacts.
Import JsString Regex Json JsNumber Patterns Utils Processor Spec JsStringFacts.

Section Pipeline.

Variables parseSkypeEmoji sanitize lowerCase : string -> string.

Local Abbreviation parseMessageContent := (Processor.parseMessageContent parseSkypeEmoji sanitize).
Local Abbreviation handleTranslation := (Processor.handleTranslation parseSkypeEmoji sanitize).
Local Abbreviation handleMediaMessage := (Processor.handleMediaMessage parseSkypeEmoji sanitize lowerCase).
Local Abbreviation processMessage := (Processor.processMessage parseSkypeEmoji sanitize lowerCase).
Local Abbreviation process_loop := (Processor.process_loop parseSkypeEmoji sanitize lowerCase).
Local Abbreviation processMessages_state := (Processor.processMessages_state parseSkypeEmoji sanitize lowerCase).
Local Abbreviation processMessages := (Processor.processMessages parseSkypeEmoji sanitize lowerCase).

(** Every branch of the classifier other than the two system branches
    yields another kind. *)
Lemma createBaseMessage_type message context content ty :
  ProcessedMessage.type (createBaseMessage message context content ty) = ty.
Proof. reflexivity. Qed.

Lemma handleTranslation_text message next context skipIds p skipIds' :
  handleTranslation message next context skipIds = (Some p, skipIds') ->
  ProcessedMessage.type p = text.
Proof.
  unfold Processor.handleTranslation.
  destruct (if String.eqb _ _ then richText next else None);
    intros [= <- _]; reflexivity.
Qed.

Lemma handleMediaMessage_not_system message context :
  ProcessedMessage.type (handleMediaMessage message context) <> system.
Proof.
  unfold Processor.handleMediaMessage.
  destruct (extractMediaId _), (mediaFiles context); discriminate.
Qed.

Lemma handleSystemMessage_anonymous message context content ty :
  ProcessedMessage.displayName (handleSystemMessage message context content ty) = None
  /\ ProcessedMessage.isOwner (handleSystemMessage message context content ty) = false.
Proof. split; reflexivity. Qed.

(** C6: a message of kind [system] that the classifier emits, on the
    [ThreadActivity] branch or on the [InviteFreeRelationshipChanged] branch,
    has no display name and is not the owner's, whatever the sender, the
    viewer and the perspective. *)
Theorem system_messages_are_anonymous message next context skipIds p skipIds' :
  processMessage message next context skipIds = (Some p, skipIds') ->
  ProcessedMessage.type p = system ->
  ProcessedMessage.displayName p = None /\ ProcessedMessage.isOwner p = false.
Proof.
  unfold Processor.processMessage.
  repeat
    match goal with
    | |- context [decide ?P] => destruct (decide P)
    | |- context [if ?b then _ else _] => destruct b eqn:?
    | |- context [match truthy ?o with _ => _ end] => destruct (truthy o)
    end;
    intros E T;
    try discriminate E;
    try (apply handleTranslation_text in E; congruence);
    injection E as <- _;
    try discriminate T;
    try (exfalso; eapply handleMediaMessage_not_system; exact T);
    apply handleSystemMessage_anonymous.
Qed.

(** *** Length and order of the output *)

Lemma process_loop_length context n messages skipIds :
  length (fst (process_loop context n messages skipIds)) <= length messages.
Proof.
  revert n skipIds.
  induction messages as [|message rest IH]; intros [|n] skipIds; simpl; try lia.
  destruct (decide _).
  - specialize (IH n skipIds). lia.
  - destruct (processMessage _ _ _ _) as [processed skipIds1].
    specialize (IH n skipIds1).
    destruct (process_loop context n rest skipIds1) as [out skipIds2].
    destruct processed; simpl in *; lia.
Qed.

Lemma lookup_middle (pre : list Message.t) message rest :
  (pre ++ message :: rest) !! length pre = Some message
  /\ (pre ++ message :: rest) !! S (length pre) = head rest.
Proof.
  split.
  - rewrite lookup_app_r by lia. now rewrite Nat.sub_diag.
  - rewrite lookup_app_r by lia.
    replace (S (length pre) - length pre) with 1 by lia.
    now destruct rest.
Qed.

Lemma process_loop_sources context messages :
  forall n skipIds pre,
    exists sources : list nat,
      Forall2 (emitted_from parseSkypeEmoji sanitize lowerCase context (pre ++ messages)) sources
              (fst (process_loop context n messages skipIds))
      /\ StronglySorted lt sources
      /\ Forall (fun i => length pre <= i) sources.
Proof.
  induction messages as [|message rest IH]; intros n skipIds pre.
  - exists []. destruct n; simpl; repeat constructor.
  - destruct n as [|n]; [exists []; simpl; repeat constructor|].
    simpl.
    assert (Hshift : pre ++ message :: rest = (pre ++ [message]) ++ rest)
      by now rewrite <- app_assoc.
    destruct (decide (Message.id message ∈ skipIds)) as [Hin|Hout].
    + destruct (IH n skipIds (pre ++ [message])) as (sources & H2 & Hs & Hb).
      exists sources. rewrite Hshift. repeat split; trivial.
      eapply Forall_impl; [exact Hb|]. simpl. intros i. rewrite length_app. simpl. lia.
    + destruct (processMessage message (head rest) context skipIds)
        as [processed skipIds1] eqn:E.
      destruct (IH n skipIds1 (pre ++ [message])) as (sources & H2 & Hs & Hb).
      destruct (process_loop context n rest skipIds1) as [out skipIds2].
      assert (Hb' : Forall (fun i => length pre < i) sources).
      { eapply Forall_impl; [exact Hb|]. simpl. intros i.
        rewrite length_app. simpl. lia. }
      destruct processed as [p|]; simpl in *.
      * exists (length pre :: sources). repeat split.
        -- constructor; [|now rewrite Hshift].
           exists message, skipIds, skipIds1.
           destruct (lookup_middle pre message rest) as [-> ->]. now split.
        -- constructor; trivial.
        -- constructor; [lia|].
           eapply Forall_impl; [exact Hb'|]. simpl. intros; lia.
      * exists sources. rewrite Hshift. repeat split; trivial.
        eapply Forall_impl; [exact Hb'|]. simpl. intros; lia.
Qed.

(** C4: the pass emits at most one message per record: the output is no
    longer than the input, and the emitted messages come from records at
    strictly increasing positions, each being what the classifier returns on
    that record and the one after it. *)
Theorem output_follows_input messages userId swapRoles mediaFiles maxMessages :
  let context :=
    {| userId := userId; swapRoles := swapRoles; mediaFiles := mediaFiles |} in
  let output := processMessages messages userId swapRoles mediaFiles maxMessages in
  length output <= length messages
  /\ exists sources : list nat,
       length sources = length output
       /\ StronglySorted lt sources
       /\ Forall2 (emitted_from parseSkypeEmoji sanitize lowerCase context messages) sources output.
Proof.
  intros context output. subst output.
  unfold Processor.processMessages, Processor.processMessages_state.
  fold context. split.
  - apply process_loop_length.
  - destruct (process_loop_sources context messages
                (endIndex maxMessages (length messages)) ∅ [])
      as (sources & H2 & Hs & _).
    exists sources. repeat split; trivial.
    eapply Forall2_length; exact H2.
Qed.

(** *** Translation pairs *)

(** What one call of the classifier can do: it leaves the skip set as it
    is or adds the id of a next record of type [RichText], and the message it
    returns carries the id of the record or of such a next record. *)
Lemma handleTranslation_effect message next context skipIds r skipIds1 :
  handleTranslation message next context skipIds = (r, skipIds1) ->
  (skipIds1 = skipIds
   \/ exists R, richText next = Some R /\ skipIds1 = {[ Message.id R ]} ∪ skipIds)
  /\ forall p, r = Some p ->
       ProcessedMessage.id p = Message.id message
       \/ exists R, richText next = Some R /\ ProcessedMessage.id p = Message.id R.
Proof.
  unfold Processor.handleTranslation.
  destruct (String.eqb _ _).
  - destruct (richText next) as [R|] eqn:E.
    + intros [= <- <-]. split; [right; now exists R|].
      intros p [= <-]. right. now exists R.
    + unfold skip_next. rewrite E. intros [= <- <-]. split; [now left|].
      intros p [= <-]. now left.
  - unfold skip_next. intros [= <- <-]. split.
    + destruct (richText next) as [R|]; [right; now exists R | now left].
    + intros p [= <-]. now left.
Qed.

Lemma handleMediaMessage_id message context :
  ProcessedMessage.id (handleMediaMessage message context) = Message.id message.
Proof.
  unfold Processor.handleMediaMessage.
  now destruct (extractMediaId _), (mediaFiles context).
Qed.

Lemma processMessage_effect message next context skipIds r skipIds1 :
  processMessage message next context skipIds = (r, skipIds1) ->
  (skipIds1 = skipIds
   \/ exists R, richText next = Some R /\ skipIds1 = {[ Message.id R ]} ∪ skipIds)
  /\ forall p, r = Some p ->
       ProcessedMessage.id p = Message.id message
       \/ exists R, richText next = Some R /\ ProcessedMessage.id p = Message.id R.
Proof.
  unfold Processor.processMessage.
  repeat
    match goal with
    | |- context [decide ?P] => destruct (decide P)
    | |- context [if ?b then _ else _] => destruct b eqn:?
    | |- context [match truthy ?o with _ => _ end] => destruct (truthy o)
    end;
    try apply handleTranslation_effect;
    intros [= <- <-]; (split; [now left|]); intros p [= <-]; left;
    try reflexivity; apply handleMediaMessage_id.
Qed.

Lemma processMessage_alone message next context skipIds r skipIds1 :
  richText next = None ->
  processMessage message next context skipIds = (r, skipIds1) ->
  skipIds1 = skipIds
  /\ forall p, r = Some p -> ProcessedMessage.id p = Message.id message.
Proof.
  intros Hnext H. apply processMessage_effect in H. destruct H as [Hs Hp].
  split.
  - destruct Hs as [Hs | (R & HR & _)]; [exact Hs | congruence].
  - intros p Hr. destruct (Hp p Hr) as [H | (R & HR & _)]; [exact H | congruence].
Qed.

Lemma richText_head (messages : list Message.t) (R : Message.t) :
  richText (head messages) = Some R -> exists rest, messages = R :: rest.
Proof.
  destruct messages as [|m rest]; [discriminate|]. simpl.
  destruct (String.eqb _ _); [|discriminate]. intros [= ->]. now exists rest.
Qed.

(** The loop, cut after the first records: the iterations over [pre], which
    still look ahead into [rest], then the iterations over [rest]. *)
Lemma process_loop_app context (pre rest : list Message.t) :
  forall n skipIds,
    process_loop context n (pre ++ rest) skipIds
    = let (out1, skipIds1) :=
        process_loop context (Nat.min n (length pre)) (pre ++ rest) skipIds in
      let (out2, skipIds2) := process_loop context (n - length pre) rest skipIds1 in
      (out1 ++ out2, skipIds2).
Proof.
  induction pre as [|message pre IH]; intros n skipIds.
  - simpl. rewrite Nat.min_0_r, Nat.sub_0_r. simpl.
    now destruct (process_loop context n rest skipIds).
  - destruct n as [|n]; [reflexivity|].
    cbn [app length Nat.min Nat.sub Processor.process_loop].
    destruct (decide (Message.id message ∈ skipIds)); [apply IH|].
    destruct (processMessage message (head (pre ++ rest)) context skipIds)
      as [processed skipIds0].
    rewrite IH.
    destruct (process_loop context (Nat.min n (length pre)) (pre ++ rest) skipIds0)
      as [out1 skipIds1].
    destruct (process_loop context (n - length pre) rest skipIds1) as [out2 skipIds2].
    now destruct processed.
Qed.

(** The iterations over [pre] emit ids of [pre] and skip ids of [pre] only,
    when the record after [pre] is no [RichText]. *)
Lemma process_loop_prefix context (pre rest : list Message.t) :
  richText (head rest) = None ->
  forall n skipIds,
    n <= length pre ->
    Forall (fun p => ProcessedMessage.id p ∈ map Message.id pre)
           (fst (process_loop context n (pre ++ rest) skipIds))
    /\ snd (process_loop context n (pre ++ rest) skipIds)
       ⊆ skipIds ∪ list_to_set (map Message.id pre).
Proof.
  intros Hrest. induction pre as [|message pre IH]; intros n skipIds Hn.
  - simpl in Hn. replace n with 0 by lia. simpl. split; [constructor | set_solver].
  - destruct n as [|n]; [simpl; split; [constructor | set_solver]|].
    simpl in Hn. cbn [app Processor.process_loop].
    destruct (decide (Message.id message ∈ skipIds)).
    + destruct (IH n skipIds ltac:(lia)) as [Hout Hskip]. split.
      * eapply Forall_impl; [exact Hout|]. simpl. intros p Hp. set_solver.
      * simpl. set_solver.
    + destruct (processMessage message (head (pre ++ rest)) context skipIds)
        as [processed skipIds0] eqn:E.
      apply processMessage_effect in E. destruct E as [Hs Hp].
      destruct (IH n skipIds0 ltac:(lia)) as [Hout Hskip].
      destruct (process_loop context n (pre ++ rest) skipIds0) as [out1 skipIds1].
      assert (Hnext : forall R, richText (head (pre ++ rest)) = Some R ->
                Message.id R ∈ map Message.id pre).
      { intros R HR. destruct pre as [|m pre']; [simpl in HR; congruence|].
        apply richText_head in HR. destruct HR as [rest' HR].
        simpl in HR. injection HR as -> _. simpl. set_solver. }
      simpl in *. split.
      * assert (Hout' : Forall (fun p => ProcessedMessage.id p
                           ∈ Message.id message :: map Message.id pre) out1).
        { eapply Forall_impl; [exact Hout|]. simpl. intros p Hin. set_solver. }
        destruct processed as [p|]; [|exact Hout'].
        constructor; [|exact Hout'].
        destruct (Hp p eq_refl) as [-> | (R & HR & ->)]; [set_solver|].
        specialize (Hnext R HR). set_solver.
      * destruct Hs as [-> | (R & HR & ->)]; [set_solver|].
        specialize (Hnext R HR). set_solver.
Qed.

(** The loop emits ids of the records it runs over and only adds to the
    skip set. *)
Lemma process_loop_ids context (messages : list Message.t) :
  forall n skipIds,
    Forall (fun p => ProcessedMessage.id p ∈ map Message.id messages)
           (fst (process_loop context n messages skipIds))
    /\ skipIds ⊆ snd (process_loop context n messages skipIds).
Proof.
  induction messages as [|message rest IH]; intros n skipIds.
  - destruct n; simpl; split; (constructor || set_solver).
  - destruct n as [|n]; [simpl; split; [constructor | set_solver]|].
    cbn [Processor.process_loop].
    destruct (decide (Message.id message ∈ skipIds)).
    + destruct (IH n skipIds) as [Hout Hskip]. split; [|exact Hskip].
      eapply Forall_impl; [exact Hout|]. simpl. intros p Hp. set_solver.
    + destruct (processMessage message (head rest) context skipIds)
        as [processed skipIds0] eqn:E.
      apply processMessage_effect in E. destruct E as [Hs Hp].
      destruct (IH n skipIds0) as [Hout Hskip].
      destruct (process_loop context n rest skipIds0) as [out skipIds1].
      simpl in *. split.
      * assert (Hout' : Forall (fun p => ProcessedMessage.id p
                           ∈ Message.id message :: map Message.id rest) out).
        { eapply Forall_impl; [exact Hout|]. simpl. intros p Hin. set_solver. }
        destruct processed as [p|]; [|exact Hout'].
        constructor; [|exact Hout'].
        destruct (Hp p eq_refl) as [-> | (R & HR & ->)]; [set_solver|].
        apply richText_head in HR. destruct HR as [rest' ->]. simpl. set_solver.
      * destruct Hs as [-> | (R & HR & ->)]; set_solver.
Qed.

(** The content parser of the source is the content path. *)
Lemma parseMessageContent_content_path (content : string) :
  parseMessageContent content = content_path parseSkypeEmoji sanitize content.
Proof.
  unfold Processor.parseMessageContent, content_path.
  destruct (is_empty content); reflexivity.
Qed.

Lemma processMessage_pair T R context skipIds :
  Message.id T ∉ skipIds ->
  Message.messagetype T = "Translation" ->
  Message.from T = userId context ->
  Message.messagetype R = "RichText" ->
  processMessage T (Some R) context skipIds
  = (Some (original_of_pair parseSkypeEmoji sanitize T R (swapRoles context)),
     {[ Message.id R ]} ∪ skipIds).
Proof.
  intros Hout HT Hfrom HR. unfold Processor.processMessage.
  destruct (decide _); [contradiction|]. rewrite HT.
  change (String.eqb "Translation" "RichText/Media_Album") with false.
  change (String.eqb "Translation" "Translation") with true. cbv iota.
  unfold Processor.handleTranslation, richText.
  rewrite Hfrom, String.eqb_refl, HR. rewrite String.eqb_refl.
  rewrite parseMessageContent_content_path.
  unfold original_of_pair, createBaseMessage. simpl.
  rewrite Hfrom, String.eqb_refl, HR. now destruct (swapRoles context).
Qed.

(** C2: in a pass over records with pairwise distinct ids, a [Translation]
    record sent by the viewer and directly followed by a [RichText] record,
    both within the processed range, gives exactly one message: it has the
    id, the time and the (cleaned) display name of the [RichText] record, the
    sender of the [Translation] record and, as content, the content of the
    [RichText] record taken through the content path (the emoji parser, the
    eight rewrites in order, the allow-list filter); the id of the
    [RichText] record ends up in the skip set, and no other message of the
    output carries the id of either record. *)
Theorem translation_pair_shows_original
    (pre post : list Message.t) (T R : Message.t)
    (userId : string) (swapRoles mediaFiles : bool) (maxMessages : option Z) :
  let messages := pre ++ T :: R :: post in
  NoDup (map Message.id messages) ->
  Message.messagetype T = "Translation" ->
  Message.from T = userId ->
  Message.messagetype R = "RichText" ->
  length pre < endIndex maxMessages (length messages) ->
  exists out1 out2 skipIds,
    processMessages_state messages userId swapRoles mediaFiles maxMessages
    = (out1 ++ original_of_pair parseSkypeEmoji sanitize T R swapRoles :: out2, skipIds)
    /\ Message.id R ∈ skipIds
    /\ Forall (fun p => ProcessedMessage.id p ∈ map Message.id pre) out1
    /\ Forall (fun p => ProcessedMessage.id p ∈ map Message.id post) out2
    /\ Forall (fun p => ProcessedMessage.id p <> Message.id T
                        /\ ProcessedMessage.id p <> Message.id R) (out1 ++ out2).
Proof.
  intros messages Hdup HT Hfrom HR Hn. subst messages.
  unfold Processor.processMessages_state.
  set (context := {| userId := userId; swapRoles := swapRoles;
                     mediaFiles := mediaFiles |}).
  set (n := endIndex maxMessages _) in *.
  (* the ids of the two records occur nowhere else *)
  rewrite map_app in Hdup. cbn [map] in Hdup.
  apply NoDup_app in Hdup. destruct Hdup as (_ & Hpre & Hdup).
  apply NoDup_cons in Hdup. destruct Hdup as (HTR & Hdup).
  apply NoDup_cons in Hdup. destruct Hdup as (HRpost & _).
  assert (HTpre : Message.id T ∉ map Message.id pre).
  { intros H. apply (Hpre _ H). set_solver. }
  assert (HRpre : Message.id R ∉ map Message.id pre).
  { intros H. apply (Hpre _ H). set_solver. }
  assert (HTpost : Message.id T ∉ map Message.id post) by set_solver.
  (* the iterations before the pair *)
  rewrite process_loop_app.
  assert (Hhead : richText (head (T :: R :: post)) = None).
  { simpl. rewrite HT. reflexivity. }
  destruct (process_loop_prefix context pre (T :: R :: post) Hhead
              (Nat.min n (length pre)) ∅ ltac:(lia)) as [Hout1 Hskip1].
  destruct (process_loop context (Nat.min n (length pre)) (pre ++ T :: R :: post) ∅)
    as [out1 skipIds1].
  simpl in Hout1, Hskip1.
  assert (HTskip : Message.id T ∉ skipIds1).
  { intros H. apply Hskip1 in H. set_solver. }
  (* the pair *)
  destruct (n - length pre) as [|k] eqn:Hk; [lia|].
  cbn [Processor.process_loop head].
  destruct (decide (Message.id T ∈ skipIds1)); [contradiction|].
  rewrite (processMessage_pair T R context skipIds1 HTskip HT Hfrom HR).
  (* the record after it is skipped *)
  assert (Hrest : exists out2 skipIds,
            process_loop context k (R :: post) ({[ Message.id R ]} ∪ skipIds1)
            = (out2, skipIds)
            /\ Message.id R ∈ skipIds
            /\ Forall (fun p => ProcessedMessage.id p ∈ map Message.id post) out2).
  { destruct k as [|k].
    - exists [], ({[ Message.id R ]} ∪ skipIds1). simpl.
      split; [reflexivity | split; [set_solver | constructor]].
    - cbn [Processor.process_loop].
      destruct (decide (Message.id R ∈ {[ Message.id R ]} ∪ skipIds1));
        [|set_solver].
      destruct (process_loop_ids context post k ({[ Message.id R ]} ∪ skipIds1))
        as [Hout2 Hskip2].
      destruct (process_loop context k post ({[ Message.id R ]} ∪ skipIds1))
        as [out2 skipIds2].
      exists out2, skipIds2. simpl in *.
      split; [reflexivity | split; [set_solver | exact Hout2]]. }
  destruct Hrest as (out2 & skipIds & -> & HRskip & Hout2).
  exists out1, out2, skipIds. simpl.
  split; [reflexivity|]. split; [exact HRskip|].
  split; [exact Hout1|]. split; [exact Hout2|].
  apply Forall_app. split.
  - eapply Forall_impl; [exact Hout1|]. simpl. intros p Hp.
    split; intros E; rewrite E in Hp; contradiction.
  - eapply Forall_impl; [exact Hout2|]. simpl. intros p Hp.
    split; intros E; rewrite E in Hp; contradiction.
Qed.

(** *** Notices and pop cards *)

(** What [parseNotice] computes: the title alone when there is one. *)
Lemma parseNotice_spec message :
  parseNotice message =
    match parse (Message.content message) with
    | None => "System Notice"
    | Some data =>
        match notice_texts data with
        | (Some title, _) => title
        | (None, Some body) => body
        | (None, None) => "System Notice"
        end
    end.
Proof.
  unfold parseNotice, notice_texts.
  destruct (parse _) as [data|]; [|reflexivity].
  unfold first_strict, or_else.
  destruct data; try reflexivity; simpl;
    repeat match goal with
           | |- context [match ?x with _ => _ end] => destruct x; try reflexivity
           end.
Qed.

(** [parsePopCard] is the parser that joins the two texts. *)
Lemma parsePopCard_spec message :
  parsePopCard message =
    match parse (Message.content message) with
    | None => "System Message"
    | Some data => card_text (popcard_texts data) "System Message"
    end.
Proof.
  unfold parsePopCard, popcard_texts, card_text.
  destruct (parse _) as [data|]; [|reflexivity].
  unfold first_strict, or_else.
  destruct (nullish (Some data)) eqn:Hnull.
  - destruct data; try discriminate Hnull. reflexivity.
  - destruct (truthy (text_of (field_opt (field_opt (first_opt (Some data)) "content") "title")));
      destruct (truthy (text_of (field_opt (field_opt (first_opt (Some data)) "content") "text")))
        as [body|] eqn:Hbody; try reflexivity.
    now rewrite <- Hbody, truthy_idem, Hbody.
Qed.

(** C1: on a notice that carries both a title and a text, [parseNotice]
    returns the title alone, not the two joined by a colon as the pop card
    parser does. *)
Theorem notice_with_both_texts_shows_title message data title body :
  parse (Message.content message) = Some data ->
  notice_texts data = (Some title, Some body) ->
  parseNotice message = title
  /\ parseNotice message <> card_text (notice_texts data) "System Notice".
Proof.
  intros Hparse Htexts. rewrite parseNotice_spec, Hparse, Htexts. simpl.
  split; [reflexivity|].
  intros H. apply (f_equal String.length) in H.
  rewrite !str_length_app in H. simpl in H. lia.
Qed.

Lemma processMessage_Notice message next context skipIds :
  Message.messagetype message = "Notice" ->
  Message.id message ∉ skipIds ->
  processMessage message next context skipIds =
    (Some (handleSystemMessage message context (parseNotice message) notice), skipIds).
Proof.
  intros Hty Hout. unfold Processor.processMessage.
  destruct (decide _); [contradiction|]. rewrite Hty. reflexivity.
Qed.

(** A read that finds nothing truthy gives no text. *)
Lemma falsy_read_no_text (v : option json) :
  falsy_read v = true -> truthy (text_of v) = None.
Proof.
  destruct v as [[| | | s | |]|]; try reflexivity; try discriminate.
  simpl. intros H. unfold truthy. now rewrite H.
Qed.

(** C9: a notice whose content is not JSON, or is JSON in which the reads
    [data[0]?.attachments?.[0]?.content] of the parser find neither a truthy
    [title] nor a truthy [text], is given the fixed text [System Notice];
    the parser is a total function, and the record is emitted, as a notice
    without display name. *)
Theorem malformed_notice_falls_back message next context skipIds :
  Message.messagetype message = "Notice" ->
  Message.id message ∉ skipIds ->
  (parse (Message.content message) = None
   \/ exists data,
        parse (Message.content message) = Some data
        /\ falsy_read (fst (notice_reads data)) = true
        /\ falsy_read (snd (notice_reads data)) = true) ->
  parseNotice message = "System Notice"
  /\ processMessage message next context skipIds =
       (Some {| ProcessedMessage.id := Message.id message;
                ProcessedMessage.displayName := None;
                ProcessedMessage.timestamp := Message.originalarrivaltime message;
                ProcessedMessage.content := "System Notice";
                ProcessedMessage.type := notice;
                ProcessedMessage.from := Message.from message;
                ProcessedMessage.isOwner := false;
                ProcessedMessage.originalMessageType := "Notice";
                ProcessedMessage.mediaUrl := None |},
        skipIds).
Proof.
  intros Hty Hout Hbad.
  assert (Hfallback : parseNotice message = "System Notice").
  { rewrite parseNotice_spec.
    destruct Hbad as [-> | (data & -> & Htitle & Htext)]; [reflexivity|].
    unfold notice_texts. unfold notice_reads in Htitle, Htext. cbn [fst snd] in Htitle, Htext.
    now rewrite (falsy_read_no_text _ Htitle), (falsy_read_no_text _ Htext). }
  split; [exact Hfallback|].
  rewrite processMessage_Notice by assumption.
  rewrite Hfallback. unfold handleSystemMessage, createBaseMessage. simpl.
  now rewrite Hty.
Qed.

End Pipeline.

Lemma translation_pair_shows_original_witness :
  NoDup (map Message.id ([] ++ own_translation :: own_original :: [later_text]))
  /\ Message.messagetype own_translation = "Translation"
  /\ Message.from own_translation = "8:me"
  /\ Message.messagetype own_original = "RichText"
  /\ 0 < endIndex None 3
  /\ processMessages (fun s => s) (fun s => s) (fun s => s)
       [own_translation; own_original; later_text] "8:me" false false None
     = [ original_of_pair (fun s => s) (fun s => s) own_translation own_original false;
         createBaseMessage later_text viewer "ok" text ].
Proof.
  assert (H1 : NoDup (map Message.id
                        ([] ++ own_translation :: own_original :: [later_text]))).
  { apply (bool_decide_unpack _). vm_compute. exact I. }
  assert (H5 : 0 < endIndex None 3) by (simpl; lia).
  split; [exact H1|]. repeat (split; [reflexivity|]). split; [exact H5|].
  destruct (translation_pair_shows_original (fun s => s) (fun s => s) (fun s => s)
              [] [later_text] own_translation own_original "8:me" false false None
              H1 eq_refl eq_refl eq_refl H5)
    as (out1 & out2 & skipIds & E & _).
  unfold Processor.processMessages. simpl app in E. rewrite E.
  vm_compute in E. injection E as E _. vm_compute. exact (eq_sym E).
Defined.

(** C2 does not hold of every sequence of records: without distinct ids
    the pair can go unseen.  A [Translation] record that carries the id of
    an earlier skipped record is skipped itself, and the [RichText] record
    after it is then shown on its own, its id in no skip set. *)
Lemma repeated_id_hides_the_pair :
  Message.messagetype repeated_translation = "Translation"
  /\ Message.from repeated_translation = "8:me"
  /\ Message.messagetype late_original = "RichText"
  /\ processMessages (fun s => s) (fun s => s) (fun s => s)
       [own_translation; own_original; repeated_translation; late_original]
       "8:me" false false None
     = [ original_of_pair (fun s => s) (fun s => s) own_translation own_original false;
         createBaseMessage late_original viewer "salut" text ]
  /\ Message.id late_original
       ∉ snd (processMessages_state (fun s => s) (fun s => s) (fun s => s)
                [own_translation; own_original; repeated_translation; late_original]
                "8:me" false false None).
Proof.
  do 3 (split; [reflexivity|]). split; [vm_compute; reflexivity|].
  apply (bool_decide_unpack _). vm_compute. exact I.
Qed.

Lemma system_messages_are_anonymous_witness :
  processMessage (fun s => s) (fun s => s) (fun s => s) history_update None viewer ∅
  = (Some history_update_shown, ∅)
  /\ ProcessedMessage.type history_update_shown = system
  /\ ProcessedMessage.displayName history_update_shown = None
  /\ ProcessedMessage.isOwner history_update_shown = false.
Proof.
  assert (H1 : processMessage (fun s => s) (fun s => s) (fun s => s) history_update None viewer ∅
               = (Some history_update_shown, ∅)) by (vm_compute; reflexivity).
  assert (H2 : ProcessedMessage.type history_update_shown = system) by reflexivity.
  split; [exact H1|]. split; [exact H2|].
  exact (system_messages_are_anonymous (fun s => s) (fun s => s) (fun s => s)
           history_update None viewer ∅ history_update_shown ∅ H1 H2).
Defined.

Lemma notice_with_both_texts_shows_title_witness :
  parse (Message.content alert_notice) = Some alert_data
  /\ notice_texts alert_data = (Some "Alert", Some "Storage low")
  /\ parseNotice alert_notice = "Alert"
  /\ parseNotice alert_notice <> card_text (notice_texts alert_data) "System Notice".
Proof.
  assert (H1 : parse (Message.content alert_notice) = Some alert_data)
    by (vm_compute; reflexivity).
  assert (H2 : notice_texts alert_data = (Some "Alert", Some "Storage low"))
    by (vm_compute; reflexivity).
  split; [exact H1|]. split; [exact H2|].
  exact (notice_with_both_texts_shows_title alert_notice alert_data
           "Alert" "Storage low" H1 H2).
Defined.

Lemma malformed_notice_falls_back_witness :
  Message.messagetype malformed_notice = "Notice"
  /\ (Message.id malformed_notice ∉ (∅ : gset string))
  /\ parse (Message.content malformed_notice) = None
  /\ parseNotice malformed_notice = "System Notice"
  /\ fst (processMessage (fun s => s) (fun s => s) (fun s => s) malformed_notice None viewer ∅)
     = Some (handleSystemMessage malformed_notice viewer "System Notice" notice).
Proof.
  assert (H1 : Message.messagetype malformed_notice = "Notice") by reflexivity.
  assert (H2 : Message.id malformed_notice ∉ (∅ : gset string)) by set_solver.
  assert (H3 : parse (Message.content malformed_notice) = None)
    by (vm_compute; reflexivity).
  split; [exact H1|]. split; [exact H2|]. split; [exact H3|].
  destruct (malformed_notice_falls_back (fun s => s) (fun s => s) (fun s => s)
              malformed_notice None viewer ∅ H1 H2 (or_introl H3)) as [Ha Hb].
  split; [exact Ha|]. rewrite Hb. reflexivity.
Defined.

(** C9 does not hold of every content without the expected structure: JSON
    of another shape can still hold a title where the reads of the parser
    look for it, and then the title is shown. *)
Lemma notice_of_another_shape_shows_title :
  parse (Message.content object_notice) = Some object_notice_data
  /\ parseNotice object_notice = "Alert"
  /\ parseNotice object_notice <> "System Notice".
Proof.
  split; [vm_compute; reflexivity|]. split; [vm_compute; reflexivity|].
  vm_compute. discriminate.
Qed.

End ProcessorFacts.

(** ** Call events *)

Module CallFacts.
Import JsString Regex Json JsNumber Patterns Utils Processor Spec JsNumberFacts.

Section Host.

Variable lowerCase : string -> string.

Local Abbreviation toLowerCase := (JsString.toLowerCase lowerCase).
Local Abbreviation call_step := (Processor.call_step lowerCase).
Local Abbreviation extractCallDetails := (Processor.extractCallDetails lowerCase).
Local Abbreviation participantLabels := (Processor.participantLabels lowerCase).
Local Abbreviation parseCallEvent := (Processor.parseCallEvent lowerCase).

Lemma segment_duration_number (partBody : string) (d : number) :
  segment_duration partBody = Some d -> isNaN d = false.
Proof.
  unfold segment_duration. destruct (exec Duration partBody); [|discriminate].
  destruct (isNaN _) eqn:E; [discriminate|]. now intros [= <-].
Qed.

(** The loop only ever raises [maxDuration], by [Math.max] with the
    duration of the segment at hand. *)
Lemma call_step_maxDuration (st : CallScan) (partMatch : found) :
  maxDuration (call_step st partMatch) =
    match segment_duration (part_body partMatch) with
    | Some seconds => max (maxDuration st) seconds
    | None => maxDuration st
    end.
Proof.
  unfold call_step, part_body.
  destruct (segment_duration _); destruct (decide _); reflexivity.
Qed.

Lemma call_loop_maxDuration (parts : list found) (st : CallScan) :
  maxDuration (fold_left call_step parts st) =
    fold_left max (omap (fun f => segment_duration (part_body f)) parts)
              (maxDuration st).
Proof.
  revert st. induction parts as [|f parts IH]; intros st; [reflexivity|].
  simpl. rewrite IH, call_step_maxDuration.
  now destruct (segment_duration (part_body f)).
Qed.

(** A running maximum is its start value or one of the elements, and
    bounds them all. *)
Lemma running_max (ds : list number) :
  forall start : number,
    isNaN start = false ->
    Forall (fun d => isNaN d = false) ds ->
    let r := fold_left max ds start in
    isNaN r = false
    /\ (r = start \/ In r ds)
    /\ gt start r = false
    /\ Forall (fun d => gt d r = false) ds.
Proof.
  induction ds as [|d ds IH]; intros start Hs Hds; simpl.
  - repeat split; auto using gt_irrefl.
  - inversion Hds as [|? ? Hd Hds']; subst.
    destruct (IH (max start d) (max_not_NaN _ _ Hs Hd) Hds')
      as (Hr & Hor & Hge & Hall).
    repeat split; trivial.
    + destruct Hor as [-> | Hin]; [|auto].
      rewrite max_eq by assumption. destruct (gt d start); auto.
    + eapply not_gt_trans; [| apply (max_upper_l start d Hs Hd) | exact Hge].
      now apply max_not_NaN.
    + constructor; [|exact Hall].
      eapply not_gt_trans; [| apply (max_upper_r start d Hs Hd) | exact Hge].
      now apply max_not_NaN.
Qed.

Lemma segment_durations_numbers (content : string) :
  Forall (fun d => isNaN d = false) (segment_durations content).
Proof.
  unfold segment_durations. apply Forall_forall. intros d Hin.
  apply list_elem_of_omap in Hin.
  destruct Hin as (f & _ & Hf). eapply segment_duration_number; exact Hf.
Qed.

Lemma extractCallDetails_maxDuration (content : string) :
  snd (extractCallDetails content) =
    let r := fold_left max (segment_durations content) (Fin 0) in
    if gt r (Fin 0) then Some r else None.
Proof.
  unfold extractCallDetails. simpl. now rewrite call_loop_maxDuration.
Qed.

Lemma parseCallEvent_eq (message : Message.t) (context : MessageProcessorContext) :
  parseCallEvent message context =
    call_text (option_map toLowerCase (first_group Type_ (Message.content message)))
      (join ", " (participantLabels (fst (extractCallDetails (Message.content message)))
                    context))
      (option_map formatCallDuration (snd (extractCallDetails (Message.content message)))).
Proof.
  unfold parseCallEvent. now destruct (extractCallDetails _).
Qed.


(** The text of a finite duration above zero: whole minutes from 60 seconds
    on and the whole seconds that remain, below 60. *)
Lemma formatCallDuration_finite (q : Q) :
  double q -> (0 < q)%Q ->
  if Qle_bool 60 q
  then exists M : Z,
         (1 <= M)%Z
         /\ (q / 60 * (1 - (1 # 2 ^ 53)) - 1 < inject_Z M <= q / 60 * (1 + (1 # 2 ^ 53)))%Q
         /\ ((inject_Z (2 ^ 53) <= q)%Q
             \/ M = (Qfloor q / 60)%Z /\ integer_to_string (IFin M) = Z_to_string M)
         /\ formatCallDuration (Fin q) =
              integer_to_string (IFin M) +:+ "m "
              +:+ Z_to_string (Qfloor q mod 60) +:+ "s"
  else formatCallDuration (Fin q) = Z_to_string (Qfloor q mod 60) +:+ "s".
Proof.
  intros Hd H0.
  assert (Hrem : integer_to_string (floor (rem60 (Fin q))) = Z_to_string (Qfloor q mod 60)).
  { rewrite floor_rem60 by now apply Qlt_le_weak.
    apply integer_to_string_small. pose proof (Z.mod_pos_bound (Qfloor q) 60). lia. }
  unfold formatCallDuration. rewrite Hrem.
  destruct (Qle_bool 60 q) eqn:E.
  - apply Qle_bool_iff in E.
    destruct (div60_large q Hd E) as (r & Hr & Hr1 & Hr2 & Hr3). rewrite Hr.
    assert (HM : (1 <= Qfloor r)%Z).
    { change 1%Z with (Qfloor 1). now apply Qfloor_resp_le. }
    exists (Qfloor r). split; [exact HM|]. split.
    { pose proof (Qfloor_le r) as Hf1. pose proof (Qlt_floor r) as Hf2.
      rewrite inject_Z_plus in Hf2. change (inject_Z 1) with 1%Q in Hf2.
      change (2 ^ (-53))%Q with (1 # 2 ^ 53)%Q in Hr2, Hr3.
      set (x := (q / 60)%Q) in *. set (u := (1 # 2 ^ 53)%Q) in *.
      split; lra. }
    split.
    + destruct (Qlt_le_dec q (inject_Z (2 ^ 53))) as [Hlt | Hge]; [right | now left].
      assert (Hlt' : (q < 2 ^ 53)%Q) by (rewrite p2_Z by lia; exact Hlt).
      destruct (div60_floor q Hd E Hlt') as (r' & Hr' & Hfloor).
      assert (Er : r' = r) by congruence. subst r'.
      split; [exact Hfloor|]. apply integer_to_string_small.
      assert (Hf : (Qfloor q < 2 ^ 53)%Z).
      { rewrite Zlt_Qlt. eapply Qle_lt_trans; [apply Qfloor_le | exact Hlt]. }
      assert (Hf0 : (0 <= Qfloor q)%Z).
      { change 0%Z with (Qfloor 0). apply Qfloor_resp_le. now apply Qlt_le_weak. }
      rewrite Hfloor in *. split; [lia|].
      eapply Z.le_lt_trans; [|exact Hf]. apply Z.div_le_upper_bound; lia.
    + cbn [floor positive_integer].
      destruct (Z.ltb_spec 0 (Qfloor r)); [reflexivity | lia].
  - assert (Hlt : (q < 60)%Q).
    { apply Qnot_le_lt. intros H. apply Qle_bool_iff in H. congruence. }
    destruct (div60_small q Hd H0 Hlt) as (r & Hr & Hr0 & Hr1). rewrite Hr.
    assert (Hf : Qfloor r = 0%Z) by (apply Qfloor_unique; assumption).
    cbn [floor positive_integer]. rewrite Hf. reflexivity.
Qed.


(** C10: when no participant segment carries a duration above zero, the
    extracted maximum is [null], whatever the type of the call; and the text
    of an ended call is then [Call ended] followed by the participants, if
    any, and by no duration. *)
Theorem ended_call_without_duration (message : Message.t)
    (context : MessageProcessorContext) :
  Forall (fun d => gt d (Fin 0) = false) (segment_durations (Message.content message)) ->
  snd (extractCallDetails (Message.content message)) = None
  /\ (option_map toLowerCase (first_group Type_ (Message.content message)) = Some "ended" ->
      parseCallEvent message context =
        let names :=
          join ", " (participantLabels (fst (extractCallDetails (Message.content message)))
                       context) in
        if is_empty names then "Call ended" else "Call ended • " +:+ names).
Proof.
  intros Hnone.
  assert (Hmax : snd (extractCallDetails (Message.content message)) = None).
  { rewrite extractCallDetails_maxDuration.
    destruct (running_max (segment_durations (Message.content message)) (Fin 0) eq_refl
                (segment_durations_numbers _)) as (_ & Hor & _ & _).
    simpl. destruct Hor as [-> | Hin]; [reflexivity|].
    rewrite Forall_forall in Hnone. apply list_elem_of_In in Hin.
    now rewrite (Hnone _ Hin). }
  split; [exact Hmax|].
  intros Hended. rewrite parseCallEvent_eq, Hmax, Hended. reflexivity.
Qed.

End Host.


Lemma ended_call_without_duration_witness :
  Forall (fun d => gt d (Fin 0) = false)
         (segment_durations (Message.content ended_call_zero))
  /\ option_map (toLowerCase (fun s => s)) (first_group Type_ (Message.content ended_call_zero))
     = Some "ended"
  /\ snd (extractCallDetails (fun s => s) (Message.content ended_call_zero)) = None
  /\ parseCallEvent (fun s => s) ended_call_zero viewer = "Call ended • Ann".
Proof.
  assert (H1 : Forall (fun d => gt d (Fin 0) = false)
                 (segment_durations (Message.content ended_call_zero))).
  { assert (E : segment_durations (Message.content ended_call_zero) = [Fin 0])
      by (vm_compute; reflexivity).
    rewrite E. repeat constructor. }
  assert (H2 : option_map (toLowerCase (fun s => s))
                 (first_group Type_ (Message.content ended_call_zero)) = Some "ended")
    by (vm_compute; reflexivity).
  split; [exact H1|]. split; [exact H2|].
  destruct (ended_call_without_duration (fun s => s) ended_call_zero viewer H1) as [Ha Hb].
  split; [exact Ha|]. rewrite (Hb H2). vm_compute. reflexivity.
Defined.

End CallFacts.

(** ** Thread activity: added members *)

Module ThreadActivityFacts.
Import JsString Regex Json JsNumber Patterns Utils Processor Spec.
Import JsStringFacts RegexFacts.

Lemma search_here total r s caps rest :
  rmatch total r accept [] s = Some (caps, rest) ->
  search total r s = Some (Found EmptyString (consumed s rest) caps rest).
Proof. intros H. destruct s; simpl; now rewrite H. Qed.

Lemma search_skip total r c s :
  rmatch total r accept [] (String c s) = None ->
  search total r (String c s) = option_map (shift c) (search total r s).
Proof. intros H. simpl. now rewrite H. Qed.

Lemma scan_step fuel total r s f :
  search total r s = Some f ->
  is_empty (whole f) = false ->
  scan (S fuel) total r s
  = (f :: fst (scan fuel total r (after f)), snd (scan fuel total r (after f))).
Proof.
  intros Hs He. simpl. rewrite Hs, He. now destruct (scan fuel total r (after f)).
Qed.

Lemma scan_stop fuel total r s :
  search total r s = None -> scan fuel total r s = ([], s).
Proof. intros H. destruct fuel; simpl; [reflexivity | now rewrite H]. Qed.

Lemma not_lt_char (c : ascii) : none_of "<" c = true -> Ascii.eqb c "<" = false.
Proof.
  destruct (Ascii.eqb c "<") eqn:E; [|reflexivity].
  apply Ascii.eqb_eq in E. subst c. discriminate.
Qed.

Lemma not_lt_count (v : string) :
  all_chars (none_of "<") v = true -> count "<"%char v = 0.
Proof.
  induction v as [|c v IH]; [reflexivity|]. simpl.
  intros H. apply andb_prop in H. destruct H as [Hc Hv].
  now rewrite (not_lt_char c Hc), IH.
Qed.

Lemma AddMember_match total s caps rest :
  rmatch total AddMember accept [] s = Some (caps, rest) ->
  exists v,
    consumed s rest = wrap v /\ cap caps 1 = Some v
    /\ all_chars (none_of "<") v = true.
Proof.
  unfold AddMember, seqs. cbn [rmatch]. rewrite rmatch_lit.
  destruct (strip_prefix "<target>" s) as [s1|] eqn:E1; [|discriminate].
  apply strip_prefix_Some in E1. subst s.
  intros H. apply group_plus_chars in H.
  destruct H as (v & s2 & -> & Hv & H).
  rewrite rmatch_lit in H.
  destruct (strip_prefix "</target>" s2) as [s3|] eqn:E3; [|discriminate].
  apply strip_prefix_Some in E3. subst s2.
  unfold accept in H. injection H as <- <-.
  exists v. repeat split; trivial.
  unfold wrap. rewrite <- (str_app_assoc v "</target>" s3).
  rewrite <- (str_app_assoc "<target>" (v +:+ "</target>") s3).
  apply consumed_app.
Qed.

Lemma AddMember_matches (content : string) :
  Forall (fun f => exists v, whole f = wrap v /\ group f 1 = Some v
                             /\ all_chars (none_of "<") v = true)
         (fst (scan_all AddMember content)).
Proof.
  unfold scan_all.
  apply (scan_whole _ _ _
           (fun w caps => exists v, w = wrap v /\ cap caps 1 = Some v
                                    /\ all_chars (none_of "<") v = true)).
  intros s caps rest. apply AddMember_match.
Qed.

(** Removing the two tags of a wrapped value leaves the value. *)
Lemma target_tag_skip total c s :
  Ascii.eqb c "<" = false -> rmatch total target_tag accept [] (String c s) = None.
Proof.
  intros H. unfold target_tag, seqs. cbn [rmatch]. rewrite rmatch_lit.
  cbn [strip_prefix]. rewrite Ascii.eqb_sym. now rewrite H.
Qed.

Lemma search_closing_tag total v :
  all_chars (none_of "<") v = true ->
  search total target_tag (v +:+ "</target>")
  = Some (Found v "</target>" [] EmptyString).
Proof.
  induction v as [|c v IH]; intros H.
  - reflexivity.
  - simpl in H. apply andb_prop in H. destruct H as [Hc Hv].
    rewrite str_app_cons, search_skip
      by (apply target_tag_skip; now apply not_lt_char).
    now rewrite IH.
Qed.

Lemma search_opening_tag total s :
  search total target_tag ("<target>" +:+ s)
  = Some (Found EmptyString "<target>" [] s).
Proof.
  rewrite (search_here total target_tag ("<target>" +:+ s) [] s) by reflexivity.
  now rewrite consumed_app.
Qed.

Lemma strip_target_tags (v : string) :
  all_chars (none_of "<") v = true ->
  replace_all target_tag [] (wrap v) = v.
Proof.
  intros Hv. unfold replace_all, scan_all.
  set (total := String.length (wrap v)).
  assert (Hfuel : exists fuel, S total = S (S (S fuel))).
  { exists (total - 2). subst total. unfold wrap.
    rewrite !str_length_app. simpl. lia. }
  destruct Hfuel as [fuel ->].
  unfold wrap.
  rewrite (scan_step _ _ _ _ _ (search_opening_tag total _) eq_refl).
  cbn [after].
  rewrite (scan_step _ _ _ _ _ (search_closing_tag total v Hv) eq_refl).
  cbn [after]. rewrite scan_stop by reflexivity.
  cbn [fst snd rebuild expand before].
  now rewrite !str_app_nil_r.
Qed.

(** [split(":").pop()] is what follows the last colon. *)
Lemma includes_colon (c : ascii) (s : string) :
  includes (String c s) ":" = Ascii.eqb c ":" || includes s ":".
Proof.
  cbn [includes]. unfold startsWith. cbn [strip_prefix].
  rewrite (Ascii.eqb_sym ":" c). now destruct (Ascii.eqb c ":").
Qed.

Lemma split_on_colon (v : string) :
  last (split_on ":" v) = Some (after_last_colon v)
  /\ (includes v ":" = false -> split_on ":" v = [v] /\ after_last_colon v = v)
  /\ (includes v ":" = true -> exists h t ts, split_on ":" v = h :: t :: ts).
Proof.
  induction v as [|c v (IHlast & IHnone & IHsome)].
  - split; [reflexivity | split; [now split | discriminate]].
  - cbn [split_on after_last_colon]. rewrite includes_colon.
    destruct (includes v ":") eqn:Hv.
    + destruct (IHsome eq_refl) as (h & t & ts & E).
      rewrite E in IHlast |- *. rewrite orb_true_r.
      destruct (Ascii.eqb c ":");
        (split; [exact IHlast | split; [discriminate | intros _; eauto]]).
    + destruct (IHnone eq_refl) as [E Ealc]. rewrite E. rewrite orb_false_r.
      destruct (Ascii.eqb c ":") eqn:Hc.
      * split; [reflexivity | split; [discriminate | intros _; eauto]].
      * split; [reflexivity | split; [now split | discriminate]].
Qed.

Lemma member_name_wrap (v : string) :
  all_chars (none_of "<") v = true -> member_name (wrap v) = after_last_colon v.
Proof.
  intros Hv. unfold member_name, pop.
  rewrite strip_target_tags by exact Hv.
  destruct (split_on_colon v) as [-> _].
  simpl. now destruct (after_last_colon v).
Qed.

Lemma member_names (fs : list found) :
  Forall (fun f => exists v, whole f = wrap v /\ group f 1 = Some v
                             /\ all_chars (none_of "<") v = true) fs ->
  map member_name (map whole fs)
  = map after_last_colon (omap (fun f => group f 1) fs).
Proof.
  induction 1 as [|f fs (v & Hw & Hg & Hv) _ IH]; [reflexivity|].
  change (omap (fun f => group f 1) (f :: fs))
    with (match group f 1 with
          | Some y => y :: omap (fun f => group f 1) fs
          | None => omap (fun f => group f 1) fs
          end).
  rewrite Hg. cbn [map]. now rewrite Hw, member_name_wrap, IH.
Qed.

Lemma join_nonempty (names : list string) :
  Forall (fun s => nonempty s = true) names ->
  is_empty (join ", " names) = match names with [] => true | _ => false end.
Proof.
  destruct 1 as [|x names Hx _]; [reflexivity|].
  destruct x as [|c x]; [discriminate|].
  destruct names; reflexivity.
Qed.

Lemma parseThreadActivity_AddMember (lowerCase : string -> string)
    (message : Message.t) :
  Message.messagetype message = "ThreadActivity/AddMember" ->
  parseThreadActivity lowerCase message = added_members (Message.content message).
Proof.
  intros Hty. unfold parseThreadActivity, added_members, target_values, match_all.
  rewrite Hty. rewrite String.eqb_refl.
  pose proof (AddMember_matches (Message.content message)) as Hfs.
  destruct (fst (scan_all AddMember (Message.content message))) as [|f fs] eqn:E;
    [reflexivity|].
  rewrite member_names by exact Hfs.
  set (names := filter _ _).
  assert (Hnames : Forall (fun s => nonempty s = true) names).
  { subst names. apply Forall_forall. intros x Hx.
    apply list_elem_of_filter in Hx. destruct Hx as [Hx _].
    unfold nonempty. now destruct (is_empty x). }
  rewrite (join_nonempty names Hnames).
  now destruct names.
Qed.

Lemma added_text_nonempty (names : list string) (t : string) :
  added_text names = Some t -> truthy (Some t) = Some t.
Proof. destruct names; [discriminate|]. now intros [= <-]. Qed.

(** C3: on an [AddMember] record the parser takes the value of every
    [target] element, keeps what follows the last colon of each, drops the
    empty results and joins the others, repeated names included, with a
    comma and a space into [Added ... to the conversation]; with no name left
    it returns [null] and the classifier drops the record. *)
Theorem added_members_are_listed (parseSkypeEmoji sanitize lowerCase : string -> string)
    (message : Message.t) (next : option Message.t)
    (context : MessageProcessorContext) (skipIds : gset string) :
  Message.messagetype message = "ThreadActivity/AddMember" ->
  parseThreadActivity lowerCase message = added_members (Message.content message)
  /\ processMessage parseSkypeEmoji sanitize lowerCase message next context skipIds =
       match added_members (Message.content message) with
       | Some sentence =>
           if decide (Message.id message ∈ skipIds) then (None, skipIds)
           else (Some (handleSystemMessage message context sentence system), skipIds)
       | None => (None, skipIds)
       end.
Proof.
  intros Hty. split; [now apply parseThreadActivity_AddMember|].
  unfold processMessage.
  destruct (decide (Message.id message ∈ skipIds)).
  - now destruct (added_members _).
  - rewrite (parseThreadActivity_AddMember lowerCase message Hty). rewrite Hty.
    change (String.eqb "ThreadActivity/AddMember" "RichText/Media_Album") with false.
    change (String.eqb "ThreadActivity/AddMember" "Translation") with false.
    change (String.eqb "ThreadActivity/AddMember" "RichText/UriObject") with false.
    change (String.eqb "ThreadActivity/AddMember" "RichText/Media_Video") with false.
    change (String.eqb "ThreadActivity/AddMember" "RichText/Media_GenericFile") with false.
    change (String.eqb "ThreadActivity/AddMember" "RichText") with false.
    change (startsWith "ThreadActivity/AddMember" "ThreadActivity") with true.
    cbv iota. cbn [orb].
    destruct (added_members (Message.content message)) as [t|] eqn:E; [|reflexivity].
    unfold added_members in E. now rewrite (added_text_nonempty _ _ E).
Qed.

(** C3, as stated: a name that occurs twice is listed twice. *)
Lemma repeated_member_is_listed_twice :
  parseThreadActivity (fun s => s) add_alice_twice
  = Some "Added alice, alice to the conversation"
  /\ parseThreadActivity (fun s => s) add_alice_twice
     <> claimed_added_members (Message.content add_alice_twice).
Proof.
  split; [vm_compute; reflexivity | vm_compute; discriminate].
Qed.

Lemma added_members_are_listed_witness :
  Message.messagetype add_alice_and_bob = "ThreadActivity/AddMember"
  /\ parseThreadActivity (fun s => s) add_alice_and_bob
     = Some "Added alice, bob to the conversation"
  /\ added_members "<target>8:</target>" = None.
Proof.
  assert (H : Message.messagetype add_alice_and_bob = "ThreadActivity/AddMember")
    by reflexivity.
  split; [exact H|]. split; [|vm_compute; reflexivity].
  rewrite (proj1 (added_members_are_listed (fun s => s) (fun s => s) (fun s => s)
                    add_alice_and_bob None viewer ∅ H)).
  vm_compute. reflexivity.
Defined.

End ThreadActivityFacts.

(** ** Highlighting *)

Module HighlightFacts.
Import JsString Regex Patterns Search Spec JsStringFacts RegexFacts.

Lemma join_empty (l : list string) : join EmptyString l = concat_strings l.
Proof.
  induction l as [|x [|y r] IH]; [reflexivity | |].
  - simpl. now rewrite str_app_nil_r.
  - change (join EmptyString (x :: y :: r))
      with (x +:+ EmptyString +:+ join EmptyString (y :: r)).
    rewrite IH. reflexivity.
Qed.

Lemma concat_strings_app (l1 l2 : list string) :
  concat_strings (l1 ++ l2) = concat_strings l1 +:+ concat_strings l2.
Proof.
  induction l1 as [|x l1 IH]; [reflexivity|].
  simpl. now rewrite IH, str_app_assoc.
Qed.

(** The scanner pushes the rendering of each part. *)
Lemma scan_parts_render (regex : regex) (rest : string) :
  forall pending inTag,
    scan_parts regex rest pending inTag
    = map (render regex) (scan_segments rest pending inTag).
Proof.
  induction rest as [|c rest IH]; intros pending inTag; simpl.
  - now destruct (is_empty pending).
  - destruct (Ascii.eqb c "<"); [|destruct (Ascii.eqb c ">" && inTag)].
    + rewrite map_app, IH. now destruct (is_empty pending).
    + simpl. now rewrite IH.
    + apply IH.
Qed.

Lemma is_empty_true (s : string) : is_empty s = true -> s = EmptyString.
Proof. now destruct s. Qed.

(** The parts cut the text: together they are the input. *)
Lemma scan_segments_source (rest : string) :
  forall pending inTag,
    concat_strings (map part_source (scan_segments rest pending inTag))
    = pending +:+ rest.
Proof.
  induction rest as [|c rest IH]; intros pending inTag; simpl.
  - destruct (is_empty pending) eqn:E.
    + apply is_empty_true in E. now subst.
    + simpl. reflexivity.
  - destruct (Ascii.eqb c "<") eqn:Hlt; [|destruct (Ascii.eqb c ">" && inTag)].
    + rewrite map_app, concat_strings_app, IH.
      destruct (is_empty pending) eqn:E.
      * apply is_empty_true in E. now subst.
      * simpl. now rewrite str_app_nil_r.
    + simpl. rewrite IH. simpl. now rewrite str_app_assoc.
    + rewrite IH. now rewrite str_app_assoc.
Qed.

Lemma count_snoc (x c : ascii) (s : string) :
  count x (s +:+ String c EmptyString) = count x s + (if Ascii.eqb c x then 1 else 0).
Proof. rewrite str_count_app. simpl. lia. Qed.

Lemma pending_run (pending : string) (inTag : bool) :
  pending_ok pending inTag ->
  Forall scanned_shape (if is_empty pending then [] else [Run pending]).
Proof.
  intros H. destruct (is_empty pending); constructor; [|constructor].
  simpl. destruct inTag; [right | left]; exact H.
Qed.

Lemma scan_segments_shape (rest : string) :
  forall pending inTag,
    pending_ok pending inTag ->
    Forall scanned_shape (scan_segments rest pending inTag).
Proof.
  induction rest as [|c rest IH]; intros pending inTag Hok; simpl.
  - now apply (pending_run pending inTag).
  - destruct (Ascii.eqb c "<") eqn:Hlt.
    + apply Ascii.eqb_eq in Hlt. subst c.
      apply Forall_app. split; [now apply (pending_run pending inTag)|].
      apply IH. exists EmptyString. repeat split; reflexivity.
    + destruct (Ascii.eqb c ">") eqn:Hgt; destruct inTag; simpl.
      * apply Ascii.eqb_eq in Hgt. subst c.
        constructor; [|now apply IH].
        destruct Hok as (body & -> & H1 & H2).
        exists body. rewrite str_app_assoc. now repeat split.
      * apply IH. simpl in *. rewrite count_snoc, Hlt. lia.
      * apply IH. destruct Hok as (body & -> & H1 & H2).
        exists (body +:+ String c EmptyString). rewrite str_app_assoc.
        repeat split; rewrite count_snoc; [rewrite Hlt | rewrite Hgt]; lia.
      * apply IH. simpl in *. rewrite count_snoc, Hlt. lia.
Qed.

(** Each mark wrapper adds two ["<"]: its own opening and closing tags
    around the matched text. *)
Lemma count_rebuild_mark (fs : list found) (tl : string) :
  Forall (fun f => group f 1 = Some (whole f)) fs ->
  count "<"%char (rebuild mark fs tl)
  = count "<"%char (source fs tl) + 2 * length fs.
Proof.
  induction 1 as [|f fs Hf _ IH]; [simpl; lia|].
  cbn [rebuild source length].
  rewrite !str_count_app, IH.
  unfold mark. cbn [expand]. rewrite Hf. cbn [default].
  rewrite !str_count_app. unfold id.
  replace (count "<"%char (quoted
    "<mark style='background-color: rgba(255, 255, 0, 0.4); padding: 2px 0;'>"))
    with 1 by (vm_compute; reflexivity).
  change (count "<" "</mark>") with 1.
  change (count "<" EmptyString) with 0. lia.
Qed.

Lemma count_highlight_text (r : regex) (s : string) :
  count "<"%char (highlight_text (Group 1 r) s)
  = count "<"%char s + 2 * marks (Group 1 r) s.
Proof.
  unfold highlight_text, replace_all, marks, scan_all.
  pose proof (scan_source (S (String.length s)) (String.length s) (Group 1 r) s) as Hsrc.
  pose proof (scan_group (S (String.length s)) (String.length s) 1 r s) as Hgrp.
  destruct (scan _ _ _ s) as [fs tl]. simpl in *.
  rewrite count_rebuild_mark by exact Hgrp. now rewrite Hsrc.
Qed.

Lemma count_render (r : regex) (p : part) :
  count "<"%char (render (Group 1 r) p)
  = count "<"%char (part_source p) + 2 * part_marks (Group 1 r) p.
Proof.
  destruct p as [s|s]; simpl; [lia | apply count_highlight_text].
Qed.

Lemma count_rendered_parts (r : regex) (parts : list part) :
  count "<"%char (concat_strings (map (render (Group 1 r)) parts))
  = count "<"%char (concat_strings (map part_source parts))
    + 2 * list_sum (map (part_marks (Group 1 r)) parts).
Proof.
  induction parts as [|p parts IH]; simpl; [reflexivity|].
  rewrite !str_count_app, IH, count_render. lia.
Qed.

Lemma segments_source (html query : string) :
  concat_strings (map part_source (segments html query)) = html.
Proof.
  unfold segments.
  destruct (is_empty (trim query) || is_empty html).
  - destruct (is_empty html) eqn:E; [apply is_empty_true in E; now subst|].
    simpl. apply str_app_nil_r.
  - destruct (negb (test some_tag html)).
    + simpl. apply str_app_nil_r.
    + apply scan_segments_source.
Qed.

Section Folding.

Variable caseVariants : string -> list string.

Local Abbreviation query_regex := (Search.query_regex caseVariants).
Local Abbreviation highlightSearchMatch := (Search.highlightSearchMatch caseVariants).

Lemma segments_render (html query : string) :
  highlightSearchMatch html query
  = concat_strings (map (render (query_regex (trim query))) (segments html query)).
Proof.
  unfold highlightSearchMatch, segments.
  destruct (is_empty (trim query) || is_empty html).
  - destruct (is_empty html) eqn:E; [apply is_empty_true in E; now subst|].
    simpl. now rewrite str_app_nil_r.
  - destruct (negb (test some_tag html)).
    + simpl. now rewrite str_app_nil_r.
    + now rewrite join_empty, scan_parts_render.
Qed.

Lemma segments_shape (html query : string) :
  Forall (part_shape html query) (segments html query).
Proof.
  unfold segments.
  destruct (is_empty (trim query)) eqn:Hq; simpl.
  - destruct (is_empty html); [constructor|].
    constructor; [|constructor]. simpl. right. now split.
  - destruct (is_empty html) eqn:Hh; [constructor|].
    destruct (test some_tag html) eqn:Ht; simpl.
    + eapply Forall_impl; [apply scan_segments_shape; reflexivity|].
      intros [s|s]; simpl; intros H; [now left|].
      destruct H as [H|H]; [now left | right; now left].
    + constructor; [|constructor]. simpl. right. right. now split.
Qed.

(** C8: [highlightSearchMatch] cuts its input into parts and renders each:
    a kept part is copied as it is and is a span from ["<"] to the next [">"]
    with no other ["<"] in between (or the whole input under a blank query);
    a rewritten run has no ["<"], or is a ["<"] left open before the next
    ["<"] or the end, or is the whole of an input in which no tag is found.
    The output has the ["<"] of the input and two more for every mark
    wrapper inserted. *)
Theorem highlight_keeps_scanned_tags (html query : string) :
  let regex := query_regex (trim query) in
  let parts := segments html query in
  concat_strings (map part_source parts) = html
  /\ highlightSearchMatch html query = concat_strings (map (render regex) parts)
  /\ Forall (part_shape html query) parts
  /\ count "<"%char (highlightSearchMatch html query)
     = count "<"%char html + 2 * list_sum (map (part_marks regex) parts).
Proof.
  intros regex parts. subst regex parts.
  split; [apply segments_source|].
  split; [apply segments_render|].
  split; [apply segments_shape|].
  rewrite segments_render. unfold query_regex.
  rewrite count_rendered_parts. now rewrite segments_source.
Qed.

End Folding.

(** C8, where the code departs from it: a tag with a ["<"] inside an
    attribute value is a tag of the input, yet it is not copied.  The scan
    starts over at the second ["<"], takes what came before for text, and
    puts the mark inside the tag; the output differs from the input
    rewritten between its tags, and no longer contains that tag. *)
Lemma tag_with_lt_is_rewritten :
  match_all any_tag link_with_lt = Some [quoted "<a title='1<2'>"; "</a>"]
  /\ highlightSearchMatch (fun _ => []) link_with_lt "title"
     = quoted "<a <mark style='background-color: rgba(255, 255, 0, 0.4); padding: 2px 0;'>title</mark>='1<2'>x</a>"
  /\ highlightSearchMatch (fun _ => []) link_with_lt "title"
     <> claimed_highlight (fun _ => []) link_with_lt "title"
  /\ includes (highlightSearchMatch (fun _ => []) link_with_lt "title")
              (quoted "<a title='1<2'>") = false.
Proof.
  split; [vm_compute; reflexivity|]. split; [vm_compute; reflexivity|].
  split; [vm_compute; discriminate | vm_compute; reflexivity].
Qed.

End HighlightFacts.

(** ** Search *)

Module SearchFacts.
Import JsString Regex Patterns Search Spec JsStringFacts.

Section Dom.

Variable document : option (string -> string).
Variable lowerCase : string -> string.

(** C5: on a query that is empty or white space only, every message
    matches and [filterMessages] returns its argument, while
    [findMatchingMessageIndices] returns no index at all. *)
Theorem blank_query_filters_nothing (messages : list ProcessedMessage.t)
    (query : string) :
  whitespace_only query ->
  Forall (fun message => messageMatchesSearch document lowerCase message query = true) messages
  /\ filterMessages document lowerCase messages query = messages
  /\ findMatchingMessageIndices document lowerCase messages query = [].
Proof.
  intros Hblank. apply trim_blank in Hblank.
  unfold messageMatchesSearch, filterMessages, findMatchingMessageIndices.
  rewrite Hblank. simpl. repeat split.
  apply Forall_forall. reflexivity.
Qed.

End Dom.

(** C5, as stated: the indices of a blank query are not those of every
    message. *)
Lemma blank_query_lists_no_index :
  whitespace_only " "
  /\ messageMatchesSearch None (fun s => s) sample_message " " = true
  /\ findMatchingMessageIndices None (fun s => s) [sample_message] " "
     <> all_indices [sample_message].
Proof.
  split; [|split].
  - change " " with (" " +:+ EmptyString).
    apply blank_more; [|apply blank_empty].
    vm_compute. tauto.
  - reflexivity.
  - vm_compute. discriminate.
Qed.

Lemma blank_query_filters_nothing_witness :
  whitespace_only " "
  /\ filterMessages None (fun s => s) [sample_message] " " = [sample_message]
  /\ findMatchingMessageIndices None (fun s => s) [sample_message] " " = [].
Proof.
  assert (H : whitespace_only " ").
  { change " " with (" " +:+ EmptyString).
    apply blank_more; [|apply blank_empty]. vm_compute. tauto. }
  split; [exact H|].
  exact (proj2 (blank_query_filters_nothing None (fun s => s) [sample_message] " " H)).
Defined.

End SearchFacts.

(** * Further properties *)

(** ** Matching, step by step *)

Module MatchFacts.
Import JsString Regex Patterns Spec Notions JsStringFacts RegexFacts.
Import ThreadActivityFacts.

Lemma rmatch_seq total r1 r2 k caps s :
  rmatch total (Seq r1 r2) k caps s
  = rmatch total r1 (fun caps1 s1 => rmatch total r2 k caps1 s1) caps s.
Proof. reflexivity. Qed.

Lemma rmatch_group_eq total n r k caps s :
  rmatch total (Group n r) k caps s
  = rmatch total r (fun caps1 s1 => k ((n, consumed s s1) :: caps1) s1) caps s.
Proof. reflexivity. Qed.

Lemma rmatch_star_eq total greedy r k caps s :
  rmatch total (Star greedy r) k caps s
  = star_loop (rmatch total r) greedy (S (String.length s)) k caps s.
Proof. reflexivity. Qed.

Lemma rmatch_chr total p k caps c s :
  rmatch total (Chr p) k caps (String c s) = if p c then k caps s else None.
Proof. reflexivity. Qed.

Lemma empty_string (s : string) : is_empty s = true -> s = EmptyString.
Proof. now destruct s. Qed.

Lemma consumed_nil (s : string) : consumed s EmptyString = s.
Proof.
  rewrite <- (str_app_nil_r s) at 1. apply consumed_app.
Qed.

(** Where a search finds its match: at the first suffix of the text on
    which the expression matches. *)
Lemma search_inv total r s f :
  search total r s = Some f ->
  exists s' caps rest,
    s = before f +:+ s'
    /\ rmatch total r accept [] s' = Some (caps, rest)
    /\ whole f = consumed s' rest /\ groups f = caps /\ after f = rest.
Proof.
  revert f. induction s as [|c s IH]; intros f; simpl.
  - destruct (rmatch total r accept [] EmptyString) as [[caps rest]|] eqn:E;
      [|discriminate].
    intros [= <-]. exists EmptyString, caps, rest. simpl. now repeat split.
  - destruct (rmatch total r accept [] (String c s)) as [[caps rest]|] eqn:E.
    + intros [= <-]. exists (String c s), caps, rest. simpl. now repeat split.
    + destruct (search total r s) as [g|] eqn:Eg; [|discriminate].
      intros [= <-].
      destruct (IH g eq_refl) as (s' & caps & rest & Hs & Hm & Hw & Hg & Ha).
      exists s', caps, rest. simpl.
      split; [rewrite str_app_cons; now f_equal|]. now repeat split.
Qed.

(** One or more characters of a class take at least one. *)
Lemma plus_some total p k caps s o :
  rmatch total (plus (Chr p)) k caps s = Some o ->
  exists v rest,
    s = v +:+ rest /\ all_chars p v = true /\ is_empty v = false
    /\ k caps rest = Some o.
Proof.
  unfold plus. rewrite rmatch_seq. destruct s as [|c s']; [discriminate|].
  rewrite rmatch_chr. destruct (p c) eqn:Hp; [|discriminate].
  rewrite rmatch_star_eq.
  intros H. apply (star_chars total) in H. destruct H as (v & rest & -> & Hv & Hk).
  exists (String c v), rest. repeat split; trivial.
  simpl. now rewrite Hp, Hv.
Qed.

Lemma group_plus_some total n p k caps s o :
  rmatch total (Group n (plus (Chr p))) k caps s = Some o ->
  exists v rest,
    s = v +:+ rest /\ all_chars p v = true /\ is_empty v = false
    /\ k ((n, v) :: caps) rest = Some o.
Proof.
  rewrite rmatch_group_eq. intros H. apply plus_some in H.
  destruct H as (v & rest & -> & Hv & Hne & Hk).
  rewrite consumed_app in Hk. now exists v, rest.
Qed.

(** Greedy repetition of a class stops at the first character outside it,
    when what follows cannot start inside the class. *)
Lemma star_greedy total p k caps :
  (forall c t, p c = true -> k caps (String c t) = None) ->
  forall fuel s,
    String.length s < fuel ->
    star_loop (rmatch total (Chr p)) true fuel k caps s = k caps (skip_while p s).
Proof.
  intros Hk. induction fuel as [|fuel IH]; intros s Hfuel; [lia|].
  cbn [star_loop]. destruct s as [|c t]; [reflexivity|].
  rewrite rmatch_chr. cbn [skip_while]. destruct (p c) eqn:Hp; [|reflexivity].
  replace (String.length t <? String.length (String c t)) with true
    by (symmetry; apply Nat.ltb_lt; simpl; lia).
  rewrite IH by (simpl in Hfuel; lia).
  destruct (k caps (skip_while p t)) as [o|] eqn:E; [reflexivity|].
  now rewrite Hk.
Qed.

(** Greedy repetition of a matcher that takes one character of a class at
    a time, over a run of such characters after which it fails. *)
Lemma star_run (m : cont -> captures -> string -> option outcome) p k caps rest :
  (forall k' c t, p c = true -> m k' caps (String c t) = k' caps t) ->
  (forall k', m k' caps rest = None) ->
  (forall c t, p c = true -> k caps (String c t) = None) ->
  forall v fuel,
    all_chars p v = true ->
    String.length v < fuel ->
    star_loop m true fuel k caps (v +:+ rest) = k caps rest.
Proof.
  intros Hm Hrest Hk. induction v as [|c v IH]; intros fuel Hv Hfuel.
  - destruct fuel as [|fuel]; [simpl in Hfuel; lia|].
    rewrite str_app_nil_l. cbn [star_loop]. now rewrite Hrest.
  - destruct fuel as [|fuel]; [simpl in Hfuel; lia|].
    simpl in Hv. apply andb_prop in Hv. destruct Hv as [Hc Hv].
    rewrite str_app_cons. cbn [star_loop]. rewrite Hm by exact Hc.
    replace (String.length (v +:+ rest) <? String.length (String c (v +:+ rest)))
      with true by (symmetry; apply Nat.ltb_lt; simpl; lia).
    rewrite IH by (trivial; simpl in Hfuel; lia).
    destruct (k caps rest) as [o|] eqn:E; [reflexivity|].
    now rewrite Hk.
Qed.

(** A search that matches nowhere before a given suffix goes on there. *)
Lemma search_none_cons total r c s :
  search total r (String c s) = None ->
  rmatch total r accept [] (String c s) = None /\ search total r s = None.
Proof.
  simpl. destruct (rmatch total r accept [] (String c s)) as [[caps rest]|];
    [discriminate|].
  destruct (search total r s); [discriminate | now split].
Qed.

Lemma rmatch_bol total k caps s :
  rmatch total Bol k caps s = if String.length s =? total then k caps s else None.
Proof. reflexivity. Qed.

Lemma rmatch_eol total k caps s :
  rmatch total Eol k caps s = if is_empty s then k caps s else None.
Proof. reflexivity. Qed.

(** A group of one or more repetitions, over a run of characters each of
    which the repeated expression takes whole, up to a point where it
    fails: the group holds the run. *)
Lemma group_plus_run total n (r : regex) p k caps v rest :
  (forall k' c t, p c = true -> rmatch total r k' caps (String c t) = k' caps t) ->
  (forall k', rmatch total r k' caps rest = None) ->
  (forall w c t, p c = true -> k ((n, w) :: caps) (String c t) = None) ->
  is_empty v = false ->
  all_chars p v = true ->
  rmatch total (Group n (plus r)) k caps (v +:+ rest) = k ((n, v) :: caps) rest.
Proof.
  intros Hr Hrest Hk Hne Hv. destruct v as [|c v]; [discriminate|].
  simpl in Hv. apply andb_prop in Hv. destruct Hv as [Hc Hv].
  rewrite rmatch_group_eq. unfold plus. rewrite rmatch_seq.
  rewrite str_app_cons, Hr by exact Hc. rewrite rmatch_star_eq.
  rewrite (star_run (rmatch total r) p _ caps rest Hr Hrest); trivial.
  - rewrite <- str_app_cons. now rewrite consumed_app.
  - intros c' t Hc'. apply Hk. exact Hc'.
  - rewrite str_length_app. lia.
Qed.

Lemma group_plus_all total n (r : regex) p k caps v :
  (forall k' c t, p c = true -> rmatch total r k' caps (String c t) = k' caps t) ->
  (forall k', rmatch total r k' caps EmptyString = None) ->
  (forall w c t, p c = true -> k ((n, w) :: caps) (String c t) = None) ->
  is_empty v = false ->
  all_chars p v = true ->
  rmatch total (Group n (plus r)) k caps v = k ((n, v) :: caps) EmptyString.
Proof.
  intros Hr Hrest Hk Hne Hv.
  pose proof (group_plus_run total n r p k caps v EmptyString Hr Hrest Hk Hne Hv) as H.
  now rewrite str_app_nil_r in H.
Qed.

(** An expression that starts with a literal ["<"] matches nowhere in a
    text without ["<"]; replacing its matches leaves such a text as it is. *)
Lemma search_no_lt total (p : string) (r : regex) (s : string) :
  startsWith p "<" = true ->
  count "<"%char s = 0 ->
  search total (Seq (lit p) r) s = None.
Proof.
  intros Hp. destruct p as [|a p]; [discriminate|].
  unfold startsWith in Hp. cbn [strip_prefix] in Hp.
  destruct (Ascii.eqb "<" a) eqn:Ea; [|discriminate].
  apply Ascii.eqb_eq in Ea. subst a. clear Hp.
  induction s as [|c s IH]; intros H.
  - cbn [search]. now rewrite rmatch_seq, rmatch_lit.
  - simpl in H. destruct (Ascii.eqb c "<") eqn:E; [discriminate|].
    rewrite search_skip.
    + now rewrite IH.
    + rewrite rmatch_seq, rmatch_lit. cbn [strip_prefix].
      rewrite Ascii.eqb_sym. now rewrite E.
Qed.

Lemma replace_all_no_lt (p : string) (r : regex) (tmpl : list piece) (s : string) :
  startsWith p "<" = true ->
  count "<"%char s = 0 ->
  replace_all (Seq (lit p) r) tmpl s = s.
Proof.
  intros Hp Hs. unfold replace_all, scan_all.
  now rewrite scan_stop by (now apply search_no_lt).
Qed.

End MatchFacts.

(** ** Display names *)

Module DisplayNameFacts.
Import JsString Regex Patterns Utils Spec Notions JsStringFacts RegexFacts MatchFacts.

(** What a match of the numeric-prefix pattern looks like: it spans the
    whole name, which is digits, a colon and a rest that is not empty; the
    second group holds the rest. *)
Lemma numeric_prefix_match total s caps rest :
  rmatch total numeric_prefix accept [] s = Some (caps, rest) ->
  String.length s = total
  /\ exists d r,
       s = d +:+ ":" +:+ r
       /\ is_empty d = false /\ all_chars is_digit d = true
       /\ is_empty r = false /\ cap caps 2 = Some r.
Proof.
  unfold numeric_prefix, seqs. rewrite rmatch_seq, rmatch_bol.
  destruct (String.length s =? total) eqn:Hlen; [|discriminate].
  apply Nat.eqb_eq in Hlen. rewrite rmatch_seq. unfold digit.
  intros H. apply group_plus_some in H.
  destruct H as (d & s1 & -> & Hd & Hne & H).
  rewrite rmatch_seq, rmatch_lit in H.
  destruct (strip_prefix ":" s1) as [r|] eqn:E; [|discriminate].
  apply strip_prefix_Some in E. subst s1.
  rewrite rmatch_seq, rmatch_group_eq in H.
  destruct r as [|c r]; [discriminate H|].
  apply rmatch_sound in H. destruct H as (caps' & rest' & H & _).
  rewrite rmatch_eol in H. destruct (is_empty rest') eqn:Hrest; [|discriminate].
  apply empty_string in Hrest. subst rest'.
  unfold accept in H. injection H as <- <-. rewrite consumed_nil.
  split; [exact Hlen|]. exists d, (String c r). now repeat split.
Qed.

Lemma exec_numeric_prefix (name : string) (m : found) :
  exec numeric_prefix name = Some m ->
  exists d r,
    name = d +:+ ":" +:+ r
    /\ is_empty d = false /\ all_chars is_digit d = true
    /\ is_empty r = false /\ group m 2 = Some r.
Proof.
  unfold exec. intros H. apply search_inv in H.
  destruct H as (s' & caps & rest & Hname & Hm & _ & Hg & _).
  apply numeric_prefix_match in Hm.
  destruct Hm as (Hlen & d & r & Hs' & Hd & Hdig & Hr & Hcap).
  assert (Hb : before m = EmptyString).
  { apply (f_equal String.length) in Hname. rewrite str_length_app in Hname.
    destruct (before m); [reflexivity | simpl in Hname; lia]. }
  rewrite Hb, str_app_nil_l in Hname. subst s'.
  exists d, r. unfold group. rewrite Hg. now repeat split.
Qed.

(** X1: [cleanDisplayName] returns [null] exactly on a name that is
    missing or empty; otherwise it returns a text that is not empty, and
    that is the name itself or what follows the colon of a name made of
    digits, a colon and more. *)
Theorem clean_name_is_name_or_rest (displayName : option string) :
  match cleanDisplayName displayName with
  | None => truthy displayName = None
  | Some r =>
      is_empty r = false
      /\ exists name,
           displayName = Some name
           /\ (r = name
               \/ exists d,
                    name = d +:+ ":" +:+ r
                    /\ is_empty d = false /\ all_chars is_digit d = true)
  end.
Proof.
  unfold cleanDisplayName.
  destruct (truthy displayName) as [name|] eqn:Ht; [|reflexivity].
  apply truthy_Some in Ht. destruct Ht as [-> Hne].
  destruct (exec numeric_prefix name) as [m|] eqn:E.
  - apply exec_numeric_prefix in E.
    destruct E as (d & r & Hname & Hd & Hdig & Hr & ->).
    split; [exact Hr|]. exists name. split; [reflexivity|].
    right. now exists d.
  - split; [exact Hne|]. exists name. split; [reflexivity | now left].
Qed.

Lemma digit_not_colon (c : ascii) : is_digit c = true -> Ascii.eqb ":" c = false.
Proof.
  destruct (Ascii.eqb ":" c) eqn:E; [|reflexivity].
  apply Ascii.eqb_eq in E. subst c. discriminate.
Qed.

(** [.] takes the first character of a text of one line, whatever comes
    after it, and leaves a text of one line. *)
Lemma dot_one_line total (c : ascii) (t : string) :
  one_line (String c t) = true ->
  exists t',
    (forall k caps, rmatch total dot k caps (String c t) = k caps t')
    /\ one_line t' = true
    /\ String.length t' < String.length (String c t).
Proof.
  cbn [one_line]. destruct (just (chr 10) c || just (chr 13) c) eqn:Hnl; [discriminate|].
  destruct (just (chr 226) c) eqn:H226.
  - destruct t as [|c1 r1]; [discriminate|].
    destruct (just (chr 128) c1) eqn:H128.
    + destruct r1 as [|c2 r2]; [discriminate|]. intros H.
      apply andb_prop in H. destruct H as [Hc2 Hr2].
      exists r2. split; [|split; [exact Hr2 | simpl; lia]].
      intros k caps. unfold dot. cbn [rmatch].
      rewrite Hnl, H226, H128, Hc2. cbn [orb negb]. now destruct (k caps r2).
    + intros Hr1. exists r1. split; [|split; [exact Hr1 | simpl; lia]].
      intros k caps. unfold dot. cbn [rmatch].
      rewrite Hnl, H226, H128. cbn [orb negb]. now destruct (k caps r1).
  - intros Ht. exists t. split; [|split; [exact Ht | simpl; lia]].
    intros k caps. unfold dot. cbn [rmatch].
    rewrite Hnl, H226. cbn [orb negb]. now destruct (k caps t).
Qed.

(** Greedy repetition of [.] runs to the end of a text of one line, when
    what follows matches at the end only. *)
Lemma star_dot_line total k caps :
  (forall c t, k caps (String c t) = None) ->
  forall fuel s,
    String.length s < fuel -> one_line s = true ->
    star_loop (rmatch total dot) true fuel k caps s = k caps EmptyString.
Proof.
  intros Hk. induction fuel as [|fuel IH]; intros s Hfuel Hs; [lia|].
  cbn [star_loop]. destruct s as [|c t]; [reflexivity|].
  destruct (dot_one_line total c t Hs) as (t' & Hdot & Ht' & Hlen).
  rewrite Hdot.
  replace (String.length t' <? String.length (String c t)) with true
    by (symmetry; now apply Nat.ltb_lt).
  rewrite IH by (trivial; lia).
  destruct (k caps EmptyString) as [o|]; [reflexivity | apply Hk].
Qed.

Lemma consumed_all (s : string) : consumed s EmptyString = s.
Proof.
  pose proof (consumed_app s EmptyString) as H. now rewrite str_app_nil_r in H.
Qed.

(** The pattern matches a name made of digits, a colon and a rest of one
    line, and its second group is the rest. *)
Lemma numeric_prefix_found (d r : string) :
  is_empty d = false -> all_chars is_digit d = true ->
  is_empty r = false -> one_line r = true ->
  exists m, exec numeric_prefix (d +:+ ":" +:+ r) = Some m /\ group m 2 = Some r.
Proof.
  intros Hd Hdig Hr Hline.
  set (name := d +:+ ":" +:+ r).
  assert (H : forall total, String.length name = total ->
              rmatch total numeric_prefix accept [] name
              = Some ([(2, r); (1, d)], EmptyString)).
  { intros total Htotal.
    unfold numeric_prefix, seqs. rewrite rmatch_seq, rmatch_bol.
    rewrite Htotal, Nat.eqb_refl. rewrite rmatch_seq. unfold digit, name.
    rewrite (group_plus_run _ 1 (Chr (between 48 57)) is_digit); trivial.
    - rewrite rmatch_seq, rmatch_lit, strip_prefix_self.
      rewrite rmatch_seq, rmatch_group_eq. unfold plus. rewrite rmatch_seq.
      destruct r as [|c t]; [discriminate|].
      destruct (dot_one_line total c t Hline) as (t' & Hdot & Ht' & Hlen).
      rewrite Hdot, rmatch_star_eq.
      rewrite star_dot_line;
        [now rewrite consumed_all | intros c' t''; reflexivity | lia | exact Ht'].
    - intros k' c t Hc. rewrite rmatch_chr. unfold is_digit in Hc. now rewrite Hc.
    - intros w c t Hc. rewrite rmatch_seq, rmatch_lit. cbn [strip_prefix].
      now rewrite (digit_not_colon c Hc). }
  exists (Found EmptyString (consumed name EmptyString) [(2, r); (1, d)] EmptyString).
  split; [|reflexivity].
  unfold exec. fold name. apply ThreadActivityFacts.search_here. now apply H.
Qed.

(** X2: a name made of digits, a colon and a non-empty rest of one line
    (a rest without line feed, carriage return, U+2028 and U+2029) loses the
    digits and the colon, whatever else the rest holds: of [8:live:ann] it
    keeps [live:ann]. *)
Theorem numeric_prefix_is_dropped (d r : string) :
  is_empty d = false -> all_chars is_digit d = true ->
  is_empty r = false -> one_line r = true ->
  cleanDisplayName (Some (d +:+ ":" +:+ r)) = Some r.
Proof.
  intros Hd Hdig Hr Hline.
  destruct (numeric_prefix_found d r Hd Hdig Hr Hline) as (m & Hm & Hg).
  unfold cleanDisplayName.
  assert (Ht : truthy (Some (d +:+ ":" +:+ r)) = Some (d +:+ ":" +:+ r)).
  { destruct d as [|c d]; [discriminate | reflexivity]. }
  now rewrite Ht, Hm.
Qed.

Lemma numeric_prefix_is_dropped_witness :
  is_empty "8" = false /\ all_chars is_digit "8" = true
  /\ is_empty "live:ann • home" = false /\ one_line "live:ann • home" = true
  /\ cleanDisplayName (Some "8:live:ann • home") = Some "live:ann • home".
Proof.
  repeat (split; [reflexivity|]).
  apply (numeric_prefix_is_dropped "8" "live:ann • home"); reflexivity.
Defined.

End DisplayNameFacts.

(** ** Media ids and file extensions *)

Module MediaFacts.
Import JsString Regex Json JsValue Patterns Utils Spec JsText Media Notions.
Import JsStringFacts RegexFacts MatchFacts.

(** The first group of each of the three patterns is made of id
    characters. *)
Lemma uriObjectPattern_match total s caps rest :
  rmatch total uriObjectPattern accept [] s = Some (caps, rest) ->
  exists v, cap caps 1 = Some v /\ all_chars id_char v = true.
Proof.
  unfold uriObjectPattern, seqs. rewrite rmatch_seq, rmatch_lit.
  destruct (strip_prefix "<URIObject" s) as [s1|]; [|discriminate].
  rewrite rmatch_seq. unfold star, not_gt. rewrite rmatch_star_eq.
  intros H. apply (star_chars total) in H. destruct H as (w & s2 & _ & _ & H).
  rewrite rmatch_seq, rmatch_lit in H.
  destruct (strip_prefix _ s2) as [s3|]; [|discriminate].
  rewrite rmatch_seq in H. unfold id_chars in H. apply group_plus_chars in H.
  destruct H as (v & s4 & _ & Hv & H).
  rewrite rmatch_lit in H. destruct (strip_prefix dq s4) as [s5|]; [|discriminate].
  unfold accept in H. injection H as <- _. exists v. now split.
Qed.

Lemma parameter_match total name s caps rest :
  rmatch total (seqs [Chr (one_of "?&"); lit name; Group 1 id_chars]) accept [] s
  = Some (caps, rest) ->
  exists v, cap caps 1 = Some v /\ all_chars id_char v = true.
Proof.
  unfold seqs. rewrite rmatch_seq. destruct s as [|c s1]; [discriminate|].
  rewrite rmatch_chr. destruct (one_of "?&" c); [|discriminate].
  rewrite rmatch_seq, rmatch_lit.
  destruct (strip_prefix name s1) as [s2|]; [|discriminate].
  unfold id_chars. intros H. apply group_plus_chars in H.
  destruct H as (v & s3 & _ & Hv & H).
  unfold accept in H. injection H as <- _. exists v. now split.
Qed.

Lemma first_group_id (r : regex) (content i : string) :
  (forall total s caps rest,
     rmatch total r accept [] s = Some (caps, rest) ->
     exists v, cap caps 1 = Some v /\ all_chars id_char v = true) ->
  truthy (match exec r content with Some m => group m 1 | None => None end) = Some i ->
  is_empty i = false /\ all_chars id_char i = true.
Proof.
  intros Hr H. apply truthy_Some in H. destruct H as [H Hne].
  split; [exact Hne|].
  destruct (exec r content) as [m|] eqn:E; [|discriminate].
  unfold exec in E.
  apply (search_whole _ r
           (fun _ caps => exists v, cap caps 1 = Some v /\ all_chars id_char v = true))
    in E.
  - destruct E as (v & Hv & Hid). unfold group in H. congruence.
  - intros s caps rest. apply Hr.
Qed.

Lemma extractMediaId_id (content i : string) :
  extractMediaId content = Some i ->
  is_empty i = false /\ all_chars id_char i = true.
Proof.
  unfold extractMediaId.
  destruct (truthy (match exec uriObjectPattern content with
                    | Some m => group m 1 | None => None end)) as [a|] eqn:Ea.
  { intros [= <-]. revert Ea. apply first_group_id.
    intros total. apply uriObjectPattern_match. }
  destruct (truthy (match exec picPattern content with
                    | Some m => group m 1 | None => None end)) as [b|] eqn:Eb.
  { intros [= <-]. revert Eb. apply first_group_id.
    intros total. apply parameter_match. }
  apply first_group_id. intros total. apply parameter_match.
Qed.

(** X3: a media id that [extractMediaId] returns is never empty and holds
    letters, digits and hyphens only, whichever of the three forms it is
    taken from. *)
Theorem media_id_is_well_formed (content i : string) :
  extractMediaId content = Some i ->
  is_empty i = false /\ all_chars id_char i = true.
Proof. apply extractMediaId_id. Qed.

Lemma media_id_is_well_formed_witness :
  extractMediaId "see https://x.example/y?a=1&pic=0-weu-d1-ab12'>" = Some "0-weu-d1-ab12"
  /\ is_empty "0-weu-d1-ab12" = false
  /\ all_chars id_char "0-weu-d1-ab12" = true.
Proof.
  assert (H : extractMediaId "see https://x.example/y?a=1&pic=0-weu-d1-ab12'>"
              = Some "0-weu-d1-ab12") by (vm_compute; reflexivity).
  split; [exact H|]. exact (media_id_is_well_formed _ _ H).
Defined.

(** *** File extensions *)

Lemma lastIndexOf_none (s : string) (c : ascii) :
  count c s = 0 -> lastIndexOf s c = None.
Proof.
  induction s as [|a s IH]; [reflexivity|]. simpl.
  destruct (Ascii.eqb a c); [discriminate|]. intros H. now rewrite IH.
Qed.

Lemma lastIndexOf_last (base ext : string) (c : ascii) :
  count c ext = 0 ->
  lastIndexOf (base +:+ String c ext) c = Some (String.length base).
Proof.
  intros H. induction base as [|a base IH].
  - rewrite str_app_nil_l. simpl. now rewrite (lastIndexOf_none ext c H), Ascii.eqb_refl.
  - rewrite str_app_cons. simpl. now rewrite IH.
Qed.

Lemma count_ascii_lower_dot (s : string) :
  count "."%char (ascii_lower s) = count "."%char s.
Proof.
  induction s as [|a s IH]; [reflexivity|]. simpl. rewrite IH. f_equal.
  unfold lower.
  destruct ((65 <=? nat_of_ascii a) && (nat_of_ascii a <=? 90)) eqn:E; [|reflexivity].
  apply andb_prop in E. destruct E as [E1 E2].
  apply Nat.leb_le in E1. apply Nat.leb_le in E2.
  destruct (Ascii.eqb a ".") eqn:Ea.
  { apply Ascii.eqb_eq in Ea. subst a. change (nat_of_ascii ".") with 46 in E1. lia. }
  destruct (Ascii.eqb (ascii_of_nat (nat_of_ascii a + 32)) ".") eqn:Eb; [|reflexivity].
  apply Ascii.eqb_eq in Eb. apply (f_equal nat_of_ascii) in Eb.
  rewrite nat_ascii_embedding in Eb by lia. change (nat_of_ascii ".") with 46 in Eb. lia.
Qed.

Lemma count_substring_from (n : nat) (s : string) (c : ascii) :
  lastIndexOf s c = Some n -> count c (substring_from (S n) s) = 0.
Proof.
  revert n. induction s as [|a s IH]; intros n; [discriminate|]. simpl.
  destruct (lastIndexOf s c) as [i|] eqn:E.
  - intros [= <-]. now apply IH.
  - destruct (Ascii.eqb a c); [|discriminate]. intros [= <-].
    clear IH. simpl.
    induction s as [|b s IHs]; [reflexivity|]. simpl in *.
    destruct (lastIndexOf s c); [discriminate|].
    destruct (Ascii.eqb b c); [discriminate|]. now apply IHs.
Qed.

Lemma is_ascii_substring_from (n : nat) (s : string) :
  is_ascii s = true -> is_ascii (substring_from n s) = true.
Proof.
  revert s. induction n as [|n IH]; intros s H; [now destruct s|].
  destruct s as [|a s]; [reflexivity|]. simpl in H.
  apply andb_prop in H. now apply IH.
Qed.

Section Names.

Variable lowerCase : string -> string.

Local Abbreviation toLowerCase := (JsString.toLowerCase lowerCase).
Local Abbreviation getFileExtension := (Media.getFileExtension lowerCase).

(** X4: the extension of a file name is what follows its last dot, in
    lower case: of [base.ext], where [ext] has no dot, it is [ext] in lower
    case, and a name without a dot has none.  The extension of any name is
    the lower case of a text without a dot, and the extension of an ASCII
    name holds no dot. *)
Theorem extension_follows_the_last_dot (base ext : string) :
  count "."%char ext = 0 ->
  getFileExtension (base +:+ "." +:+ ext) = toLowerCase ext
  /\ getFileExtension ext = EmptyString
  /\ forall filename,
       exists rest,
         count "."%char rest = 0
         /\ getFileExtension filename = toLowerCase rest
         /\ (is_ascii filename = true ->
             count "."%char (getFileExtension filename) = 0).
Proof.
  intros H. unfold Media.getFileExtension. split; [|split].
  - change ("." +:+ ext) with (String "." ext).
    rewrite (lastIndexOf_last base ext "." H).
    f_equal. clear H. induction base as [|a base IH]; [reflexivity|].
    rewrite str_app_cons. exact IH.
  - now rewrite (lastIndexOf_none ext "." H).
  - intros filename. destruct (lastIndexOf filename ".") as [n|] eqn:E.
    + exists (substring_from (S n) filename).
      split; [now apply count_substring_from|]. split; [reflexivity|].
      intros Hascii. unfold JsString.toLowerCase.
      rewrite (is_ascii_substring_from (S n) filename Hascii).
      rewrite count_ascii_lower_dot. now apply count_substring_from.
    + exists EmptyString. repeat split.
Qed.

End Names.

Lemma extension_follows_the_last_dot_witness :
  count "."%char "JPG" = 0
  /\ getFileExtension (fun s => s) "holiday.2019.JPG" = "jpg"
  /\ getFileExtension (fun s => s) "JPG" = EmptyString.
Proof.
  assert (H : count "."%char "JPG" = 0) by reflexivity.
  split; [exact H|].
  destruct (extension_follows_the_last_dot (fun s => s) "holiday.2019" "JPG" H)
    as (Ha & Hb & _).
  split; [exact Ha | exact Hb].
Defined.

(** *** Media files *)

Section Files.

Variable File : Type.
Variable file_text : File -> string.
Variable createObjectURL : File -> string.
Variable lowerCase : string -> string.

Local Abbreviation getFileExtension := (Media.getFileExtension lowerCase).
Local Abbreviation isImageExtension := (Media.isImageExtension lowerCase).
Local Abbreviation createMediaUrl := (Media.createMediaUrl File file_text createObjectURL lowerCase).

(** X5: when the metadata of a media id names a file whose extension is
    [jpg] or [jpeg], in any letter case, [createMediaUrl] returns the URL of
    the file stored under that spelling and, failing that, of the file stored
    under the other spelling. *)
Theorem jpeg_is_found_under_either_spelling
    (mediaId filename extension alt : string)
    (mediaFiles : gmap string File) (jsonFile : File) (metadata : json) :
  mediaFiles !! (mediaId +:+ ".json") = Some jsonFile ->
  parse (file_text jsonFile) = Some metadata ->
  field metadata "filename" = Some (JString filename) ->
  getFileExtension filename = extension ->
  (extension = "jpg" /\ alt = "jpeg") \/ (extension = "jpeg" /\ alt = "jpg") ->
  createMediaUrl mediaId mediaFiles =
    option_map createObjectURL
      (match mediaFiles !! (mediaId +:+ ".1." +:+ extension) with
       | Some f => Some f
       | None => mediaFiles !! (mediaId +:+ ".1." +:+ alt)
       end).
Proof.
  intros Hjson Hparse Hfield Hext Hspelling.
  unfold Media.createMediaUrl, getMediaMetadata. rewrite Hjson, Hparse.
  assert (Hobj : falsy metadata = false).
  { destruct metadata; try discriminate Hfield. reflexivity. }
  rewrite Hobj, Hfield. cbn [getFileExtension_of]. rewrite Hext.
  assert (Himg : isImageExtension "jpg" = true /\ isImageExtension "jpeg" = true)
    by (split; vm_compute; reflexivity).
  destruct Himg as [Hjpg Hjpeg].
  destruct Hspelling as [[-> ->] | [-> ->]].
  - rewrite Hjpg. reflexivity.
  - rewrite Hjpeg. reflexivity.
Qed.

End Files.

Lemma jpeg_is_found_under_either_spelling_witness :
  let mediaFiles : gmap string string :=
    {[ "m1.json" := quoted "{'filename':'IMG_01.JPG'}"; "m1.1.jpeg" := "picture" ]} in
  mediaFiles !! "m1.json" = Some (quoted "{'filename':'IMG_01.JPG'}")
  /\ getFileExtension (fun s => s) "IMG_01.JPG" = "jpg"
  /\ createMediaUrl string (fun f => f) (fun f => "blob:" +:+ f) (fun s => s) "m1" mediaFiles
     = Some "blob:picture".
Proof.
  intros mediaFiles.
  assert (H1 : mediaFiles !! ("m1" +:+ ".json") = Some (quoted "{'filename':'IMG_01.JPG'}"))
    by (vm_compute; reflexivity).
  assert (H2 : parse (quoted "{'filename':'IMG_01.JPG'}")
               = Some (JObject [("filename", JString "IMG_01.JPG")]))
    by (vm_compute; reflexivity).
  assert (H4 : getFileExtension (fun s => s) "IMG_01.JPG" = "jpg") by reflexivity.
  split; [exact H1|]. split; [exact H4|].
  rewrite (jpeg_is_found_under_either_spelling string (fun f => f) (fun f => "blob:" +:+ f)
             (fun s => s) "m1" "IMG_01.JPG" "jpg" "jpeg" mediaFiles _ _ H1 H2 eq_refl H4
             (or_introl (conj eq_refl eq_refl))).
  vm_compute. reflexivity.
Defined.

End MediaFacts.

(** ** Filtering and the indices of the matches *)

Module FilterFacts.
Import JsString Regex Patterns Search Spec Notions JsStringFacts RegexFacts MatchFacts.

Section Dom.

Variable document : option (string -> string).
Variable lowerCase : string -> string.

Local Abbreviation matches query :=
  (fun message : ProcessedMessage.t => messageMatchesSearch document lowerCase message query).

Lemma filter_matches_cons (query : string) (message : ProcessedMessage.t)
    (rest : list ProcessedMessage.t) :
  filter (matches query) (message :: rest)
  = if messageMatchesSearch document lowerCase message query
    then message :: filter (matches query) rest
    else filter (matches query) rest.
Proof.
  rewrite filter_cons.
  destruct (messageMatchesSearch document lowerCase message query) eqn:E;
    destruct (decide _) as [H|H]; trivial.
  - exfalso. apply H. exact I.
  - destruct H.
Qed.

(** The loop from [length pre] on, over what follows [pre]. *)
Lemma matching_from_spec (query : string) (messages : list ProcessedMessage.t) :
  forall pre : list ProcessedMessage.t,
    let indices := matching_from document lowerCase (length pre) messages query in
    omap (fun i => (pre ++ messages) !! i) indices = filter (matches query) messages
    /\ StronglySorted lt indices
    /\ Forall (fun i => length pre <= i < length (pre ++ messages)) indices.
Proof.
  induction messages as [|message rest IH]; intros pre; simpl.
  - repeat split; constructor.
  - assert (Hshift : pre ++ message :: rest = (pre ++ [message]) ++ rest)
      by now rewrite <- app_assoc.
    assert (Hlen : S (length pre) = length (pre ++ [message]))
      by (rewrite length_app; simpl; lia).
    specialize (IH (pre ++ [message])). rewrite <- Hlen, <- Hshift in IH.
    simpl in IH. destruct IH as (Hmap & Hsorted & Hrange).
    rewrite filter_matches_cons.
    destruct (messageMatchesSearch document lowerCase message query).
    + split; [|split].
      * change (omap ?f (?i :: ?l))
          with (match f i with Some y => y :: omap f l | None => omap f l end).
        cbv beta. rewrite (list_lookup_middle pre rest message (length pre) eq_refl).
        now rewrite Hmap.
      * constructor; [exact Hsorted|].
        eapply Forall_impl; [exact Hrange|]. simpl. intros; lia.
      * constructor; [rewrite length_app; simpl; lia|].
        eapply Forall_impl; [exact Hrange|]. simpl. intros; lia.
    + split; [exact Hmap|]. split; [exact Hsorted|].
      eapply Forall_impl; [exact Hrange|]. simpl. intros; lia.
Qed.

(** X6: for a query that is not blank, the indices
    [findMatchingMessageIndices] returns are strictly increasing positions of
    the list, and the messages at these positions are, in order, the
    messages [filterMessages] keeps. *)
Theorem indices_are_those_of_the_filtered (messages : list ProcessedMessage.t)
    (query : string) :
  is_empty (trim query) = false ->
  let indices := findMatchingMessageIndices document lowerCase messages query in
  omap (fun i => messages !! i) indices = filterMessages document lowerCase messages query
  /\ StronglySorted lt indices
  /\ Forall (fun i => i < length messages) indices.
Proof.
  intros Hquery. unfold findMatchingMessageIndices, filterMessages.
  rewrite Hquery. simpl.
  destruct (matching_from_spec query messages []) as (Hmap & Hsorted & Hrange).
  simpl in *. split; [exact Hmap|]. split; [exact Hsorted|].
  eapply Forall_impl; [exact Hrange|]. simpl. intros; lia.
Qed.

(** X7: [filterMessages] keeps messages in their order, keeps exactly
    those that match, and filtering its result again by the same query
    changes nothing. *)
Theorem filtering_twice_is_filtering_once (messages : list ProcessedMessage.t)
    (query : string) :
  let kept := filterMessages document lowerCase messages query in
  sublist kept messages
  /\ (forall message,
        message ∈ kept <->
        message ∈ messages /\ messageMatchesSearch document lowerCase message query = true)
  /\ filterMessages document lowerCase kept query = kept.
Proof.
  unfold filterMessages. simpl.
  destruct (is_empty (trim query)) eqn:Hquery.
  - split; [reflexivity|]. split; [|reflexivity].
    intros message. unfold messageMatchesSearch. rewrite Hquery. tauto.
  - split; [apply sublist_filter|]. split.
    + intros message. rewrite list_elem_of_filter, Is_true_true. tauto.
    + rewrite list_filter_filter. apply list_filter_iff. intros message. tauto.
Qed.

End Dom.

Lemma indices_are_those_of_the_filtered_witness :
  is_empty (trim "LL") = false
  /\ findMatchingMessageIndices None (fun s => s) [sample_message; sample_message] "LL" = [0; 1]
  /\ filterMessages None (fun s => s) [sample_message; sample_message] "LL"
     = [sample_message; sample_message].
Proof.
  assert (H : is_empty (trim "LL") = false) by reflexivity.
  split; [exact H|].
  destruct (indices_are_those_of_the_filtered None (fun s => s) [sample_message; sample_message]
              "LL" H) as (Hmap & _ & _).
  split; [vm_compute; reflexivity|]. rewrite <- Hmap. vm_compute. reflexivity.
Defined.

End FilterFacts.

(** ** Letter case in a search *)

Module CaseFacts.
Import JsString Regex Patterns Search Spec Notions JsStringFacts.

Lemma lower_upper_letter (c : ascii) :
  (65 <=? nat_of_ascii c) && (nat_of_ascii c <=? 90) = true ->
  nat_of_ascii (lower c) = nat_of_ascii c + 32.
Proof.
  intros H. unfold lower. rewrite H.
  apply andb_prop in H. destruct H as [H1 H2].
  apply Nat.leb_le in H1. apply Nat.leb_le in H2.
  apply nat_ascii_embedding. lia.
Qed.

Lemma lower_eqb (b c : ascii) :
  caseless b = true -> Ascii.eqb b (lower c) = Ascii.eqb b c.
Proof.
  intros Hb. unfold caseless, between in Hb. apply negb_true_iff in Hb.
  apply orb_false_elim in Hb. destruct Hb as [Hu Hl].
  destruct ((65 <=? nat_of_ascii c) && (nat_of_ascii c <=? 90)) eqn:E.
  - pose proof (lower_upper_letter c E) as Hlow.
    apply andb_prop in E. destruct E as [E1 E2].
    apply Nat.leb_le in E1. apply Nat.leb_le in E2.
    destruct (Ascii.eqb b (lower c)) eqn:E3.
    + apply Ascii.eqb_eq in E3. subst b. rewrite Hlow in Hl.
      apply andb_false_iff in Hl. destruct Hl as [Hl|Hl];
        [apply Nat.leb_gt in Hl | apply Nat.leb_gt in Hl]; lia.
    + destruct (Ascii.eqb b c) eqn:E4; [|reflexivity].
      apply Ascii.eqb_eq in E4. subst b.
      apply andb_false_iff in Hu. destruct Hu as [Hu|Hu];
        [apply Nat.leb_gt in Hu | apply Nat.leb_gt in Hu]; lia.
  - unfold lower. now rewrite E.
Qed.

Lemma lower_idem (c : ascii) : lower (lower c) = lower c.
Proof.
  destruct ((65 <=? nat_of_ascii c) && (nat_of_ascii c <=? 90)) eqn:E.
  - pose proof (lower_upper_letter c E) as Hlow.
    apply andb_prop in E. destruct E as [E1 E2].
    apply Nat.leb_le in E1. apply Nat.leb_le in E2.
    unfold lower at 1. rewrite Hlow.
    replace (nat_of_ascii c + 32 <=? 90) with false
      by (symmetry; apply Nat.leb_gt; lia).
    now rewrite andb_false_r.
  - unfold lower at 2. rewrite E. unfold lower. now rewrite E.
Qed.

Lemma ascii_lower_idem (s : string) : ascii_lower (ascii_lower s) = ascii_lower s.
Proof.
  induction s as [|c s IH]; [reflexivity|]. simpl. now rewrite lower_idem, IH.
Qed.

Lemma ascii_lower_length (s : string) :
  String.length (ascii_lower s) = String.length s.
Proof. induction s as [|c s IH]; [reflexivity|]. simpl. now rewrite IH. Qed.

Lemma ascii_lower_empty (s : string) : is_empty (ascii_lower s) = is_empty s.
Proof. now destruct s. Qed.

Lemma strip_prefix_lower (w s : string) :
  all_chars caseless w = true ->
  strip_prefix w (ascii_lower s) = option_map ascii_lower (strip_prefix w s).
Proof.
  revert s. induction w as [|b w IH]; intros s Hw; [reflexivity|].
  simpl in Hw. apply andb_prop in Hw. destruct Hw as [Hb Hw].
  destruct s as [|c s]; [reflexivity|]. simpl.
  rewrite (lower_eqb b c Hb). destruct (Ascii.eqb b c); [now apply IH | reflexivity].
Qed.

Lemma strip_one_lower (ws : list string) (s : string) :
  forallb (all_chars caseless) ws = true ->
  strip_one ws (ascii_lower s) = option_map ascii_lower (strip_one ws s).
Proof.
  induction ws as [|w ws IH]; intros Hws; [reflexivity|].
  simpl in Hws. apply andb_prop in Hws. destruct Hws as [Hw Hws].
  simpl. rewrite (strip_prefix_lower w s Hw).
  destruct (strip_prefix w s); [reflexivity | now apply IH].
Qed.

Lemma strip_leading_lower (ws : list string) (fuel : nat) (s : string) :
  forallb (all_chars caseless) ws = true ->
  strip_leading ws fuel (ascii_lower s) = ascii_lower (strip_leading ws fuel s).
Proof.
  intros Hws. revert s. induction fuel as [|fuel IH]; intros s; [reflexivity|].
  simpl. rewrite (strip_one_lower ws s Hws).
  destruct (strip_one ws s); [apply IH | reflexivity].
Qed.

Lemma rev_onto_lower (s acc : string) :
  rev_onto (ascii_lower s) (ascii_lower acc) = ascii_lower (rev_onto s acc).
Proof.
  revert acc. induction s as [|c s IH]; intros acc; [reflexivity|].
  simpl. apply (IH (String c acc)).
Qed.

Lemma rev_lower (s : string) : rev (ascii_lower s) = ascii_lower (rev s).
Proof. apply (rev_onto_lower s EmptyString). Qed.

Lemma trim_lower (s : string) : trim (ascii_lower s) = ascii_lower (trim s).
Proof.
  assert (Hws : forallb (all_chars caseless) white_space = true)
    by (vm_compute; reflexivity).
  assert (Hrev : forallb (all_chars caseless) (map rev white_space) = true)
    by (vm_compute; reflexivity).
  unfold trim, trimStart, trimEnd.
  rewrite ascii_lower_length, (strip_leading_lower _ _ _ Hws).
  rewrite ascii_lower_length, rev_lower, (strip_leading_lower _ _ _ Hrev).
  apply rev_lower.
Qed.

Section Dom.

Variable document : option (string -> string).
Variable lowerCase : string -> string.

(** X8: whether a message matches depends on the query up to letter case
    only: two queries with the same lower-case form, both blank or both not
    (as two ASCII queries with the same lower-case form always are), select
    the same messages, whatever the messages hold. *)
Theorem search_ignores_the_case_of_the_query (message : ProcessedMessage.t)
    (query query' : string) :
  toLowerCase lowerCase query = toLowerCase lowerCase query' ->
  is_ascii query && is_ascii query' = true
  \/ is_empty (trim query) = is_empty (trim query') ->
  messageMatchesSearch document lowerCase message query
  = messageMatchesSearch document lowerCase message query'.
Proof.
  intros H Hblank.
  assert (E : is_empty (trim query) = is_empty (trim query')).
  { destruct Hblank as [Hascii | E]; [|exact E].
    apply andb_prop in Hascii. destruct Hascii as [Hq Hq'].
    unfold toLowerCase in H. rewrite Hq, Hq' in H.
    rewrite <- (ascii_lower_empty (trim query)), <- (ascii_lower_empty (trim query')).
    rewrite <- !trim_lower. now rewrite H. }
  unfold messageMatchesSearch. cbv zeta. now rewrite E, H.
Qed.

End Dom.

Lemma search_ignores_the_case_of_the_query_witness :
  let lowerCase := fun s : string => if String.eqb s "CAFÉ" then "café" else s in
  toLowerCase lowerCase "CAFÉ" = toLowerCase lowerCase "café"
  /\ is_empty (trim "CAFÉ") = is_empty (trim "café")
  /\ messageMatchesSearch None lowerCase cafe_message "café" = true
  /\ messageMatchesSearch None lowerCase cafe_message "CAFÉ" = true.
Proof.
  intros lowerCase.
  assert (H : toLowerCase lowerCase "CAFÉ" = toLowerCase lowerCase "café") by reflexivity.
  assert (E : is_empty (trim "CAFÉ") = is_empty (trim "café")) by reflexivity.
  split; [exact H|]. split; [exact E|].
  rewrite (search_ignores_the_case_of_the_query None lowerCase cafe_message
             "CAFÉ" "café" H (or_intror E)).
  split; vm_compute; reflexivity.
Defined.

End CaseFacts.

(** ** Stripping tags *)

Module StripFacts.
Import JsString Regex Patterns Search Spec Notions JsStringFacts RegexFacts MatchFacts.
Import ThreadActivityFacts.

Lemma none_of_gt (c : ascii) : none_of ">" c = negb (Ascii.eqb ">" c).
Proof.
  unfold none_of, one_of. cbn [includes]. unfold startsWith. cbn [strip_prefix].
  rewrite Ascii.eqb_sym. now destruct (Ascii.eqb ">" c).
Qed.

Lemma includes_gt (c : ascii) (s : string) :
  includes (String c s) ">" = Ascii.eqb ">" c || includes s ">".
Proof.
  cbn [includes]. unfold startsWith. cbn [strip_prefix].
  now destruct (Ascii.eqb ">" c).
Qed.

(** After the characters other than [">"], a [">"] follows exactly when
    the text holds one. *)
Lemma gt_after_run (s : string) :
  match strip_prefix ">" (skip_while (none_of ">") s) with
  | Some _ => true
  | None => false
  end = includes s ">".
Proof.
  induction s as [|c s IH]; [reflexivity|].
  rewrite includes_gt. cbn [skip_while]. rewrite none_of_gt.
  destruct (Ascii.eqb ">" c) eqn:E; cbn [negb orb].
  - cbn [strip_prefix]. now rewrite E.
  - exact IH.
Qed.

Lemma skip_while_length (p : ascii -> bool) (s : string) :
  String.length (skip_while p s) <= String.length s.
Proof.
  induction s as [|c s IH]; [reflexivity|]. simpl.
  destruct (p c); simpl; lia.
Qed.

(** The tag pattern at the head of a text: a ["<"], then everything up to
    the first [">"]. *)
Lemma any_tag_match total (s : string) :
  rmatch total any_tag accept [] s =
    match s with
    | String c s1 =>
        if Ascii.eqb "<" c then
          match strip_prefix ">" (skip_while (none_of ">") s1) with
          | Some rest => Some ([], rest)
          | None => None
          end
        else None
    | EmptyString => None
    end.
Proof.
  unfold any_tag, seqs. rewrite rmatch_seq, rmatch_lit.
  destruct s as [|c s1]; [reflexivity|]. cbn [strip_prefix].
  destruct (Ascii.eqb "<" c); [|reflexivity].
  rewrite rmatch_seq. unfold star, not_gt. rewrite rmatch_star_eq.
  rewrite star_greedy.
  - now rewrite rmatch_lit.
  - intros a t Ha. rewrite rmatch_lit. cbn [strip_prefix].
    rewrite none_of_gt in Ha. apply negb_true_iff in Ha. now rewrite Ha.
  - lia.
Qed.

Lemma any_tag_rest total (s : string) caps rest :
  rmatch total any_tag accept [] s = Some (caps, rest) ->
  String.length rest < String.length s.
Proof.
  rewrite any_tag_match. destruct s as [|c s1]; [discriminate|].
  destruct (Ascii.eqb "<" c); [|discriminate].
  destruct (strip_prefix ">" (skip_while (none_of ">") s1)) as [r|] eqn:E;
    [|discriminate].
  intros [= _ <-]. apply strip_prefix_Some in E.
  pose proof (skip_while_length (none_of ">") s1) as Hlen.
  rewrite E in Hlen. rewrite str_length_app in Hlen. simpl in *. lia.
Qed.

Lemma search_no_gt total (s : string) :
  includes s ">" = false -> search total any_tag s = None.
Proof.
  induction s as [|c s IH]; intros H; [reflexivity|].
  rewrite includes_gt in H. apply orb_false_elim in H. destruct H as [_ H].
  rewrite search_skip.
  - now rewrite IH.
  - rewrite any_tag_match. destruct (Ascii.eqb "<" c); [|reflexivity].
    pose proof (gt_after_run s) as Hrun. rewrite H in Hrun.
    now destruct (strip_prefix ">" (skip_while (none_of ">") s)).
Qed.

(** The pattern matches somewhere exactly when some ["<"] is followed by a
    [">"]. *)
Lemma search_tag_free total (s : string) :
  search total any_tag s = None <-> tag_free s = true.
Proof.
  induction s as [|c s IH]; [now split|].
  cbn [tag_free]. rewrite (Ascii.eqb_sym c "<").
  destruct (Ascii.eqb "<" c) eqn:Ec.
  - pose proof (gt_after_run s) as Hrun.
    destruct (includes s ">") eqn:Hgt; cbn [negb].
    + split; [|discriminate]. intros H. apply search_none_cons in H.
      destruct H as [H _]. rewrite any_tag_match, Ec in H.
      now destruct (strip_prefix ">" (skip_while (none_of ">") s)).
    + split; [reflexivity|]. intros _. rewrite search_skip.
      * now rewrite search_no_gt.
      * rewrite any_tag_match, Ec.
        now destruct (strip_prefix ">" (skip_while (none_of ">") s)).
  - rewrite search_skip by (now rewrite any_tag_match, Ec).
    rewrite <- IH. destruct (search total any_tag s); simpl; split; congruence.
Qed.

(** A match leaves no ["<"] before it, is not empty, and leaves less than
    the text after it. *)
Lemma search_any_tag total (s : string) (f : found) :
  search total any_tag s = Some f ->
  count "<"%char (before f) = 0
  /\ is_empty (whole f) = false
  /\ String.length (after f) < String.length s.
Proof.
  revert f. induction s as [|c s IH]; intros f.
  - cbn [search]. rewrite any_tag_match. discriminate.
  - destruct (rmatch total any_tag accept [] (String c s)) as [[caps rest]|] eqn:E.
    + rewrite (search_here _ _ _ _ _ E). intros [= <-]. simpl.
      pose proof (any_tag_rest _ _ _ _ E) as Hlen.
      split; [reflexivity|]. split; [|exact Hlen].
      unfold consumed. simpl in Hlen.
      destruct (String.length (String c s) - String.length rest) eqn:En;
        [simpl in En; lia | reflexivity].
    + rewrite (search_skip _ _ _ _ E).
      destruct (search total any_tag s) as [g|] eqn:Eg; [|discriminate].
      intros [= <-]. destruct (IH g eq_refl) as (Hb & Hw & Ha).
      simpl. split; [|split; [exact Hw | lia]].
      destruct (Ascii.eqb c "<") eqn:Ec; [|exact Hb].
      exfalso. rewrite any_tag_match, Ascii.eqb_sym, Ec in E.
      pose proof (gt_after_run s) as Hrun.
      destruct (strip_prefix ">" (skip_while (none_of ">") s)); [discriminate|].
      symmetry in Hrun. rewrite (search_no_gt total s Hrun) in Eg. discriminate.
Qed.

Lemma tag_free_app (b x : string) :
  count "<"%char b = 0 -> tag_free (b +:+ x) = tag_free x.
Proof.
  induction b as [|c b IH]; [reflexivity|].
  rewrite str_app_cons. simpl. destruct (Ascii.eqb c "<"); [discriminate|].
  exact IH.
Qed.

(** Removing the matches one after the other leaves a text in which the
    pattern matches nowhere. *)
Lemma scan_tag_free total :
  forall fuel s,
    String.length s < fuel ->
    tag_free (rebuild [] (fst (scan fuel total any_tag s))
                         (snd (scan fuel total any_tag s))) = true.
Proof.
  induction fuel as [|fuel IH]; intros s Hfuel; [lia|].
  destruct (search total any_tag s) as [f|] eqn:E.
  - destruct (search_any_tag _ _ _ E) as (Hb & Hw & Ha).
    rewrite (scan_step _ _ _ _ _ E Hw). cbn [fst snd rebuild expand].
    rewrite str_app_nil_l, tag_free_app by exact Hb.
    apply IH. lia.
  - rewrite scan_stop by exact E. simpl. now apply search_tag_free in E.
Qed.

Lemma replace_all_tag_free (s : string) :
  tag_free (replace_all any_tag [] s) = true.
Proof.
  unfold replace_all, scan_all.
  pose proof (scan_tag_free (String.length s) (S (String.length s)) s
                (Nat.lt_succ_diag_r _)) as H.
  now destruct (scan _ _ any_tag s).
Qed.

Lemma replace_all_fixed (s : string) :
  tag_free s = true -> replace_all any_tag [] s = s.
Proof.
  intros H. unfold replace_all, scan_all.
  apply (search_tag_free (String.length s)) in H.
  now rewrite scan_stop.
Qed.

(** X9: without a host document, the text [stripHtmlForSearch] returns
    holds no ["<"] that is followed by a [">"]: the tag pattern matches
    nowhere in it, and stripping it again changes nothing. *)
Theorem stripped_text_has_no_tag (html : string) :
  let stripped := stripHtmlForSearch None html in
  tag_free stripped = true
  /\ test any_tag stripped = false
  /\ stripHtmlForSearch None stripped = stripped.
Proof.
  simpl.
  assert (H : tag_free (stripHtmlForSearch None html) = true).
  { unfold stripHtmlForSearch. destruct (is_empty html); [reflexivity|].
    apply replace_all_tag_free. }
  split; [exact H|]. split.
  - unfold test, exec.
    apply (search_tag_free (String.length (stripHtmlForSearch None html))) in H.
    now rewrite H.
  - unfold stripHtmlForSearch at 1.
    destruct (is_empty (stripHtmlForSearch None html)) eqn:E.
    + symmetry. now apply empty_string.
    + now apply replace_all_fixed.
Qed.

End StripFacts.

(** ** The pass as a whole *)

Module PassFacts.
Import JsString Regex Json JsNumber Patterns Utils Processor Spec Notions.
Import JsStringFacts ProcessorFacts MediaFacts.

Section Pipeline.

Variables parseSkypeEmoji sanitize lowerCase : string -> string.

Local Abbreviation parseMessageContent := (Processor.parseMessageContent parseSkypeEmoji sanitize).
Local Abbreviation handleTranslation := (Processor.handleTranslation parseSkypeEmoji sanitize).
Local Abbreviation handleMediaMessage := (Processor.handleMediaMessage parseSkypeEmoji sanitize lowerCase).
Local Abbreviation processMessage := (Processor.processMessage parseSkypeEmoji sanitize lowerCase).
Local Abbreviation process_loop := (Processor.process_loop parseSkypeEmoji sanitize lowerCase).
Local Abbreviation processMessages_state := (Processor.processMessages_state parseSkypeEmoji sanitize lowerCase).
Local Abbreviation processMessages := (Processor.processMessages parseSkypeEmoji sanitize lowerCase).

(** *** Loading more *)

Lemma process_loop_more context (messages : list Message.t) :
  forall n m skipIds,
    n <= m ->
    exists more,
      fst (process_loop context m messages skipIds)
      = fst (process_loop context n messages skipIds) ++ more.
Proof.
  induction messages as [|message rest IH]; intros n m skipIds Hnm.
  - exists []. now destruct n, m.
  - destruct n as [|n]; [simpl; eauto|].
    destruct m as [|m]; [lia|]. cbn [Processor.process_loop].
    destruct (decide (Message.id message ∈ skipIds)).
    + apply IH. lia.
    + destruct (processMessage message (head rest) context skipIds)
        as [processed skipIds1].
      destruct (IH n m skipIds1 ltac:(lia)) as [more Hmore].
      destruct (process_loop context n rest skipIds1) as [out1 s1].
      destruct (process_loop context m rest skipIds1) as [out2 s2].
      simpl in *. exists more. rewrite Hmore. now destruct processed.
Qed.

Lemma endIndex_mono (a b : Z) (length : nat) :
  (0 < a <= b)%Z ->
  endIndex (Some a) length <= endIndex (Some b) length
  /\ endIndex (Some a) length <= endIndex None length.
Proof.
  intros H. unfold endIndex.
  destruct a as [|a|a]; try lia. destruct b as [|b|b]; lia.
Qed.

(** X10: raising the bound on the number of records only appends to the
    output: what the pass gives for a bound is a prefix of what it gives for
    any greater bound, and of what it gives without a bound. *)
Theorem a_greater_bound_only_appends (messages : list Message.t) (userId : string)
    (swapRoles mediaFiles : bool) (a b : Z) :
  (0 < a <= b)%Z ->
  (exists more,
     processMessages messages userId swapRoles mediaFiles (Some b)
     = processMessages messages userId swapRoles mediaFiles (Some a) ++ more)
  /\ (exists more,
        processMessages messages userId swapRoles mediaFiles None
        = processMessages messages userId swapRoles mediaFiles (Some a) ++ more).
Proof.
  intros H. destruct (endIndex_mono a b (length messages) H) as [Hb Hall].
  unfold Processor.processMessages, Processor.processMessages_state.
  split; apply process_loop_more; assumption.
Qed.

(** *** Distinct ids *)

Lemma handleTranslation_emits message next context skipIds r skipIds1 :
  handleTranslation message next context skipIds = (r, skipIds1) ->
  forall p, r = Some p ->
    ProcessedMessage.id p = Message.id message
    \/ exists R, richText next = Some R /\ ProcessedMessage.id p = Message.id R
                 /\ skipIds1 = {[ Message.id R ]} ∪ skipIds.
Proof.
  unfold Processor.handleTranslation.
  destruct (String.eqb _ _).
  - destruct (richText next) as [R|] eqn:E.
    + intros [= <- <-] p [= <-]. right. now exists R.
    + intros [= <- <-] p [= <-]. now left.
  - intros [= <- <-] p [= <-]. now left.
Qed.

Lemma processMessage_emits message next context skipIds r skipIds1 :
  processMessage message next context skipIds = (r, skipIds1) ->
  forall p, r = Some p ->
    ProcessedMessage.id p = Message.id message
    \/ exists R, richText next = Some R /\ ProcessedMessage.id p = Message.id R
                 /\ skipIds1 = {[ Message.id R ]} ∪ skipIds.
Proof.
  unfold Processor.processMessage.
  repeat
    match goal with
    | |- context [decide ?P] => destruct (decide P)
    | |- context [if ?b then _ else _] => destruct b eqn:?
    | |- context [match truthy ?o with _ => _ end] => destruct (truthy o)
    end;
    try apply handleTranslation_emits;
    intros [= <- <-] p [= <-]; left;
    try reflexivity; apply handleMediaMessage_id.
Qed.

Lemma process_loop_nodup context (messages : list Message.t) :
  NoDup (map Message.id messages) ->
  forall n skipIds,
    NoDup (map ProcessedMessage.id (fst (process_loop context n messages skipIds))).
Proof.
  induction messages as [|message rest IH]; intros Hdup n skipIds.
  - destruct n; constructor.
  - destruct n as [|n]; [constructor|].
    cbn [map] in Hdup. apply NoDup_cons in Hdup. destruct Hdup as [Hfresh Hdup].
    cbn [Processor.process_loop].
    destruct (decide (Message.id message ∈ skipIds)); [now apply IH|].
    destruct (processMessage message (head rest) context skipIds)
      as [processed skipIds1] eqn:E.
    pose proof (processMessage_emits _ _ _ _ _ _ E) as Hp.
    pose proof (IH Hdup n skipIds1) as Hout.
    pose proof (proj1 (process_loop_ids parseSkypeEmoji sanitize lowerCase context rest n skipIds1))
      as Hids.
    destruct (process_loop context n rest skipIds1) as [out skipIds2] eqn:Eloop.
    simpl in *. destruct processed as [p|]; [|exact Hout].
    cbn [map]. apply NoDup_cons. split; [|exact Hout].
    intros Hin. apply list_elem_of_fmap in Hin. destruct Hin as (q & Hq & Hqin).
    rewrite Forall_forall in Hids. specialize (Hids q Hqin). rewrite <- Hq in Hids.
    destruct (Hp p eq_refl) as [Hid | (R & HR & Hid & Hskip)].
    + rewrite Hid in Hids. contradiction.
    + apply richText_head in HR. destruct HR as [rest' ->].
      cbn [map] in Hdup. apply NoDup_cons in Hdup. destruct Hdup as [HR _].
      destruct n as [|n]; [simpl in Eloop; injection Eloop as <- _; inversion Hqin|].
      cbn [Processor.process_loop] in Eloop.
      destruct (decide (Message.id R ∈ skipIds1)) as [_|Hout']; [|set_solver].
      pose proof (proj1 (process_loop_ids parseSkypeEmoji sanitize lowerCase context rest' n skipIds1))
        as Hids'.
      rewrite Eloop in Hids'. simpl in Hids'.
      rewrite Forall_forall in Hids'. specialize (Hids' q Hqin).
      rewrite <- Hq, Hid in Hids'. contradiction.
Qed.

(** X11: when the records have pairwise distinct ids, so have the messages
    of the output, although a translated message of the viewer is shown under
    the id of the record that follows it. *)
Theorem distinct_ids_stay_distinct (messages : list Message.t) (userId : string)
    (swapRoles mediaFiles : bool) (maxMessages : option Z) :
  NoDup (map Message.id messages) ->
  NoDup (map ProcessedMessage.id
           (processMessages messages userId swapRoles mediaFiles maxMessages)).
Proof.
  intros H. unfold Processor.processMessages, Processor.processMessages_state.
  now apply process_loop_nodup.
Qed.

(** *** Nothing else is lost *)

Lemma processMessage_ordinary message next context skipIds :
  Message.id message ∉ skipIds ->
  Message.messagetype message <> "Translation" ->
  Message.messagetype message <> "RichText/Media_Album" ->
  startsWith (Message.messagetype message) "ThreadActivity" = false ->
  exists p,
    processMessage message next context skipIds = (Some p, skipIds)
    /\ ProcessedMessage.id p = Message.id message.
Proof.
  intros Hout Ht Ha Hthread.
  apply String.eqb_neq in Ht. apply String.eqb_neq in Ha.
  unfold Processor.processMessage.
  destruct (decide _); [contradiction|]. rewrite Ht, Ha, Hthread.
  repeat
    match goal with
    | |- context [if ?b then _ else _] => destruct b eqn:?
    end;
    eexists; (split; [reflexivity|]); try reflexivity; apply handleMediaMessage_id.
Qed.

Lemma process_loop_ordinary context (messages : list Message.t) :
  Forall (fun message =>
            Message.messagetype message <> "Translation"
            /\ Message.messagetype message <> "RichText/Media_Album"
            /\ startsWith (Message.messagetype message) "ThreadActivity" = false)
         messages ->
  forall n,
    map ProcessedMessage.id (fst (process_loop context n messages ∅))
    = map Message.id (firstn n messages)
    /\ snd (process_loop context n messages ∅) = ∅.
Proof.
  induction 1 as [|message rest (Ht & Ha & Hthread) _ IH]; intros n.
  - destruct n; now split.
  - destruct n as [|n]; [now split|].
    cbn [Processor.process_loop firstn map].
    destruct (decide (Message.id message ∈ (∅ : gset string))) as [Hin|Hout];
      [set_solver|].
    destruct (processMessage_ordinary message (head rest) context ∅ Hout Ht Ha Hthread)
      as (p & -> & Hid).
    destruct (IH n) as [Hids Hskip].
    destruct (process_loop context n rest ∅) as [out skipIds].
    simpl in *. now rewrite Hid, Hids.
Qed.

(** X30: when no record is of type [Translation] or
    [RichText/Media_Album] or of a type that starts with [ThreadActivity],
    every record within the bound is shown, once and in order: the ids of the
    output are the ids of the first records, as many as the bound allows. *)
Theorem ordinary_records_are_all_shown (messages : list Message.t) (userId : string)
    (swapRoles mediaFiles : bool) (maxMessages : option Z) :
  Forall (fun message =>
            Message.messagetype message <> "Translation"
            /\ Message.messagetype message <> "RichText/Media_Album"
            /\ startsWith (Message.messagetype message) "ThreadActivity" = false)
         messages ->
  map ProcessedMessage.id
      (processMessages messages userId swapRoles mediaFiles maxMessages)
  = map Message.id (firstn (endIndex maxMessages (length messages)) messages).
Proof.
  intros H. unfold Processor.processMessages, Processor.processMessages_state.
  now apply process_loop_ordinary.
Qed.

End Pipeline.

Lemma ordinary_records_are_all_shown_witness :
  Forall (fun message =>
            Message.messagetype message <> "Translation"
            /\ Message.messagetype message <> "RichText/Media_Album"
            /\ startsWith (Message.messagetype message) "ThreadActivity" = false)
         [own_original; alert_notice; later_text]
  /\ map ProcessedMessage.id
       (processMessages (fun s => s) (fun s => s) (fun s => s)
          [own_original; alert_notice; later_text] "8:me" false false (Some 2%Z))
     = ["m2"; "n1"].
Proof.
  assert (H : Forall (fun message =>
                        Message.messagetype message <> "Translation"
                        /\ Message.messagetype message <> "RichText/Media_Album"
                        /\ startsWith (Message.messagetype message) "ThreadActivity" = false)
                     [own_original; alert_notice; later_text]).
  { repeat constructor; discriminate. }
  split; [exact H|].
  exact (ordinary_records_are_all_shown (fun s => s) (fun s => s) (fun s => s)
           [own_original; alert_notice; later_text] "8:me" false false (Some 2%Z) H).
Defined.

Lemma a_greater_bound_only_appends_witness :
  (0 < 1 <= 2)%Z
  /\ (exists more,
        processMessages (fun s => s) (fun s => s) (fun s => s)
          [own_translation; own_original; later_text] "8:ann" false false (Some 2%Z)
        = processMessages (fun s => s) (fun s => s) (fun s => s)
            [own_translation; own_original; later_text] "8:ann" false false (Some 1%Z)
          ++ more)
  /\ (exists more,
        processMessages (fun s => s) (fun s => s) (fun s => s)
          [own_translation; own_original; later_text] "8:ann" false false None
        = processMessages (fun s => s) (fun s => s) (fun s => s)
            [own_translation; own_original; later_text] "8:ann" false false (Some 1%Z)
          ++ more).
Proof.
  assert (H : (0 < 1 <= 2)%Z) by lia.
  split; [exact H|].
  exact (a_greater_bound_only_appends (fun s => s) (fun s => s) (fun s => s)
           [own_translation; own_original; later_text] "8:ann" false false 1 2 H).
Defined.

Lemma distinct_ids_stay_distinct_witness :
  NoDup (map Message.id [own_translation; own_original; later_text])
  /\ NoDup (map ProcessedMessage.id
              (processMessages (fun s => s) (fun s => s) (fun s => s)
                 [own_translation; own_original; later_text] "8:me" false false None)).
Proof.
  assert (H : NoDup (map Message.id [own_translation; own_original; later_text])).
  { apply (bool_decide_unpack _). vm_compute. exact I. }
  split; [exact H|].
  exact (distinct_ids_stay_distinct (fun s => s) (fun s => s) (fun s => s)
           [own_translation; own_original; later_text] "8:me" false false None H).
Defined.

End PassFacts.

(** ** The two perspectives *)

Module PerspectiveFacts.
Import JsString Regex Json JsNumber Patterns Utils Processor Spec Notions.
Import JsStringFacts ProcessorFacts MediaFacts.

Section Pipeline.

Variables parseSkypeEmoji sanitize lowerCase : string -> string.

Local Abbreviation parseMessageContent := (Processor.parseMessageContent parseSkypeEmoji sanitize).
Local Abbreviation handleTranslation := (Processor.handleTranslation parseSkypeEmoji sanitize).
Local Abbreviation handleMediaMessage := (Processor.handleMediaMessage parseSkypeEmoji sanitize lowerCase).
Local Abbreviation processMessage := (Processor.processMessage parseSkypeEmoji sanitize lowerCase).
Local Abbreviation process_loop := (Processor.process_loop parseSkypeEmoji sanitize lowerCase).
Local Abbreviation processMessages_state := (Processor.processMessages_state parseSkypeEmoji sanitize lowerCase).
Local Abbreviation processMessages := (Processor.processMessages parseSkypeEmoji sanitize lowerCase).

Variable user : string.
Variable files : bool.

Local Abbreviation view swapped :=
  {| userId := user; swapRoles := swapped; mediaFiles := files |}.

Lemma createBaseMessage_views message content content' ty :
  ty <> system -> ty <> notice ->
  (ty <> call -> content = content') ->
  swapped_view (createBaseMessage message (view true) content ty)
               (createBaseMessage message (view false) content' ty).
Proof.
  intros Hs Hn Hc. unfold swapped_view. simpl. repeat split; trivial.
  destruct ty; try reflexivity; contradiction.
Qed.

Lemma handleSystemMessage_views message content ty :
  ty = system \/ ty = notice ->
  swapped_view (handleSystemMessage message (view true) content ty)
               (handleSystemMessage message (view false) content ty).
Proof.
  intros [-> | ->]; unfold swapped_view; simpl; repeat split; trivial.
Qed.

Lemma handleTranslation_views message next skipIds :
  snd (handleTranslation message next (view true) skipIds)
  = snd (handleTranslation message next (view false) skipIds)
  /\ option_Forall2 swapped_view
       (fst (handleTranslation message next (view true) skipIds))
       (fst (handleTranslation message next (view false) skipIds)).
Proof.
  unfold Processor.handleTranslation. simpl.
  destruct (if String.eqb (Message.from message) user then richText next else None);
    simpl; (split; [reflexivity|]); constructor;
    apply createBaseMessage_views; congruence.
Qed.

Lemma handleMediaMessage_views message :
  swapped_view (handleMediaMessage message (view true))
               (handleMediaMessage message (view false)).
Proof.
  unfold Processor.handleMediaMessage. simpl.
  destruct (extractMediaId (Message.content message)) as [i|], files;
    unfold swapped_view; simpl; repeat split; trivial.
Qed.

Lemma processMessage_views message next skipIds :
  snd (processMessage message next (view true) skipIds)
  = snd (processMessage message next (view false) skipIds)
  /\ option_Forall2 swapped_view
       (fst (processMessage message next (view true) skipIds))
       (fst (processMessage message next (view false) skipIds)).
Proof.
  unfold Processor.processMessage.
  repeat
    match goal with
    | |- context [decide ?P] => destruct (decide P)
    | |- context [if ?b then _ else _] => destruct b eqn:?
    | |- context [match truthy ?o with _ => _ end] => destruct (truthy o)
    end;
    try apply handleTranslation_views;
    simpl; (split; [reflexivity|]); constructor;
    try apply handleMediaMessage_views;
    try (apply handleSystemMessage_views; tauto);
    apply createBaseMessage_views; congruence.
Qed.

Lemma process_loop_views (messages : list Message.t) :
  forall n skipIds,
    snd (process_loop (view true) n messages skipIds)
    = snd (process_loop (view false) n messages skipIds)
    /\ Forall2 swapped_view
         (fst (process_loop (view true) n messages skipIds))
         (fst (process_loop (view false) n messages skipIds)).
Proof.
  induction messages as [|message rest IH]; intros n skipIds.
  - destruct n; simpl; split; trivial; constructor.
  - destruct n as [|n]; [simpl; split; trivial; constructor|].
    cbn [Processor.process_loop].
    destruct (decide (Message.id message ∈ skipIds)); [apply IH|].
    destruct (processMessage_views message (head rest) skipIds) as [Hs Hp].
    destruct (processMessage message (head rest) (view true) skipIds) as [p1 s1].
    destruct (processMessage message (head rest) (view false) skipIds) as [p2 s2].
    simpl in Hs, Hp. subst s2.
    destruct (IH n s1) as [Hs' Hout].
    destruct (process_loop (view true) n rest s1) as [out1 t1].
    destruct (process_loop (view false) n rest s1) as [out2 t2].
    simpl in *. split; [exact Hs'|].
    destruct Hp; [constructor|]; trivial.
Qed.

(** X12: the other perspective shows the same records: with and without
    [swapRoles] the pass gives as many messages, which agree one by one in
    id, display name, time, kind, sender, original type and media id, and in
    content unless they are call events; the owner flag is inverted, except
    on messages of kind [system] or [notice], where it is false in both. *)
Theorem swapping_roles_inverts_ownership (messages : list Message.t)
    (maxMessages : option Z) :
  Forall2 swapped_view
    (processMessages messages user true files maxMessages)
    (processMessages messages user false files maxMessages).
Proof.
  unfold Processor.processMessages, Processor.processMessages_state.
  apply process_loop_views.
Qed.

End Pipeline.

End PerspectiveFacts.

(** ** What the shown messages carry *)

Module ShownFacts.
Import JsString Regex Json JsNumber JsValue Patterns Utils Processor Spec Notions.
Import JsStringFacts ProcessorFacts MediaFacts.

Section Pipeline.

Variables parseSkypeEmoji sanitize lowerCase : string -> string.

Local Abbreviation parseMessageContent := (Processor.parseMessageContent parseSkypeEmoji sanitize).
Local Abbreviation handleTranslation := (Processor.handleTranslation parseSkypeEmoji sanitize).
Local Abbreviation handleMediaMessage := (Processor.handleMediaMessage parseSkypeEmoji sanitize lowerCase).
Local Abbreviation processMessage := (Processor.processMessage parseSkypeEmoji sanitize lowerCase).
Local Abbreviation process_loop := (Processor.process_loop parseSkypeEmoji sanitize lowerCase).
Local Abbreviation processMessages_state := (Processor.processMessages_state parseSkypeEmoji sanitize lowerCase).
Local Abbreviation processMessages := (Processor.processMessages parseSkypeEmoji sanitize lowerCase).

Lemma plain_message_shown message context content ty :
  ty <> media ->
  Message.messagetype message <> "RichText/Media_Album" ->
  well_shown (createBaseMessage message context content ty)
  /\ well_shown (handleSystemMessage message context content ty).
Proof.
  intros Hty Hmt. unfold well_shown. simpl.
  split; (split; [split; [contradiction | congruence] | split; [discriminate | exact Hmt]]).
Qed.

Lemma handleTranslation_shown message next context skipIds p skipIds' :
  Message.messagetype message <> "RichText/Media_Album" ->
  handleTranslation message next context skipIds = (Some p, skipIds') ->
  well_shown p.
Proof.
  intros Hmt. unfold Processor.handleTranslation.
  destruct (if String.eqb _ _ then richText next else None) as [R|] eqn:E.
  - intros [= <- _]. apply plain_message_shown; [discriminate|].
    assert (HR : richText next = Some R) by (destruct (String.eqb _ _); congruence).
    unfold richText in HR. destruct next as [x|]; [|discriminate].
    destruct (String.eqb (Message.messagetype x) "RichText") eqn:Ex; [|discriminate].
    injection HR as <-. apply String.eqb_eq in Ex. simpl. rewrite Ex. discriminate.
  - intros [= <- _]. now apply plain_message_shown.
Qed.

Lemma handleMediaMessage_shown message context :
  Message.messagetype message <> "RichText/Media_Album" ->
  well_shown (handleMediaMessage message context).
Proof.
  intros Hmt. unfold Processor.handleMediaMessage.
  destruct (extractMediaId (Message.content message)) as [i|] eqn:E.
  - destruct (mediaFiles context); [|now apply plain_message_shown].
    unfold well_shown. simpl. split; [split; congruence|]. split; [|exact Hmt].
    intros j [= <-]. now apply extractMediaId_id in E.
  - destruct (mediaFiles context); now apply plain_message_shown.
Qed.

Lemma processMessage_shown message next context skipIds p skipIds' :
  processMessage message next context skipIds = (Some p, skipIds') ->
  well_shown p.
Proof.
  unfold Processor.processMessage.
  destruct (decide _); [discriminate|].
  destruct (String.eqb (Message.messagetype message) "RichText/Media_Album") eqn:Ealbum;
    [discriminate|].
  apply String.eqb_neq in Ealbum.
  repeat
    match goal with
    | |- context [if ?b then _ else _] => destruct b eqn:?
    | |- context [match truthy ?o with _ => _ end] => destruct (truthy o)
    end;
    try (now apply handleTranslation_shown);
    intros [= <- _];
    try (now apply handleMediaMessage_shown);
    now apply plain_message_shown.
Qed.

Lemma emitted_shown context messages sources output :
  Forall2 (emitted_from parseSkypeEmoji sanitize lowerCase context messages) sources output ->
  Forall well_shown output.
Proof.
  induction 1 as [|i p sources output (message & s & s' & _ & Hp) _ IH]; constructor.
  - eapply processMessage_shown. exact Hp.
  - exact IH.
Qed.

(** X13: a message of the output carries a media id exactly when it is of
    kind [media]; such an id is not empty and holds letters, digits and
    hyphens only; and no message of the output stems from a record of type
    [RichText/Media_Album]. *)
Theorem media_messages_carry_an_id (messages : list Message.t) (userId : string)
    (swapRoles mediaFiles : bool) (maxMessages : option Z) :
  Forall (fun p =>
            (ProcessedMessage.type p = media <-> ProcessedMessage.mediaUrl p <> None)
            /\ (forall i, ProcessedMessage.mediaUrl p = Some i ->
                         is_empty i = false /\ all_chars id_char i = true)
            /\ ProcessedMessage.originalMessageType p <> "RichText/Media_Album")
         (processMessages messages userId swapRoles mediaFiles maxMessages).
Proof.
  unfold Processor.processMessages, Processor.processMessages_state.
  set (context := {| userId := userId; swapRoles := swapRoles;
                     mediaFiles := mediaFiles |}).
  destruct (process_loop_sources parseSkypeEmoji sanitize lowerCase context messages
              (endIndex maxMessages (length messages)) ∅ [])
    as (sources & H2 & _).
  apply (emitted_shown context _ _ _ H2).
Qed.

(** *** A translation received *)

(** [parseTranslationContent] gives the text that is read, when it is a
    string that is not empty. *)
Lemma parseTranslationContent_read (content : string) :
  parseTranslationContent content = truthy (text_of (translation_read content)).
Proof.
  unfold parseTranslationContent, translation_read.
  destruct (parse content) as [d|]; [|reflexivity].
  destruct (field_strict (Some d) "translations") as [ts|]; [|reflexivity].
  destruct (first_strict ts); reflexivity.
Qed.

Lemma translated_text_read (content : string) :
  or_else (parseTranslationContent content) content = translated_text content.
Proof.
  rewrite parseTranslationContent_read. unfold translated_text, or_else.
  rewrite truthy_idem.
  destruct (translation_read content) as [[| | | t | |]|]; try reflexivity.
  simpl. now destruct (is_empty t).
Qed.

Lemma processMessage_received T R context skipIds :
  Message.id T ∉ skipIds ->
  Message.messagetype T = "Translation" ->
  Message.from T <> userId context ->
  Message.messagetype R = "RichText" ->
  processMessage T (Some R) context skipIds
  = (Some (translation_shown parseSkypeEmoji sanitize T context),
     {[ Message.id R ]} ∪ skipIds).
Proof.
  intros Hout HT Hfrom HR. unfold Processor.processMessage.
  destruct (decide _); [contradiction|]. rewrite HT.
  change (String.eqb "Translation" "RichText/Media_Album") with false.
  change (String.eqb "Translation" "Translation") with true. cbv iota.
  unfold Processor.handleTranslation, skip_next, richText.
  apply String.eqb_neq in Hfrom. rewrite Hfrom, HR.
  change (String.eqb "RichText" "RichText") with true. cbv iota.
  rewrite translated_text_read, parseMessageContent_content_path.
  unfold translation_shown, createBaseMessage. cbn [userId swapRoles].
  rewrite Hfrom, HT. now destruct (swapRoles context).
Qed.

(** A record that is followed by a record it makes the pass skip, in a pass
    over records with distinct ids. *)
Lemma pair_in_pass (pre post : list Message.t) (T R : Message.t)
    (context : MessageProcessorContext) (p : ProcessedMessage.t) (n : nat) :
  NoDup (map Message.id (pre ++ T :: R :: post)) ->
  richText (Some T) = None ->
  (forall skipIds,
     Message.id T ∉ skipIds ->
     processMessage T (Some R) context skipIds = (Some p, {[ Message.id R ]} ∪ skipIds)) ->
  length pre < n ->
  exists out1 out2 skipIds,
    process_loop context n (pre ++ T :: R :: post) ∅ = (out1 ++ p :: out2, skipIds)
    /\ Message.id R ∈ skipIds
    /\ Forall (fun q => ProcessedMessage.id q ∈ map Message.id pre) out1
    /\ Forall (fun q => ProcessedMessage.id q ∈ map Message.id post) out2.
Proof.
  intros Hdup Hhead Hpair Hn.
  rewrite map_app in Hdup. cbn [map] in Hdup.
  apply NoDup_app in Hdup. destruct Hdup as (_ & Hpre & Hdup).
  apply NoDup_cons in Hdup. destruct Hdup as (HTR & Hdup).
  assert (HTpre : Message.id T ∉ map Message.id pre).
  { intros H. apply (Hpre _ H). set_solver. }
  rewrite process_loop_app.
  destruct (process_loop_prefix parseSkypeEmoji sanitize lowerCase context pre (T :: R :: post)
              Hhead (Nat.min n (length pre)) ∅ ltac:(lia)) as [Hout1 Hskip1].
  destruct (process_loop context (Nat.min n (length pre)) (pre ++ T :: R :: post) ∅)
    as [out1 skipIds1].
  simpl in Hout1, Hskip1.
  assert (HTskip : Message.id T ∉ skipIds1).
  { intros H. apply Hskip1 in H. set_solver. }
  destruct (n - length pre) as [|k] eqn:Hk; [lia|].
  cbn [Processor.process_loop head].
  destruct (decide (Message.id T ∈ skipIds1)); [contradiction|].
  rewrite (Hpair skipIds1 HTskip).
  assert (Hrest : exists out2 skipIds,
            process_loop context k (R :: post) ({[ Message.id R ]} ∪ skipIds1)
            = (out2, skipIds)
            /\ Message.id R ∈ skipIds
            /\ Forall (fun q => ProcessedMessage.id q ∈ map Message.id post) out2).
  { destruct k as [|k].
    - exists [], ({[ Message.id R ]} ∪ skipIds1). simpl.
      split; [reflexivity | split; [set_solver | constructor]].
    - cbn [Processor.process_loop].
      destruct (decide (Message.id R ∈ {[ Message.id R ]} ∪ skipIds1));
        [|set_solver].
      destruct (process_loop_ids parseSkypeEmoji sanitize lowerCase context post k
                  ({[ Message.id R ]} ∪ skipIds1)) as [Hout2 Hskip2].
      destruct (process_loop context k post ({[ Message.id R ]} ∪ skipIds1))
        as [out2 skipIds2].
      exists out2, skipIds2. simpl in *.
      split; [reflexivity | split; [set_solver | exact Hout2]]. }
  destruct Hrest as (out2 & skipIds & -> & HRskip & Hout2).
  exists out1, out2, skipIds. simpl. now repeat split.
Qed.

(** X14: in a pass over records with pairwise distinct ids, a
    [Translation] record of another sender that is directly followed by a
    [RichText] record, both within the processed range, and whose
    [translation] is missing, falsy or a string as the interface declares
    it, is shown once, under its own id, time, sender and cleaned display
    name, with the content path of the translation it holds (of its content
    as it is when it holds none, or an empty one); the [RichText] record,
    which holds the original, is skipped. *)
Theorem received_translation_shows_the_translation
    (pre post : list Message.t) (T R : Message.t)
    (userId : string) (swapRoles mediaFiles : bool) (maxMessages : option Z) :
  let messages := pre ++ T :: R :: post in
  let context :=
    {| userId := userId; swapRoles := swapRoles; mediaFiles := mediaFiles |} in
  NoDup (map Message.id messages) ->
  Message.messagetype T = "Translation" ->
  Message.from T <> userId ->
  declared_text (translation_read (Message.content T)) = true ->
  Message.messagetype R = "RichText" ->
  length pre < endIndex maxMessages (length messages) ->
  exists out1 out2 skipIds,
    processMessages_state messages userId swapRoles mediaFiles maxMessages
    = (out1 ++ translation_shown parseSkypeEmoji sanitize T context :: out2, skipIds)
    /\ Message.id R ∈ skipIds
    /\ Forall (fun p => ProcessedMessage.id p ∈ map Message.id pre) out1
    /\ Forall (fun p => ProcessedMessage.id p ∈ map Message.id post) out2.
Proof.
  intros messages context Hdup HT Hfrom _ HR Hn.
  unfold Processor.processMessages_state. fold context.
  apply pair_in_pass; trivial.
  - simpl. now rewrite HT.
  - intros skipIds Hout. now apply processMessage_received.
Qed.

End Pipeline.

Lemma received_translation_shows_the_translation_witness :
  NoDup (map Message.id ([] ++ own_translation :: own_original :: [later_text]))
  /\ Message.messagetype own_translation = "Translation"
  /\ Message.from own_translation <> "8:ann"
  /\ declared_text (translation_read (Message.content own_translation)) = true
  /\ Message.messagetype own_original = "RichText"
  /\ 0 < endIndex None 3
  /\ ProcessedMessage.content
       (translation_shown (fun s => s) (fun s => s) own_translation
          {| userId := "8:ann"; swapRoles := false; mediaFiles := false |}) = "hello"
  /\ exists out1 out2 skipIds,
       processMessages_state (fun s => s) (fun s => s) (fun s => s)
         [own_translation; own_original; later_text] "8:ann" false false None
       = (out1 ++ translation_shown (fun s => s) (fun s => s) own_translation
                    {| userId := "8:ann"; swapRoles := false; mediaFiles := false |}
                 :: out2, skipIds)
       /\ Message.id own_original ∈ skipIds.
Proof.
  assert (H1 : NoDup (map Message.id
                        ([] ++ own_translation :: own_original :: [later_text]))).
  { apply (bool_decide_unpack _). vm_compute. exact I. }
  assert (H3 : Message.from own_translation <> "8:ann") by discriminate.
  assert (H5 : 0 < endIndex None 3) by (simpl; lia).
  assert (H4 : declared_text (translation_read (Message.content own_translation)) = true)
    by (vm_compute; reflexivity).
  split; [exact H1|]. split; [reflexivity|]. split; [exact H3|]. split; [exact H4|].
  split; [reflexivity|]. split; [exact H5|]. split; [vm_compute; reflexivity|].
  destruct (received_translation_shows_the_translation (fun s => s) (fun s => s) (fun s => s)
              [] [later_text] own_translation own_original "8:ann" false false None
              H1 eq_refl H3 H4 eq_refl H5)
    as (out1 & out2 & skipIds & E & HR & _).
  exists out1, out2, skipIds. split; [exact E | exact HR].
Defined.

End ShownFacts.

(** ** The participants and the duration of a call *)

Module ParticipantFacts.
Import JsString Regex Json JsNumber Patterns Utils Processor Spec Notions.
Import JsStringFacts JsNumberFacts CallFacts.

Lemma or_else_nonempty (o : option string) (d : string) :
  is_empty d = false -> is_empty (or_else o d) = false.
Proof.
  intros Hd. unfold or_else. destruct (truthy o) as [s|] eqn:E; [|exact Hd].
  now apply truthy_Some in E.
Qed.

Lemma normaliseParticipantName_nonempty (name : option string) (identity : string) :
  is_empty (normaliseParticipantName name identity) = false.
Proof.
  unfold normaliseParticipantName.
  repeat match goal with
         | |- context [match truthy ?o with _ => _ end] =>
             let E := fresh "E" in
             destruct (truthy o) as [?|] eqn:E;
             [apply truthy_Some in E; try (now destruct E)|]
         end;
    try (now apply or_else_nonempty).
Qed.

Section Host.

Variable lowerCase : string -> string.

Local Abbreviation toLowerCase := (JsString.toLowerCase lowerCase).
Local Abbreviation call_step := (Processor.call_step lowerCase).
Local Abbreviation extractCallDetails := (Processor.extractCallDetails lowerCase).
Local Abbreviation identity_key := (Notions.identity_key lowerCase).
Local Abbreviation segment_key := (Notions.segment_key lowerCase).
Local Abbreviation participants_ok := (Notions.participants_ok lowerCase).

Lemma call_step_seen (st : CallScan) (partMatch : found) :
  seenIdentities st ⊆ seenIdentities (call_step st partMatch)
  /\ segment_key partMatch ∈ seenIdentities (call_step st partMatch).
Proof.
  unfold Processor.call_step, Notions.segment_key.
  destruct (decide (_ ∈ seenIdentities st)) as [Hin|Hout];
    destruct (segment_duration _); simpl; set_solver.
Qed.

Lemma call_step_ok (st : CallScan) (partMatch : found) :
  participants_ok st -> participants_ok (call_step st partMatch).
Proof.
  intros (Hdup & Hseen & Hnames). unfold Processor.call_step.
  destruct (decide (_ ∈ seenIdentities st)) as [Hin|Hout].
  - destruct (segment_duration _); unfold Notions.participants_ok; simpl;
      (split; [|split]); assumption.
  - assert (Hok : participants_ok
             {| participantData :=
                  participantData st ++
                    [ {| identity := default EmptyString (group partMatch 1);
                         name := normaliseParticipantName
                                   (Some match exec Name (default EmptyString (group partMatch 2)) with
                                         | Some nameMatch => default EmptyString (group nameMatch 1)
                                         | None => EmptyString
                                         end)
                                   (default EmptyString (group partMatch 1)) |} ];
                seenIdentities :=
                  {[ toLowerCase (default EmptyString (group partMatch 1)) ]}
                  ∪ seenIdentities st;
                maxDuration := maxDuration st |}).
    { unfold Notions.participants_ok. simpl. rewrite map_app. simpl. split; [|split].
      - apply NoDup_app. split; [exact Hdup|]. split; [|apply NoDup_singleton].
        intros k Hk Hk'. apply list_elem_of_singleton in Hk'. subst k.
        apply Hout. now apply Hseen.
      - intros k. rewrite elem_of_union, elem_of_singleton, elem_of_app,
          list_elem_of_singleton, Hseen. tauto.
      - apply Forall_app. split; [exact Hnames|].
        constructor; [|constructor]. apply normaliseParticipantName_nonempty. }
    destruct (segment_duration _); exact Hok.
Qed.

Lemma call_loop_ok (parts : list found) :
  forall st,
    participants_ok st ->
    participants_ok (fold_left call_step parts st)
    /\ seenIdentities st ⊆ seenIdentities (fold_left call_step parts st)
    /\ Forall (fun partMatch =>
                 segment_key partMatch ∈ seenIdentities (fold_left call_step parts st))
              parts.
Proof.
  induction parts as [|partMatch parts IH]; intros st Hok.
  - simpl. split; [exact Hok|]. split; [set_solver | constructor].
  - simpl. destruct (call_step_seen st partMatch) as [Hsub Hin].
    destruct (IH (call_step st partMatch) (call_step_ok st partMatch Hok))
      as (Hok' & Hsub' & Hall).
    split; [exact Hok'|]. split; [set_solver|].
    constructor; [set_solver | exact Hall].
Qed.

(** X15: the participants [extractCallDetails] returns have pairwise
    distinct identities, compared without regard to letter case; every
    participant segment of the event has its identity among them; and every
    participant has a name that is not empty. *)
Theorem participants_are_listed_once (content : string) :
  let participants := fst (extractCallDetails content) in
  NoDup (map identity_key participants)
  /\ Forall (fun partMatch => segment_key partMatch ∈ map identity_key participants)
            (call_parts content)
  /\ Forall (fun participant => is_empty (name participant) = false) participants.
Proof.
  unfold Processor.extractCallDetails. simpl.
  destruct (call_loop_ok (call_parts content)
              {| participantData := []; seenIdentities := ∅; maxDuration := Fin 0 |})
    as ((Hdup & Hseen & Hnames) & _ & Hall).
  { unfold Notions.participants_ok. simpl. split; [constructor|]. split; [|constructor].
    intros k. set_solver. }
  split; [exact Hdup|]. split; [|exact Hnames].
  eapply Forall_impl; [exact Hall|]. simpl. intros partMatch. apply Hseen.
Qed.

End Host.

(** *** Whole seconds *)

(** X16: a duration of a whole number of seconds below [2^53] is shown as
    the seconds alone below one minute, and as the whole minutes followed by
    the remaining seconds, which are below 60, from one minute on. *)
Theorem whole_seconds_are_minutes_and_seconds (n : Z) :
  (0 <= n < 2 ^ 53)%Z ->
  formatCallDuration (Fin (inject_Z n)) =
    (if (n <? 60)%Z then Z_to_string n +:+ "s"
     else Z_to_string (n / 60) +:+ "m " +:+ Z_to_string (n mod 60) +:+ "s")
  /\ (0 <= n mod 60 < 60)%Z.
Proof.
  intros [Hn Hn53]. split; [|apply Z.mod_pos_bound; lia].
  destruct (Z.eq_dec n 0%Z) as [-> | Hn0]; [vm_compute; reflexivity|].
  assert (Hd : double (inject_Z n)) by (apply double_Z; lia).
  assert (H0 : (0 < inject_Z n)%Q).
  { change 0%Q with (inject_Z 0). rewrite <- Zlt_Qlt. lia. }
  pose proof (formatCallDuration_finite (inject_Z n) Hd H0) as H.
  rewrite Qfloor_Z in H.
  destruct (Qle_bool 60 (inject_Z n)) eqn:E.
  - apply Qle_bool_iff in E. change 60%Q with (inject_Z 60) in E.
    rewrite <- Zle_Qle in E.
    destruct (Z.ltb_spec n 60); [lia|].
    destruct H as (M & _ & _ & [Hbig | [HM Htext]] & Hfmt).
    + rewrite <- Zle_Qle in Hbig. lia.
    + rewrite Hfmt, Htext, HM. reflexivity.
  - assert (Hlt : (n < 60)%Z).
    { apply Z.lt_nge. intros Hge. rewrite Zle_Qle in Hge.
      change (inject_Z 60) with 60%Q in Hge. apply Qle_bool_iff in Hge. congruence. }
    destruct (Z.ltb_spec n 60); [|lia].
    rewrite H, Z.mod_small by lia. reflexivity.
Qed.

Lemma whole_seconds_are_minutes_and_seconds_witness :
  (0 <= 125 < 2 ^ 53)%Z /\ formatCallDuration (Fin (inject_Z 125)) = "2m 5s".
Proof.
  assert (H : (0 <= 125 < 2 ^ 53)%Z) by lia.
  split; [exact H|].
  rewrite (proj1 (whole_seconds_are_minutes_and_seconds 125 H)).
  vm_compute. reflexivity.
Defined.

End ParticipantFacts.

(** ** Previews *)

Module PreviewFacts.
Import JsString Regex Json JsNumber Patterns Utils Processor Spec JsText Preview Notions.
Import JsStringFacts RegexFacts MatchFacts ThreadActivityFacts.

(** *** The length of a preview *)

Lemma take_units_bound (s : string) :
  forall skip n, units skip (take_units skip n s) <= n.
Proof.
  induction s as [|c r IH]; intros skip n; [simpl; lia|].
  destruct skip as [|k]; cbn [take_units].
  - destruct (units_of c <=? n) eqn:E.
    + apply Nat.leb_le in E. cbn [units].
      specialize (IH (followers c) (n - units_of c)). lia.
    + destruct (1 <=? n) eqn:E1; [|simpl; lia].
      apply Nat.leb_le in E1. exact E1.
  - cbn [units]. apply IH.
Qed.

Lemma take_units_all (s : string) :
  forall skip n, units skip s <= n -> take_units skip n s = s.
Proof.
  induction s as [|c r IH]; intros skip n H; [reflexivity|].
  destruct skip as [|k]; cbn [take_units units] in *.
  - replace (units_of c <=? n) with true by (symmetry; apply Nat.leb_le; lia).
    f_equal. apply IH. lia.
  - f_equal. now apply IH.
Qed.

Section Host.

Variable parseSkypeEmoji : string -> string.
Variable document : option (string -> string).

(** X18: the preview of a text is at most 100 UTF-16 code units long,
    whatever the text and the host. *)
Theorem preview_text_is_short (text : string) :
  length16 (getPreviewText parseSkypeEmoji document text) <= PREVIEW_MAX_LENGTH.
Proof. apply take_units_bound. Qed.

End Host.

(** X19: without a host document, a text that holds no ["<"] and is at
    most 100 code units long is its own preview. *)
Theorem short_plain_text_is_its_preview (parseSkypeEmoji : string -> string)
    (text : string) :
  count "<"%char text = 0 ->
  length16 text <= PREVIEW_MAX_LENGTH ->
  getPreviewText parseSkypeEmoji None text = text.
Proof.
  intros Hlt Hlen. unfold getPreviewText, stripHtml.
  assert (E : (if is_empty text then EmptyString
               else replace_all STRIP_HTML_PATTERN [] text) = text).
  { destruct text as [|c text]; [reflexivity|]. cbn [is_empty].
    unfold STRIP_HTML_PATTERN, seqs. now apply replace_all_no_lt. }
  rewrite E. now apply take_units_all.
Qed.

Lemma short_plain_text_is_its_preview_witness :
  count "<"%char "see you at 5 > 4" = 0
  /\ length16 "see you at 5 > 4" <= PREVIEW_MAX_LENGTH
  /\ getPreviewText (fun s => s) None "see you at 5 > 4" = "see you at 5 > 4".
Proof.
  assert (H1 : count "<"%char "see you at 5 > 4" = 0) by reflexivity.
  assert (H2 : length16 "see you at 5 > 4" <= PREVIEW_MAX_LENGTH)
    by (vm_compute; lia).
  split; [exact H1|]. split; [exact H2|].
  exact (short_plain_text_is_its_preview (fun s => s) "see you at 5 > 4" H1 H2).
Defined.

(** *** The preview and the message *)

Lemma eqb_of_prefix (s p c : string) :
  startsWith s p = true -> startsWith c p = false -> String.eqb s c = false.
Proof.
  intros Hs Hc. destruct (String.eqb s c) eqn:E; [|reflexivity].
  apply String.eqb_eq in E. congruence.
Qed.

Lemma prefixes_apart (s : string) (a b : ascii) (p q : string) :
  Ascii.eqb a b = false ->
  startsWith s (String a p) = true -> startsWith s (String b q) = false.
Proof.
  intros Hab. unfold startsWith. destruct s as [|c s]; [discriminate|].
  cbn [strip_prefix]. destruct (Ascii.eqb a c) eqn:Ea; [|discriminate].
  apply Ascii.eqb_eq in Ea. subst c. now rewrite Ascii.eqb_sym, Hab.
Qed.

Lemma parseCallEvent_context (lowerCase : string -> string) message
    (c1 c2 : MessageProcessorContext) :
  userId c1 = userId c2 -> swapRoles c1 = swapRoles c2 ->
  parseCallEvent lowerCase message c1 = parseCallEvent lowerCase message c2.
Proof.
  intros Hu Hs. unfold parseCallEvent, participantLabels.
  now rewrite Hu, Hs.
Qed.

Section Pipeline.

Variables parseSkypeEmoji sanitize lowerCase : string -> string.
Variable document : option (string -> string).

Local Abbreviation processMessage := (Processor.processMessage parseSkypeEmoji sanitize lowerCase).
Local Abbreviation getMessagePreview :=
  (Preview.getMessagePreview parseSkypeEmoji document lowerCase).

Ltac not_this_type H :=
  repeat match goal with
         | |- context [String.eqb (Message.messagetype ?m) ?c] =>
             rewrite (eqb_of_prefix (Message.messagetype m) _ c H eq_refl)
         end.

(** X17: for a record of type [Notice], [PopCard] or
    [RichText/Media_GenericFile], of a type that starts with
    [ThreadActivity], or, in the viewer's own perspective, of a type that
    starts with [Event/Call], the preview of the record is the content of the
    message the classifier shows for it. *)
Theorem preview_is_the_shown_content (message : Message.t)
    (next : option Message.t) (context : MessageProcessorContext)
    (skipIds skipIds' : gset string) (p : ProcessedMessage.t) :
  Message.messagetype message = "Notice"
  \/ Message.messagetype message = "PopCard"
  \/ Message.messagetype message = "RichText/Media_GenericFile"
  \/ startsWith (Message.messagetype message) "ThreadActivity" = true
  \/ (startsWith (Message.messagetype message) "Event/Call" = true
      /\ swapRoles context = false) ->
  processMessage message next context skipIds = (Some p, skipIds') ->
  getMessagePreview message (userId context) next = ProcessedMessage.content p.
Proof.
  unfold Processor.processMessage, Preview.getMessagePreview.
  destruct (decide _); [intros _; discriminate|].
  intros [H | [H | [H | [H | [H Hswap]]]]].
  - rewrite H. simpl. now intros [= <- _].
  - rewrite H. simpl. now intros [= <- _].
  - rewrite H. simpl. now intros [= <- _].
  - not_this_type H.
    rewrite (prefixes_apart _ "T" "I" _ _ eq_refl H), H. cbn [orb].
    unfold or_else.
    destruct (truthy (parseThreadActivity lowerCase message)); [|discriminate].
    now intros [= <- _].
  - not_this_type H.
    rewrite (prefixes_apart _ "E" "I" _ _ eq_refl H).
    rewrite (prefixes_apart _ "E" "T" _ _ eq_refl H), H. cbn [orb].
    intros [= <- _]. simpl. apply parseCallEvent_context; simpl; congruence.
Qed.

End Pipeline.

Lemma preview_is_the_shown_content_witness :
  startsWith (Message.messagetype history_update) "ThreadActivity" = true
  /\ processMessage (fun s => s) (fun s => s) (fun s => s) history_update None viewer ∅
     = (Some history_update_shown, ∅)
  /\ getMessagePreview (fun s => s) None (fun s => s) history_update "8:me" None
     = "Chat history is now visible".
Proof.
  assert (H1 : startsWith (Message.messagetype history_update) "ThreadActivity" = true)
    by reflexivity.
  assert (H2 : processMessage (fun s => s) (fun s => s) (fun s => s) history_update None viewer ∅
               = (Some history_update_shown, ∅)) by (vm_compute; reflexivity).
  split; [exact H1|]. split; [exact H2|].
  exact (preview_is_the_shown_content (fun s => s) (fun s => s) (fun s => s) None
           history_update None viewer ∅ ∅ history_update_shown
           (or_intror (or_intror (or_intror (or_introl H1)))) H2).
Defined.

End PreviewFacts.

(** ** Grouping *)

Module GroupingFacts.
Import JsString JsNumber Spec Grouping Notions.

(** *** The map *)

Lemma get_set {V : Type} (k key : string) (v : V) (m : list (string * V)) :
  get key (set k v m) = if String.eqb k key then Some v else get key m.
Proof.
  induction m as [|[k' v'] m IH]; simpl.
  - reflexivity.
  - destruct (String.eqb k' k) eqn:E; simpl.
    + apply String.eqb_eq in E. subst k'. now destruct (String.eqb k key).
    + rewrite IH. destruct (String.eqb k' key) eqn:E'; [|reflexivity].
      apply String.eqb_eq in E'. subst k'. now rewrite String.eqb_sym, E.
Qed.

Lemma get_keys {V : Type} (key : string) (m : list (string * V)) :
  key ∈ map fst m <-> get key m <> None.
Proof.
  induction m as [|[k' v'] m IH]; simpl.
  - split; [intros H; inversion H | intros H; exfalso; now apply H].
  - rewrite elem_of_cons. destruct (String.eqb_spec k' key) as [->|Hne].
    + split; [discriminate | now left].
    + rewrite IH.
      split; [intros [H|H]; [exfalso; apply Hne; now symmetry | exact H]
             | intros H; now right].
Qed.

Lemma set_keys {V : Type} (k : string) (v : V) (m : list (string * V)) :
  NoDup (map fst m) -> NoDup (map fst (set k v m)).
Proof.
  induction m as [|[k' v'] m IH]; simpl; intros H.
  - apply NoDup_singleton.
  - apply NoDup_cons in H. destruct H as [Hfresh H].
    destruct (String.eqb_spec k' k) as [->|Hne]; simpl.
    + now apply NoDup_cons.
    + apply NoDup_cons. split; [|now apply IH].
      rewrite get_keys, get_set. rewrite get_keys in Hfresh.
      destruct (String.eqb_spec k k') as [E|E];
        [exfalso; apply Hne; now symmetry | exact Hfresh].
Qed.

Lemma get_member {V : Type} (key : string) (v : V) (m : list (string * V)) :
  NoDup (map fst m) -> (key, v) ∈ m -> get key m = Some v.
Proof.
  induction m as [|[k' v'] m IH]; simpl; intros Hdup Hin; [inversion Hin|].
  apply NoDup_cons in Hdup. destruct Hdup as [Hfresh Hdup].
  apply elem_of_cons in Hin. destruct Hin as [[= <- <-] | Hin].
  - now rewrite String.eqb_refl.
  - destruct (String.eqb_spec k' key) as [->|Hne]; [|now apply IH].
    exfalso. apply Hfresh. apply list_elem_of_fmap. now exists (key, v).
Qed.

Section Host.

Variable dateKey : string -> option string.

Local Abbreviation of_day key :=
  (filter (fun message : ProcessedMessage.t =>
             dateKey (ProcessedMessage.timestamp message) = Some key)).

Lemma of_day_snoc (key k : string) (done : list ProcessedMessage.t)
    (message : ProcessedMessage.t) :
  dateKey (ProcessedMessage.timestamp message) = Some k ->
  of_day key (done ++ [message])
  = of_day key done ++ (if String.eqb k key then [message] else []).
Proof.
  intros Hk. rewrite filter_app. f_equal.
  rewrite filter_cons, filter_nil. rewrite Hk.
  destruct (String.eqb_spec k key) as [->|Hne];
    destruct (decide _) as [H|H]; trivial; congruence.
Qed.

(** The groups so far hold, under each day, the messages of the day among
    those gone through, and no day without a message. *)
Lemma group_loop_spec (messages : list ProcessedMessage.t) :
  forall done grouped result,
    NoDup (map fst grouped) ->
    (forall key, get key grouped
                 = match of_day key done with [] => None | g => Some g end) ->
    group_loop dateKey messages grouped = Some result ->
    NoDup (map fst result)
    /\ (forall key, get key result
                    = match of_day key (done ++ messages) with
                      | [] => None
                      | g => Some g
                      end)
    /\ Forall (fun message =>
                 is_Some (dateKey (ProcessedMessage.timestamp message))) messages.
Proof.
  induction messages as [|message rest IH]; intros done grouped result Hdup Hget.
  - simpl. intros [= <-]. rewrite app_nil_r. repeat split; trivial.
  - simpl. destruct (dateKey (ProcessedMessage.timestamp message)) as [k|] eqn:Hk;
      [|discriminate].
    intros Hloop.
    apply (IH (done ++ [message])) in Hloop.
    + rewrite <- app_assoc in Hloop. destruct Hloop as (H1 & H2 & H3).
      split; [exact H1|]. split; [exact H2|]. constructor; [|exact H3].
      rewrite Hk. now exists k.
    + now apply set_keys.
    + intros key. rewrite get_set, (of_day_snoc key k done message Hk).
      destruct (String.eqb_spec k key) as [->|Hne].
      * rewrite Hget. now destruct (of_day key done).
      * rewrite app_nil_r. apply Hget.
Qed.

(** X20: when [groupMessagesByDate] returns, its groups partition the
    messages by day: the days are pairwise distinct, the group of a day holds
    exactly the messages of that day, in their order, and is not empty, and
    every message has the day of its time stamp among the days. *)
Theorem groups_partition_the_messages (messages : list ProcessedMessage.t)
    (grouped : list (string * list ProcessedMessage.t)) :
  groupMessagesByDate dateKey messages = Some grouped ->
  NoDup (map fst grouped)
  /\ Forall (fun entry => snd entry <> [] /\ snd entry = of_day (fst entry) messages)
            grouped
  /\ Forall (fun message =>
               exists key,
                 dateKey (ProcessedMessage.timestamp message) = Some key
                 /\ key ∈ map fst grouped) messages.
Proof.
  unfold groupMessagesByDate. intros H.
  apply (group_loop_spec messages [] [] grouped) in H;
    [|constructor | reflexivity].
  simpl in H. destruct H as (Hdup & Hget & Hdays).
  split; [exact Hdup|]. split.
  - apply Forall_forall. intros [key group] Hin. simpl.
    apply (get_member key group grouped Hdup) in Hin.
    rewrite Hget in Hin. destruct (of_day key messages); [discriminate|].
    injection Hin as <-. now split.
  - rewrite Forall_forall in Hdays. apply Forall_forall. intros message Hin.
    destruct (Hdays message Hin) as [key Hkey]. exists key. split; [exact Hkey|].
    apply get_keys. rewrite Hget.
    assert (Hday : message ∈ of_day key messages)
      by (apply list_elem_of_filter; now split).
    destruct (of_day key messages); [inversion Hday | discriminate].
Qed.

End Host.

Section Times.

Variable getTime : string -> option Z.
Variable GROUP_TIME_THRESHOLD : number.

Lemma type_eqb_sym (a b : MessageType) : type_eqb a b = type_eqb b a.
Proof. now destruct a, b. Qed.

Lemma timeDiff_sym (a b : option Z) : timeDiff a b = timeDiff b a.
Proof.
  destruct a as [x|], b as [y|]; trivial. simpl. do 2 f_equal.
  replace (y - x)%Z with (- (x - y))%Z by lia. now rewrite Z.abs_opp.
Qed.

(** X21: whether two messages are grouped does not depend on which of
    them comes first. *)
Theorem grouping_is_symmetric (a b : ProcessedMessage.t) :
  shouldGroupWithPrevious getTime GROUP_TIME_THRESHOLD a (Some b)
  = shouldGroupWithPrevious getTime GROUP_TIME_THRESHOLD b (Some a).
Proof.
  unfold shouldGroupWithPrevious.
  rewrite (String.eqb_sym (ProcessedMessage.from a)).
  rewrite (type_eqb_sym (ProcessedMessage.type a) (ProcessedMessage.type b)).
  rewrite (orb_comm (type_eqb (ProcessedMessage.type a) system)).
  now rewrite timeDiff_sym.
Qed.

End Times.

Lemma groups_partition_the_messages_witness :
  groupMessagesByDate (fun timestamp => Some (substring 0 10 timestamp))
    [sample_message; sample_message]
  = Some [("2024-01-01", [sample_message; sample_message])]
  /\ NoDup (map fst [("2024-01-01", [sample_message; sample_message])]).
Proof.
  assert (H : groupMessagesByDate (fun timestamp => Some (substring 0 10 timestamp))
                [sample_message; sample_message]
              = Some [("2024-01-01", [sample_message; sample_message])])
    by (vm_compute; reflexivity).
  split; [exact H|].
  exact (proj1 (groups_partition_the_messages _ _ _ H)).
Defined.

End GroupingFacts.

(** ** Dates *)

Module DateFormatFacts.
Import JsString JsNumber DateFormat Notions.

(** X23: for a day of the month, 1 to 31, [getOrdinalSuffix] gives the
    suffix of the English ordinal: [st] for 1, 21 and 31, [nd] for 2 and 22,
    [rd] for 3 and 23, [th] for every other day, 11, 12 and 13 included. *)
Theorem ordinal_suffix_is_the_english_one (day : Z) :
  (1 <= day <= 31)%Z ->
  getOrdinalSuffix (Some day) = english_suffix day.
Proof.
  intros Hday.
  assert (Hall : forallb (fun d => String.eqb (getOrdinalSuffix (Some (Z.of_nat d)))
                                              (english_suffix (Z.of_nat d)))
                         (seq 1 31) = true) by (vm_compute; reflexivity).
  rewrite forallb_forall in Hall.
  specialize (Hall (Z.to_nat day)). rewrite Z2Nat.id in Hall by lia.
  apply String.eqb_eq. apply Hall. apply in_seq. lia.
Qed.

Lemma ordinal_suffix_is_the_english_one_witness :
  (1 <= 22 <= 31)%Z /\ getOrdinalSuffix (Some 22%Z) = "nd".
Proof.
  assert (H : (1 <= 22 <= 31)%Z) by lia.
  split; [exact H|].
  rewrite (ordinal_suffix_is_the_english_one 22 H). reflexivity.
Defined.

Section Host.

Variable parseDate : string -> option Date.
Variable now : Date.
Variable TIME_FORMATTER : Date -> string.
Variable MONTH_FORMATTER : Date -> string.

(** X24: a time of the last week is shown relative to the clock, in the
    largest of the units minute, hour and day that fits, with a count rounded
    down: 0 to 59 minutes within the hour, 1 to 23 hours within the day, 1 to
    6 days within the week. *)
Theorem recent_times_are_relative (dateString : string) (date : Date) :
  parseDate dateString = Some date ->
  (0 <= getTime now - getTime date < WEEK_MS)%Z ->
  let diff := (getTime now - getTime date)%Z in
  exists (n : Z) (unit : string),
    formatRelativeTime parseDate now MONTH_FORMATTER dateString
    = Some (Z_to_string n +:+ unit +:+ " ago")
    /\ ((unit = "m" /\ (diff < HOUR_MS)%Z /\ n = (diff / MINUTE_MS)%Z
         /\ (0 <= n < 60)%Z)
        \/ (unit = "h" /\ (HOUR_MS <= diff < DAY_MS)%Z /\ n = (diff / HOUR_MS)%Z
            /\ (1 <= n < 24)%Z)
        \/ (unit = "d" /\ (DAY_MS <= diff)%Z /\ n = (diff / DAY_MS)%Z
            /\ (1 <= n < 7)%Z)).
Proof.
  intros Hdate Hdiff diff. unfold formatRelativeTime. rewrite Hdate. fold diff.
  fold diff in Hdiff. unfold WEEK_MS, DAY_MS, HOUR_MS, MINUTE_MS in *.
  destruct (diff <? 3600000)%Z eqn:Eh; [|destruct (diff <? 86400000)%Z eqn:Ed].
  - apply Z.ltb_lt in Eh. exists (diff / 60000)%Z, "m".
    split; [reflexivity|]. left. repeat split; trivial.
    + apply Z.div_pos; lia.
    + apply Z.div_lt_upper_bound; lia.
  - apply Z.ltb_ge in Eh. apply Z.ltb_lt in Ed. exists (diff / 3600000)%Z, "h".
    split; [reflexivity|]. right. left. repeat split; trivial.
    + apply Z.div_le_lower_bound; lia.
    + apply Z.div_lt_upper_bound; lia.
  - apply Z.ltb_ge in Ed.
    replace (diff <? 604800000)%Z with true by (symmetry; apply Z.ltb_lt; lia).
    exists (diff / 86400000)%Z, "d".
    split; [reflexivity|]. right. right. repeat split; trivial.
    + apply Z.div_le_lower_bound; lia.
    + apply Z.div_lt_upper_bound; lia.
Qed.

End Host.

Lemma recent_times_are_relative_witness :
  let date := {| getTime := 1000; getFullYear := 2024; getMonth := 0; getDate := 1 |} in
  let now := {| getTime := 7201000; getFullYear := 2024; getMonth := 0; getDate := 1 |} in
  (0 <= getTime now - getTime date < WEEK_MS)%Z
  /\ formatRelativeTime (fun _ => Some date) now (fun _ => "January") "2024-01-01"
     = Some "2h ago"
  /\ exists (n : Z) (unit : string),
       formatRelativeTime (fun _ => Some date) now (fun _ => "January") "2024-01-01"
       = Some (Z_to_string n +:+ unit +:+ " ago").
Proof.
  intros date now.
  assert (H : (0 <= getTime now - getTime date < WEEK_MS)%Z)
    by (unfold WEEK_MS; simpl; lia).
  split; [exact H|]. split; [vm_compute; reflexivity|].
  destruct (recent_times_are_relative (fun _ => Some date) now (fun _ => "January")
              "2024-01-01" date eq_refl H) as (n & unit & E & _).
  exists n, unit. exact E.
Defined.

End DateFormatFacts.

(** ** Branches of the classifier *)

Module BranchFacts.
Import JsString Regex Json JsNumber JsValue Patterns Utils Processor Spec Notions.
Import JsStringFacts RegexFacts MatchFacts ProcessorFacts PreviewFacts.

Ltac other_type H :=
  repeat match goal with
         | |- context [String.eqb (Message.messagetype ?m) ?c] =>
             rewrite (eqb_of_prefix (Message.messagetype m) _ c H eq_refl)
         end.

(** X25: a [PopCard] record that is not skipped, and in which [title] and
    [text] are missing, falsy or strings as the interface declares them, is
    shown as a notice without display name whose content is the title and
    the text of the card joined by a colon when it has both, the one it has
    otherwise, and [System Message] when it has neither or its content is no
    JSON. *)
Theorem popcard_joins_title_and_text (parseSkypeEmoji sanitize lowerCase : string -> string)
    (message : Message.t) (next : option Message.t)
    (context : MessageProcessorContext) (skipIds : gset string) :
  Message.messagetype message = "PopCard" ->
  Message.id message ∉ skipIds ->
  (forall data,
     parse (Message.content message) = Some data ->
     declared_text (fst (popcard_reads data)) = true
     /\ declared_text (snd (popcard_reads data)) = true) ->
  let shown :=
    match parse (Message.content message) with
    | Some data => card_text (popcard_texts data) "System Message"
    | None => "System Message"
    end in
  parsePopCard message = shown
  /\ processMessage parseSkypeEmoji sanitize lowerCase message next context skipIds
     = (Some {| ProcessedMessage.id := Message.id message;
                ProcessedMessage.displayName := None;
                ProcessedMessage.timestamp := Message.originalarrivaltime message;
                ProcessedMessage.content := shown;
                ProcessedMessage.type := notice;
                ProcessedMessage.from := Message.from message;
                ProcessedMessage.isOwner := false;
                ProcessedMessage.originalMessageType := "PopCard";
                ProcessedMessage.mediaUrl := None |},
        skipIds).
Proof.
  intros Hty Hout _ shown. subst shown. rewrite <- parsePopCard_spec.
  split; [reflexivity|].
  unfold processMessage. destruct (decide _); [contradiction|].
  rewrite Hty. simpl. unfold handleSystemMessage, createBaseMessage. simpl.
  now rewrite Hty.
Qed.

Lemma popcard_joins_title_and_text_witness :
  let card :=
    record "p1" "PopCard"
      (quoted "[{'content':{'title':'Alert','text':'Storage low'}}]") "8:system" in
  Message.messagetype card = "PopCard"
  /\ (Message.id card ∉ (∅ : gset string))
  /\ (forall data,
        parse (Message.content card) = Some data ->
        declared_text (fst (popcard_reads data)) = true
        /\ declared_text (snd (popcard_reads data)) = true)
  /\ parsePopCard card = "Alert: Storage low".
Proof.
  intros card.
  assert (H1 : Message.messagetype card = "PopCard") by reflexivity.
  assert (H2 : Message.id card ∉ (∅ : gset string)) by set_solver.
  assert (H3 : forall data,
             parse (Message.content card) = Some data ->
             declared_text (fst (popcard_reads data)) = true
             /\ declared_text (snd (popcard_reads data)) = true).
  { intros data E. vm_compute in E. injection E as <-. split; reflexivity. }
  split; [exact H1|]. split; [exact H2|]. split; [exact H3|].
  rewrite (proj1 (popcard_joins_title_and_text (fun s => s) (fun s => s) (fun s => s)
                    card None viewer ∅ H1 H2 H3)).
  vm_compute. reflexivity.
Defined.

(** X26: of the records whose type starts with [ThreadActivity], only
    those of the types [AddMember], [HistoryDisclosedUpdate] and
    [JoiningEnabledUpdate] can be shown: on every other one the parser
    returns [null] and the classifier returns no message. *)
Theorem other_thread_activity_is_dropped
    (parseSkypeEmoji sanitize lowerCase : string -> string)
    (message : Message.t) (next : option Message.t)
    (context : MessageProcessorContext) (skipIds : gset string) :
  startsWith (Message.messagetype message) "ThreadActivity" = true ->
  Message.messagetype message <> "ThreadActivity/AddMember" ->
  Message.messagetype message <> "ThreadActivity/HistoryDisclosedUpdate" ->
  Message.messagetype message <> "ThreadActivity/JoiningEnabledUpdate" ->
  parseThreadActivity lowerCase message = None
  /\ processMessage parseSkypeEmoji sanitize lowerCase message next context skipIds
     = (None, skipIds).
Proof.
  intros H Ha Hh Hj.
  apply String.eqb_neq in Ha. apply String.eqb_neq in Hh. apply String.eqb_neq in Hj.
  assert (Hnone : parseThreadActivity lowerCase message = None).
  { unfold parseThreadActivity. rewrite Ha, Hh, Hj.
    now destruct (exec Value (Message.content message)). }
  split; [exact Hnone|].
  unfold processMessage. destruct (decide _); [reflexivity|].
  other_type H. cbn [orb]. now rewrite H, Hnone.
Qed.

Lemma other_thread_activity_is_dropped_witness :
  let update :=
    record "t9" "ThreadActivity/TopicUpdate"
      "<topicupdate><value>Holidays</value></topicupdate>" "8:ann" in
  startsWith (Message.messagetype update) "ThreadActivity" = true
  /\ processMessage (fun s => s) (fun s => s) (fun s => s) update None viewer ∅ = (None, ∅).
Proof.
  intros update.
  assert (H : startsWith (Message.messagetype update) "ThreadActivity" = true)
    by reflexivity.
  split; [exact H|].
  apply (other_thread_activity_is_dropped (fun s => s) (fun s => s) (fun s => s) update None viewer ∅ H);
    discriminate.
Defined.

(** X27: what the classifier returns on a record of type [Text],
    [Notice], [PopCard] or [RichText/Media_GenericFile], or of a type that
    starts with [ThreadActivity] or with [Event/Call], does not depend on the
    emoji parser and on the sanitizer: the content of these messages is never
    sanitized. *)
Theorem some_kinds_bypass_the_sanitizer
    (parseSkypeEmoji sanitize parseSkypeEmoji' sanitize' lowerCase : string -> string)
    (message : Message.t) (next : option Message.t)
    (context : MessageProcessorContext) (skipIds : gset string) :
  Message.messagetype message = "Text"
  \/ Message.messagetype message = "Notice"
  \/ Message.messagetype message = "PopCard"
  \/ Message.messagetype message = "RichText/Media_GenericFile"
  \/ startsWith (Message.messagetype message) "ThreadActivity" = true
  \/ startsWith (Message.messagetype message) "Event/Call" = true ->
  processMessage parseSkypeEmoji sanitize lowerCase message next context skipIds
  = processMessage parseSkypeEmoji' sanitize' lowerCase message next context skipIds.
Proof.
  unfold processMessage. destruct (decide _); [reflexivity|].
  intros [H | [H | [H | [H | [H | H]]]]];
    try (rewrite H; reflexivity).
  - other_type H. cbn [orb]. now rewrite H.
  - other_type H. cbn [orb].
    rewrite (prefixes_apart _ "E" "T" _ _ eq_refl H). now rewrite H.
Qed.

Lemma some_kinds_bypass_the_sanitizer_witness :
  let note := record "x1" "Text" "<script>alert(1)</script>" "8:ann" in
  Message.messagetype note = "Text"
  /\ option_map ProcessedMessage.content
       (fst (processMessage (fun s => s) (fun _ => EmptyString) (fun s => s)
               note None viewer ∅))
     = Some "<script>alert(1)</script>".
Proof.
  intros note.
  assert (H : Message.messagetype note = "Text") by reflexivity.
  split; [exact H|].
  rewrite (some_kinds_bypass_the_sanitizer (fun s => s) (fun _ => EmptyString)
             (fun s => s) (fun s => s) (fun s => s) note None viewer ∅ (or_introl H)).
  vm_compute. reflexivity.
Defined.

(** X28: a text in which the emoji parser leaves no ["<"] goes from the
    emoji parser to the sanitizer as it is: none of the rewrites of
    [CONTENT_PATTERNS] changes it. *)
Theorem text_without_markup_is_not_rewritten
    (parseSkypeEmoji sanitize : string -> string) (content : string) :
  is_empty content = false ->
  count "<"%char (parseSkypeEmoji content) = 0 ->
  parseMessageContent parseSkypeEmoji sanitize content
  = sanitize (parseSkypeEmoji content).
Proof.
  intros Hne Hlt. unfold parseMessageContent. rewrite Hne. f_equal.
  unfold CONTENT_PATTERNS, seqs. cbn [fold_left fst snd].
  repeat rewrite (replace_all_no_lt _ _ _ (parseSkypeEmoji content))
    by first [exact Hlt | reflexivity].
  reflexivity.
Qed.

Lemma text_without_markup_is_not_rewritten_witness :
  is_empty "2 > 1 & so on" = false
  /\ count "<"%char "2 > 1 & so on" = 0
  /\ parseMessageContent (fun s => s) (fun s => s) "2 > 1 & so on" = "2 > 1 & so on".
Proof.
  repeat (split; [reflexivity|]).
  apply (text_without_markup_is_not_rewritten (fun s => s) (fun s => s));
    reflexivity.
Defined.

(** X29: on a content without any ["<"] the file parsers find neither a
    name nor a size and give the labels of an unknown file: a paper clip for a
    generic file, a camera for a media file. *)
Theorem file_without_metadata_is_unknown (lowerCase : string -> string)
    (content : string) :
  count "<"%char content = 0 ->
  parseGenericFile content = "📎 <em>Unknown file</em>"
  /\ parseMediaFileInfo lowerCase content = "📷 <em>Unknown file</em>".
Proof.
  intros H.
  assert (Hname : first_group OriginalName content = None).
  { unfold first_group, exec, OriginalName, seqs.
    now rewrite search_no_lt. }
  assert (Hsize : first_group FileSize content = None).
  { unfold first_group, exec, FileSize, seqs.
    now rewrite search_no_lt. }
  assert (Htype : first_group URIObject_type content = None).
  { unfold first_group, exec, URIObject_type, seqs.
    now rewrite search_no_lt. }
  unfold parseGenericFile, parseMediaFileInfo.
  rewrite Hname, Hsize, Htype. split; vm_compute; reflexivity.
Qed.

Lemma file_without_metadata_is_unknown_witness :
  count "<"%char "holiday.jpg" = 0
  /\ parseGenericFile "holiday.jpg" = "📎 <em>Unknown file</em>"
  /\ parseMediaFileInfo (fun s => s) "holiday.jpg" = "📷 <em>Unknown file</em>".
Proof.
  assert (H : count "<"%char "holiday.jpg" = 0) by reflexivity.
  split; [exact H|].
  exact (file_without_metadata_is_unknown (fun s => s) "holiday.jpg" H).
Defined.

End BranchFacts.

(** ** A query that occurs nowhere *)

Module NoMatchFacts.
Import JsString Regex Patterns Search Spec JsStringFacts RegexFacts HighlightFacts.

(** Two bytes the [i] flag takes for the same have the same lower case. *)
Lemma just_i_lower (c x : ascii) : just_i c x = true -> lower x = lower c.
Proof.
  assert (Hall : forallb (fun a => forallb (fun b =>
             implb (just_i a b) (Ascii.eqb (lower b) (lower a)))
             (map ascii_of_nat (seq 0 256))) (map ascii_of_nat (seq 0 256)) = true)
    by (vm_compute; reflexivity).
  assert (Hin : forall a, In a (map ascii_of_nat (seq 0 256))).
  { intros a. rewrite <- (ascii_nat_embedding a). apply in_map, in_seq.
    pose proof (nat_ascii_bounded a). lia. }
  intros H. rewrite forallb_forall in Hall.
  pose proof (Hall c (Hin c)) as Hc. rewrite forallb_forall in Hc.
  pose proof (Hc x (Hin x)) as Hx. rewrite H in Hx.
  now apply Ascii.eqb_eq.
Qed.

Lemma ascii_lower_app (s t : string) :
  ascii_lower (s +:+ t) = ascii_lower s +:+ ascii_lower t.
Proof.
  induction s as [|c s IH]; [now rewrite !str_app_nil_l|].
  rewrite str_app_cons. simpl. now rewrite IH.
Qed.

(** What the query matches, as a literal under the [i] flag, is the query up
    to letter case. *)
Lemma rmatch_lit_i total p :
  forall k caps s o,
    rmatch total (lit_i p) k caps s = Some o ->
    exists v rest,
      s = v +:+ rest /\ ascii_lower v = ascii_lower p /\ k caps rest = Some o.
Proof.
  induction p as [|c p IH]; intros k caps s o; cbn [lit_i rmatch].
  - intros H. exists EmptyString, s. now rewrite str_app_nil_l.
  - destruct s as [|a s]; [discriminate|].
    destruct (just_i c a) eqn:E; [|discriminate].
    intros H. destruct (IH _ _ _ _ H) as (v & rest & -> & Hv & Hk).
    exists (String a v), rest. rewrite str_app_cons. repeat split; [|exact Hk].
    simpl. now rewrite Hv, (just_i_lower c a E).
Qed.

Lemma includes_head (s p : string) :
  includes s p = false -> startsWith s p = false.
Proof.
  destruct s; simpl; intros H; now apply orb_false_elim in H.
Qed.

Lemma includes_tail (c : ascii) (s p : string) :
  includes (String c s) p = false -> includes s p = false.
Proof.
  cbn [includes]. intros H. now apply orb_false_elim in H.
Qed.

(** On an ASCII text, the literal under the [i] flag needs no case table. *)
Lemma characters_ascii (s : string) :
  is_ascii s = true ->
  forall fuel, String.length s <= fuel ->
    characters fuel s = map (fun c => String c EmptyString) (list_ascii_of_string s).
Proof.
  induction s as [|c s IH]; intros Hs fuel Hfuel; [now destruct fuel|].
  simpl in Hs, Hfuel. apply andb_prop in Hs. destruct Hs as [Hc Hs].
  destruct fuel as [|fuel]; [lia|]. cbn [characters list_ascii_of_string map].
  assert (Hf : followers c = 0).
  { unfold followers. apply Nat.ltb_lt in Hc.
    replace (nat_of_ascii c <? 192) with true by (symmetry; apply Nat.ltb_lt; lia).
    reflexivity. }
  rewrite Hf. cbn [take_bytes drop_bytes]. f_equal. apply IH; [exact Hs | lia].
Qed.

Lemma text_i_ascii (caseVariants : string -> list string) (s : string) :
  is_ascii s = true -> text_i caseVariants s = lit_i s.
Proof.
  intros Hs. unfold text_i. rewrite (characters_ascii s Hs) by lia.
  clear Hs. induction s as [|c s IH]; [reflexivity|].
  cbn [list_ascii_of_string map fold_right lit_i char_i]. now rewrite IH.
Qed.

Section Folding.

Variable caseVariants : string -> list string.

Local Abbreviation query_regex := (Search.query_regex caseVariants).
Local Abbreviation highlightSearchMatch := (Search.highlightSearchMatch caseVariants).

Lemma search_query_none total (q s : string) :
  is_ascii q = true ->
  includes (ascii_lower s) (ascii_lower q) = false ->
  search total (query_regex q) s = None.
Proof.
  intros Hq. unfold Search.query_regex. rewrite (text_i_ascii caseVariants q Hq).
  assert (Hhead : forall s, includes (ascii_lower s) (ascii_lower q) = false ->
            rmatch total (Group 1 (lit_i q)) accept [] s = None).
  { intros s' H. apply includes_head in H.
    destruct (rmatch total (Group 1 (lit_i q)) accept [] s') as [o|] eqn:E;
      [|reflexivity].
    cbn [rmatch] in E. apply rmatch_lit_i in E.
    destruct E as (v & rest & -> & Hv & _).
    now rewrite ascii_lower_app, Hv, startsWith_app in H. }
  induction s as [|c s IH]; intros H; cbn [search]; rewrite (Hhead _ H);
    [reflexivity|].
  change (ascii_lower (String c s)) with (String (lower c) (ascii_lower s)) in H.
  apply includes_tail in H. now rewrite (IH H).
Qed.

Lemma highlight_text_none (q s : string) :
  is_ascii q = true ->
  includes (ascii_lower s) (ascii_lower q) = false ->
  highlight_text (query_regex q) s = s.
Proof.
  intros Hq H. unfold highlight_text, replace_all, scan_all. cbn [scan].
  now rewrite (search_query_none _ q s Hq H).
Qed.

(** A text that occurs in a part of another occurs in the whole. *)
Lemma strip_prefix_app (p t b r : string) :
  strip_prefix p t = Some r -> strip_prefix p (t +:+ b) = Some (r +:+ b).
Proof.
  revert t. induction p as [|a p IH]; intros t; cbn [strip_prefix].
  - now intros [= ->].
  - destruct t as [|c t]; [discriminate|]. rewrite str_app_cons. cbn [strip_prefix].
    destruct (Ascii.eqb a c); [apply IH | discriminate].
Qed.

Lemma includes_prefix (t b p : string) :
  includes (t +:+ b) p = false -> includes t p = false.
Proof.
  induction t as [|c t IH].
  - rewrite str_app_nil_l. intros H. cbn [includes]. rewrite orb_false_r.
    unfold startsWith. destruct (strip_prefix p EmptyString) as [r|] eqn:E;
      [|reflexivity].
    apply includes_head in H. unfold startsWith in H.
    now rewrite <- (str_app_nil_l b), (strip_prefix_app _ _ b _ E) in H.
  - rewrite str_app_cons. intros H. cbn [includes].
    rewrite (IH (includes_tail _ _ _ H)), orb_false_r.
    apply includes_head in H. unfold startsWith in *.
    destruct (strip_prefix p (String c t)) as [r|] eqn:E; [|reflexivity].
    now rewrite <- str_app_cons, (strip_prefix_app _ _ b _ E) in H.
Qed.

Lemma includes_suffix (a t p : string) :
  includes (a +:+ t) p = false -> includes t p = false.
Proof.
  induction a as [|c a IH]; [now rewrite str_app_nil_l|].
  rewrite str_app_cons. intros H. apply IH. exact (includes_tail _ _ _ H).
Qed.

Lemma render_none (q : string) (parts : list part) :
  is_ascii q = true ->
  includes (ascii_lower (concat_strings (map part_source parts))) (ascii_lower q)
  = false ->
  concat_strings (map (render (query_regex q)) parts)
  = concat_strings (map part_source parts).
Proof.
  intros Hq. induction parts as [|p parts IH]; [reflexivity|].
  cbn [map concat_strings]. rewrite ascii_lower_app. intros H.
  rewrite (IH (includes_suffix _ _ _ H)). f_equal.
  destruct p as [s|s]; [reflexivity|]. cbn [render part_source] in *.
  apply highlight_text_none; [exact Hq|]. exact (includes_prefix _ _ _ H).
Qed.

(** X22: an ASCII query that occurs nowhere in a text, the case of the
    ASCII letters apart, leaves the text as it is: [highlightSearchMatch]
    returns its input, tags or no tags, whatever other characters the text
    holds. *)
Theorem absent_query_marks_nothing (html query : string) :
  is_ascii (trim query) = true ->
  includes (ascii_lower html) (ascii_lower (trim query)) = false ->
  highlightSearchMatch html query = html.
Proof.
  intros Hq H. rewrite segments_render.
  rewrite <- (segments_source html query) at 2.
  apply render_none; [exact Hq|]. now rewrite segments_source.
Qed.

End Folding.

Lemma absent_query_marks_nothing_witness :
  is_ascii (trim " Bye ") = true
  /\ includes (ascii_lower "<b>Hello</b> world") (ascii_lower (trim " Bye ")) = false
  /\ highlightSearchMatch (fun _ => []) "<b>Hello</b> world" " Bye "
     = "<b>Hello</b> world".
Proof.
  assert (Hq : is_ascii (trim " Bye ") = true) by (vm_compute; reflexivity).
  assert (H : includes (ascii_lower "<b>Hello</b> world") (ascii_lower (trim " Bye "))
              = false) by (vm_compute; reflexivity).
  split; [exact Hq|]. split; [exact H|].
  exact (absent_query_marks_nothing (fun _ => []) "<b>Hello</b> world" " Bye " Hq H).
Defined.

End NoMatchFacts.


(** ** Worked examples *)

Module Examples.
Import JsString Regex Json JsNumber Patterns Utils Processor Search Spec.

Example parse_object :
  parse (quoted "{'a':[1,2.5e3,true,null,'x'],'b':{}}")
  = Some (JObject [("a", JArray [JNumber "1"; JNumber "2.5e3"; JBool true; JNull;
                                 JString "x"]);
                   ("b", JObject [])]).
Proof. vm_compute. reflexivity. Qed.

Example parse_escapes :
  parse (quoted "'é\n'") = Some (JString (bytes [195; 169; 10])).
Proof. vm_compute. reflexivity. Qed.

Example parse_trailing_comma : parse "[1,]" = None.
Proof. vm_compute. reflexivity. Qed.

Example trim_unicode_space :
  trim (bytes [9; 226; 128; 168; 97; 32; 98; 194; 160]) = "a b".
Proof. vm_compute. reflexivity. Qed.

Example cleanDisplayName_prefix :
  cleanDisplayName (Some "8:live:alice") = Some "live:alice"
  /\ cleanDisplayName (Some "alice") = Some "alice"
  /\ cleanDisplayName (Some EmptyString) = None.
Proof. repeat split; vm_compute; reflexivity. Qed.

Example content_rewrites :
  parseMessageContent (fun s => s) (fun s => s)
    (quoted "see <a href='https://x.org'>x</a>, <b>now</b> <at id='8:bob'>Bob</at><e_m a='1'/>")
  = quoted "see <a href='https://x.org' target='_blank' rel='noopener noreferrer'>x</a>, <strong>now</strong> <strong>@Bob</strong>".
Proof. vm_compute. reflexivity. Qed.

Example generic_file :
  parseGenericFile
    (quoted "<URIObject><OriginalName v='notes.pdf'/><FileSize v='1536'/></URIObject>")
  = "📎 <em>notes.pdf</em> (1.5 KB)".
Proof. vm_compute. reflexivity. Qed.

Example call_of_three :
  parseCallEvent (fun s => s) (record "c" "Event/Call" three_segments "8:ann") viewer
  = "Call ended • 42s • Ann, Bob, Cy".
Proof. vm_compute. reflexivity. Qed.

Example duration_with_minutes : formatCallDuration (parseFloat "125.5") = "2m 5s".
Proof. vm_compute. reflexivity. Qed.

(** Reading rounds: a text just below 60 reads as 60, and one below half of
    the least positive value as zero. *)
Example duration_read_as_a_minute :
  formatCallDuration (parseFloat "59.99999999999999999") = "1m 0s".
Proof. vm_compute. reflexivity. Qed.

Example duration_read_as_zero : parseFloat "1e-400" = Fin 0.
Proof. vm_compute. reflexivity. Qed.

(** From [2^53] on the quotient by 60 is rounded, and from [10^21] on a
    number is printed in exponent notation. *)
Example minutes_are_rounded :
  formatCallDuration (parseFloat "270215977642229792") = "4503599627370497m 32s".
Proof. vm_compute. reflexivity. Qed.

Example minutes_in_exponent_notation :
  formatCallDuration (parseFloat "6e22") = "1e+21m 0s".
Proof. vm_compute. reflexivity. Qed.

Example file_sizes :
  formatFileSize (parseInt "1048575") = "1024.0 KB"
  /\ formatFileSize (parseInt "1572864") = "1.5 MB"
  /\ formatFileSize (parseInt "9007199254740993") = "8589934592.0 MB"
  /\ formatFileSize (parseInt "1048576000000000000000000000") = "1e+21 MB".
Proof. repeat split; vm_compute; reflexivity. Qed.

Example popcard_joins_both :
  parsePopCard
    (record "p" "PopCard"
       (quoted "[{'content':{'title':'Alert','text':'Storage low'}}]") "8:system")
  = "Alert: Storage low".
Proof. vm_compute. reflexivity. Qed.

Example translation_of_another_sender :
  map ProcessedMessage.content
    (processMessages (fun s => s) (fun s => s) (fun s => s)
       [own_translation; own_original; malformed_notice] "8:ann" false false None)
  = ["hello"; "System Notice"].
Proof. vm_compute. reflexivity. Qed.

Example highlight_in_markup :
  highlightSearchMatch (fun _ => []) "<b>Hello</b> hello" "he"
  = quoted "<b><mark style='background-color: rgba(255, 255, 0, 0.4); padding: 2px 0;'>He</mark>llo</b> <mark style='background-color: rgba(255, 255, 0, 0.4); padding: 2px 0;'>he</mark>llo".
Proof. vm_compute. reflexivity. Qed.

(** A letter outside ASCII matches the variants the host gives it. *)
Example accent_under_the_i_flag :
  highlightSearchMatch (fun w => if String.eqb w "é" then ["É"] else []) "CAFÉ" "café"
  = quoted "<mark style='background-color: rgba(255, 255, 0, 0.4); padding: 2px 0;'>CAFÉ</mark>".
Proof. vm_compute. reflexivity. Qed.

End Examples.
